(** * Scratch value coercion ([Cast]) and colour model ([Color])

    A shallow embedding of the two utility classes [Color] and [Cast] of the
    extension bundle, together with the part of the JavaScript runtime they
    rely on.

    - JavaScript numbers are IEEE 754 binary64 values: [spec_float] at
      precision 53 and maximal exponent 1024, with the arithmetic of the
      standard library's [SpecFloat] (round to nearest, ties to even).
    - JavaScript strings are sequences of code units; the embedding keeps the
      code units 0..255 (one [ascii] each), which covers every character the
      two classes inspect.
    - A dynamically typed argument is a [value]: undefined, null, a boolean,
      a number or a string.
    - A call either returns normally or throws: [completion]. *)

From Stdlib Require Import ZArith Lia Bool List Ascii String SpecFloat.
From Stdlib Require Import DecimalString.
From Stdlib Require DecimalFacts DecimalPos DecimalN.
Import ListNotations.

Local Open Scope Z_scope.

(** ** The JavaScript runtime used by the two classes *)

Module JS.

(** *** Numbers *)

Definition prec : Z := 53.
Definition emax : Z := 1024.

Definition number : Type := spec_float.

Definition NaN : number := S754_nan.
Definition Infinity : number := S754_infinity false.
Definition negInfinity : number := S754_infinity true.
Definition zero : number := S754_zero false.
Definition negzero : number := S754_zero true.

(** The number with mathematical value [z] (rounded when [z] needs more than
    53 bits). *)
Definition of_Z (z : Z) : number := binary_normalize prec emax z 0 false.

(** The number nearest to the ratio [n / d] of two positive integers, with
    sign [sx]. *)
Definition of_ratio (sx : bool) (n d : positive) : number :=
  let '(q, e, l) := SFdiv_core_binary prec emax (Zpos n) 0 (Zpos d) 0 in
  binary_round_aux prec emax sx q e l.

(** The number nearest to [m * 10 ^ e10], with sign [sx]: the value of a
    decimal literal. *)
Definition of_decimal (sx : bool) (m : Z) (e10 : Z) : number :=
  match m with
  | Zpos p =>
      if 0 <=? e10
      then binary_normalize prec emax (cond_Zopp sx (Zpos p * 10 ^ e10)) 0 false
      else of_ratio sx p (Z.to_pos (10 ^ (- e10)))
  | _ => S754_zero sx
  end.

Definition add : number -> number -> number := SFadd prec emax.
Definition sub : number -> number -> number := SFsub prec emax.
Definition mul : number -> number -> number := SFmul prec emax.
Definition div : number -> number -> number := SFdiv prec emax.

(** [x < y], [x <= y], [x > y], [x >= y] and [x === y] on numbers; each is
    false as soon as one side is NaN. *)
Definition ltb (x y : number) : bool := SFltb x y.
Definition leb (x y : number) : bool := SFleb x y.
Definition gtb (x y : number) : bool := SFltb y x.
Definition geb (x y : number) : bool := SFleb y x.
Definition eqb (x y : number) : bool := SFeqb x y.

Definition isNaN (x : number) : bool :=
  match x with S754_nan => true | _ => false end.

(** [x % y]: the remainder of the truncating division, computed exactly; it
    carries the sign of the dividend. *)
Definition rem (x y : number) : number :=
  match x, y with
  | S754_nan, _ | _, S754_nan => S754_nan
  | S754_infinity _, _ => S754_nan
  | _, S754_zero _ => S754_nan
  | _, S754_infinity _ => x
  | S754_zero _, _ => x
  | S754_finite sx mx ex, S754_finite _ my ey =>
      let ez := Z.min ex ey in
      let a := Zpos mx * 2 ^ (ex - ez) in
      let b := Zpos my * 2 ^ (ey - ez) in
      binary_normalize prec emax (cond_Zopp sx (Z.rem a b)) ez sx
  end.

(** [Math.floor]. *)
Definition Math_floor (x : number) : number :=
  match x with
  | S754_finite s m e =>
      if 0 <=? e then x
      else binary_normalize prec emax (cond_Zopp s (Zpos m) / 2 ^ (- e)) 0 false
  | _ => x
  end.

(** [Math.min] and [Math.max] of an argument list. *)
Definition is_negzero (x : number) : bool :=
  match x with S754_zero true => true | _ => false end.
Definition is_poszero (x : number) : bool :=
  match x with S754_zero false => true | _ => false end.

Definition min_step (lowest x : number) : number :=
  if is_negzero x && is_poszero lowest then negzero
  else if ltb x lowest then x else lowest.

Definition max_step (highest x : number) : number :=
  if is_poszero x && is_negzero highest then zero
  else if gtb x highest then x else highest.

Definition Math_min (args : list number) : number :=
  if existsb isNaN args then NaN else fold_left min_step args Infinity.

Definition Math_max (args : list number) : number :=
  if existsb isNaN args then NaN else fold_left max_step args negInfinity.

(** The integer part of a finite number, rounding toward zero. *)
Definition truncate (x : number) : Z :=
  match x with
  | S754_finite s m e =>
      if 0 <=? e then cond_Zopp s (Zpos m * 2 ^ e)
      else Z.quot (cond_Zopp s (Zpos m)) (2 ^ (- e))
  | _ => 0
  end.

(** Two's complement wrap-around to 32 bits, and [ToInt32]. *)
Definition wrap32 (z : Z) : Z :=
  let k := z mod 2 ^ 32 in
  if 2 ^ 31 <=? k then k - 2 ^ 32 else k.

Definition ToInt32 (x : number) : Z := wrap32 (truncate x).

(** [x << n], [x >> n] and [x & y]; the shift count is taken modulo 32. *)
Definition shl (x : number) (n : Z) : number :=
  of_Z (wrap32 (Z.shiftl (ToInt32 x) (n mod 32))).
Definition sar (x : number) (n : Z) : number :=
  of_Z (Z.shiftr (ToInt32 x) (n mod 32)).
Definition band (x y : number) : number :=
  of_Z (Z.land (ToInt32 x) (ToInt32 y)).

(** *** Strings *)

Local Open Scope string_scope.
Local Open Scope Z_scope.

Definition code (c : ascii) : Z := Z.of_N (N_of_ascii c).
Definition char_of_code (n : Z) : ascii := ascii_of_N (Z.to_N n).

(** White space and line terminators (among the code units 0..255). *)
Definition isWhiteSpaceChar (c : ascii) : bool :=
  let n := code c in
  ((9 <=? n) && (n <=? 13)) || (n =? 32) || (n =? 160).

Fixpoint trimStart (s : string) : string :=
  match s with
  | String c s' => if isWhiteSpaceChar c then trimStart s' else s
  | EmptyString => EmptyString
  end.

Fixpoint trimEnd (s : string) : string :=
  match s with
  | String c s' =>
      match trimEnd s' with
      | EmptyString =>
          if isWhiteSpaceChar c then EmptyString else String c EmptyString
      | t => String c t
      end
  | EmptyString => EmptyString
  end.

(** [String.prototype.trim]. *)
Definition trim (s : string) : string := trimEnd (trimStart s).

Definition lower_char (c : ascii) : ascii :=
  let n := code c in
  if ((65 <=? n) && (n <=? 90)) ||
     ((192 <=? n) && (n <=? 222) && negb (n =? 215))
  then char_of_code (n + 32) else c.

(** [String.prototype.toLowerCase]. *)
Fixpoint toLowerCase (s : string) : string :=
  match s with
  | String c s' => String (lower_char c) (toLowerCase s')
  | EmptyString => EmptyString
  end.

(** [s.indexOf(c) >= 0] for a one-character needle. *)
Fixpoint contains_char (c : ascii) (s : string) : bool :=
  match s with
  | String c' s' => Ascii.eqb c' c || contains_char c s'
  | EmptyString => false
  end.

(** The value of a digit character, in radix up to 36. *)
Definition digit_value (c : ascii) : option Z :=
  let n := code c in
  if (48 <=? n) && (n <=? 57) then Some (n - 48)
  else if (97 <=? n) && (n <=? 122) then Some (n - 87)
  else if (65 <=? n) && (n <=? 90) then Some (n - 55)
  else None.

Definition radix_digit (R : Z) (c : ascii) : option Z :=
  match digit_value c with
  | Some d => if d <? R then Some d else None
  | None => None
  end.

(** Reads the longest prefix of radix-[R] digits: the value accumulated on
    top of [acc], the number of digits added to [n], and what follows. *)
Fixpoint read_digits (R : Z) (s : string) (acc n : Z) : Z * Z * string :=
  match s with
  | String c s' =>
      match radix_digit R c with
      | Some d => read_digits R s' (acc * R + d) (n + 1)
      | None => (acc, n, s)
      end
  | EmptyString => (acc, n, s)
  end.

Definition strip_sign (s : string) : bool * string :=
  match s with
  | String "-" s' => (true, s')
  | String "+" s' => (false, s')
  | _ => (false, s)
  end.

Definition strip_prefix (lo up : ascii) (s : string) : option string :=
  match s with
  | String "0" (String c s') =>
      if Ascii.eqb c lo || Ascii.eqb c up then Some s' else None
  | _ => None
  end.

(** [parseInt(string, radix)]. *)
Definition parseInt (input : string) (radix : Z) : number :=
  let '(sign, body) := strip_sign (trimStart input) in
  if negb (radix =? 0) && ((radix <? 2) || (36 <? radix)) then NaN
  else
    let stripPrefix := (radix =? 0) || (radix =? 16) in
    let R := if radix =? 0 then 10 else radix in
    let '(R, body) :=
      match (if stripPrefix then strip_prefix "x" "X" body else None) with
      | Some body' => (16, body')
      | None => (R, body)
      end in
    let '(v, n, _) := read_digits R body 0 0 in
    if n =? 0 then NaN
    else if v =? 0 then S754_zero sign
    else of_Z (cond_Zopp sign v).

(** The radix announced by a [0x], [0o] or [0b] prefix. *)
Definition non_decimal_prefix (s : string) : option (Z * string) :=
  match strip_prefix "x" "X" s with
  | Some s' => Some (16, s')
  | None =>
      match strip_prefix "o" "O" s with
      | Some s' => Some (8, s')
      | None =>
          match strip_prefix "b" "B" s with
          | Some s' => Some (2, s')
          | None => None
          end
      end
  end.

Definition exponent_part (s : string) : option (Z * string) :=
  match s with
  | String c s' =>
      if Ascii.eqb c "e" || Ascii.eqb c "E" then
        let '(neg, s'') := strip_sign s' in
        let '(x, nx, rest) := read_digits 10 s'' 0 0 in
        if nx =? 0 then None else Some (cond_Zopp neg x, rest)
      else Some (0, s)
  | EmptyString => Some (0, s)
  end.

(** A signed decimal literal: [Infinity], or digits with an optional
    fraction and exponent. *)
Definition decimal_literal (s : string) : number :=
  let '(sign, body) := strip_sign s in
  if String.eqb body "Infinity" then S754_infinity sign
  else
    let '(i, ni, r1) := read_digits 10 body 0 0 in
    let '(mant, nf, r2, wellformed) :=
      match r1 with
      | String "." r1' =>
          let '(f, nall, r2) := read_digits 10 r1' i ni in
          (f, nall - ni, r2, 0 <? nall)
      | _ => (i, 0, r1, 0 <? ni)
      end in
    if wellformed then
      match exponent_part r2 with
      | Some (x, EmptyString) => of_decimal sign mant (x - nf)
      | _ => NaN
      end
    else NaN.

(** [StringToNumber]: the numeric value of a string, NaN when it is not a
    numeric literal surrounded by optional white space. *)
Definition StringToNumber (str : string) : number :=
  match trim str with
  | EmptyString => zero
  | s =>
      match non_decimal_prefix s with
      | Some (R, body) =>
          let '(v, n, rest) := read_digits R body 0 0 in
          match rest with
          | EmptyString => if n =? 0 then NaN else of_Z v
          | _ => NaN
          end
      | None => decimal_literal s
      end
  end.

(** The decimal digits of a non-negative integer. *)
Definition decimal_digits (z : Z) : string :=
  NilEmpty.string_of_uint (N.to_uint (Z.to_N z)).

Definition zeros (n : Z) : string :=
  string_of_list_ascii (List.repeat "0"%char (Z.to_nat n)).

(** The [n0] with [10 ^ (n0 - 1) <= num / den < 10 ^ n0]. *)
Fixpoint below_one (fuel : nat) (num den j : Z) : Z :=
  match fuel with
  | S fuel' =>
      if den <=? num * 10 ^ j then 1 - j else below_one fuel' num den (j + 1)
  | O => 1 - j
  end.

Definition decimal_exponent (num den : Z) : Z :=
  if den <=? num then Z.of_nat (String.length (decimal_digits (num / den)))
  else below_one 400 num den 1.

(** The candidates with [k] digits next to [num / den]: the one below and the
    one above, kept when they denote the number [x]; of two that do, the
    nearer one, and the even one on a tie. *)
Definition try_digits (x : number) (num den n0 k : Z) : option (Z * Z) :=
  let '(a, b) :=
    if n0 <=? k then (num * 10 ^ (k - n0), den)
    else (num, den * 10 ^ (n0 - k)) in
  let lo := a / b in
  let r := a mod b in
  let '(hi, hn) :=
    if lo + 1 =? 10 ^ k then (10 ^ (k - 1), n0 + 1) else (lo + 1, n0) in
  let ok_lo := eqb (of_decimal false lo (n0 - k)) x in
  let ok_hi := eqb (of_decimal false hi (hn - k)) x in
  match ok_lo, ok_hi with
  | true, true =>
      match 2 * r ?= b with
      | Lt => Some (lo, n0)
      | Gt => Some (hi, hn)
      | Eq => if Z.even lo then Some (lo, n0) else Some (hi, hn)
      end
  | true, false => Some (lo, n0)
  | false, true => Some (hi, hn)
  | false, false => None
  end.

Fixpoint shortest_from (fuel : nat) (x : number) (num den n0 k : Z)
  : Z * Z * Z :=
  match fuel with
  | S fuel' =>
      match try_digits x num den n0 k with
      | Some (s, n) => (n, k, s)
      | None => shortest_from fuel' x num den n0 (k + 1)
      end
  | O => (n0, k, num * 10 ^ (k - n0) / den)
  end.

(** The integers [n], [k], [s] of [Number::toString]: [s] has [k] digits,
    [s * 10 ^ (n - k)] denotes the positive number [m * 2 ^ e], and [k] is as
    small as possible. *)
Definition shortest_digits (m : positive) (e : Z) : Z * Z * Z :=
  let '(num, den) :=
    if 0 <=? e then (Zpos m * 2 ^ e, 1) else (Zpos m, 2 ^ (- e)) in
  shortest_from 17 (S754_finite false m e) num den (decimal_exponent num den) 1.

Definition format_digits (nks : Z * Z * Z) : string :=
  let '(n, k, s) := nks in
  let D := decimal_digits s in
  if (k <=? n) && (n <=? 21) then D ++ zeros (n - k)
  else if (0 <? n) && (n <=? 21) then
    substring 0 (Z.to_nat n) D ++ "." ++
    substring (Z.to_nat n) (Z.to_nat (k - n)) D
  else if (-6 <? n) && (n <=? 0) then "0." ++ zeros (- n) ++ D
  else
    let e := n - 1 in
    let E := (if e <? 0 then "e-" else "e+") ++ decimal_digits (Z.abs e) in
    if k =? 1 then D ++ E
    else substring 0 1 D ++ "." ++ substring 1 (Z.to_nat (k - 1)) D ++ E.

(** [Number::toString] in radix 10. *)
Definition NumberToString (x : number) : string :=
  match x with
  | S754_nan => "NaN"
  | S754_zero _ => "0"
  | S754_infinity false => "Infinity"
  | S754_infinity true => "-Infinity"
  | S754_finite s m e =>
      (if s then "-" else "") ++ format_digits (shortest_digits m e)
  end.

(** [ToIntegerOrInfinity]: NaN counts as 0 and a finite number is
    truncated. *)
Inductive integer_or_infinity : Type :=
  | Integer (z : Z)
  | PlusInfinity
  | MinusInfinity.

Definition ToIntegerOrInfinity (x : number) : integer_or_infinity :=
  match x with
  | S754_infinity false => PlusInfinity
  | S754_infinity true => MinusInfinity
  | _ => Integer (truncate x)
  end.

(** The code unit at an integer position, if the string has one there. *)
Definition code_unit_at (s : string) (pos : integer_or_infinity)
  : option ascii :=
  match pos with
  | Integer p => if p <? 0 then None else String.get (Z.to_nat p) s
  | _ => None
  end.

(** [String.prototype.charAt] and [String.prototype.charCodeAt]. *)
Definition charAt (s : string) (pos : number) : string :=
  match code_unit_at s (ToIntegerOrInfinity pos) with
  | Some c => String c EmptyString
  | None => EmptyString
  end.

Definition charCodeAt (s : string) (pos : number) : number :=
  match code_unit_at s (ToIntegerOrInfinity pos) with
  | Some c => of_Z (code c)
  | None => NaN
  end.

(** [String.prototype.substr] on integer arguments. *)
Definition substr (s : string) (start length : Z) : string :=
  let size := Z.of_nat (String.length s) in
  let intStart :=
    if start <? 0 then Z.max (size + start) 0 else Z.min start size in
  let intLength := Z.min (Z.max length 0) size in
  let intEnd := Z.min (intStart + intLength) size in
  substring (Z.to_nat intStart) (Z.to_nat (intEnd - intStart)) s.

(** The character of a digit below 36, in lower case. *)
Definition digit_char (d : Z) : ascii :=
  char_of_code (if d <? 10 then 48 + d else 87 + d).

(** The digits of a non-negative integer [z] in radix [R], the most
    significant one first, in front of [acc]. *)
Fixpoint radix_digits (fuel : nat) (R z : Z) (acc : string) : string :=
  match fuel with
  | S fuel' =>
      let acc := String (digit_char (z mod R)) acc in
      if z <? R then acc else radix_digits fuel' R (z / R) acc
  | O => acc
  end.

Definition integer_digits (R z : Z) : string :=
  radix_digits (S (Z.to_nat (Z.log2 z))) R z EmptyString.

(** The integer a number denotes, when it denotes one. *)
Definition integer_value (x : number) : option Z :=
  match x with
  | S754_zero _ => Some 0
  | S754_finite s m e =>
      if 0 <=? e then Some (cond_Zopp s (Zpos m * 2 ^ e))
      else if Zpos m mod 2 ^ (- e) =? 0
           then Some (cond_Zopp s (Zpos m / 2 ^ (- e)))
           else None
  | _ => None
  end.

(** [Number::toString] in a radix other than 10.  The language fixes the
    result for NaN, the zeros and the infinities, and asks for a
    generalisation of the radix 10 algorithm otherwise: for an integer of
    magnitude up to [2 ^ 53] that is the digits of the integer; the digits of
    any other number are left to the implementation, [approx]. *)
Definition NumberToString_radix (approx : number -> Z -> string)
    (x : number) (radix : Z) : string :=
  match x with
  | S754_nan => "NaN"
  | S754_zero _ => "0"
  | S754_infinity s => if s then "-Infinity" else "Infinity"
  | S754_finite s _ _ =>
      match integer_value x with
      | Some z =>
          if Z.abs z <=? 2 ^ 53
          then (if s then "-" else "") ++ integer_digits radix (Z.abs z)
          else approx x radix
      | None => approx x radix
      end
  end.

(** *** Values and completions *)

(** The values of the embedding are the primitive values of the language.
    Arrays and objects, which a block argument or a list variable can hold
    too, are not embedded: a statement about every [value] is a statement
    about these five kinds. *)
Inductive value : Type :=
  | VUndefined
  | VNull
  | VBoolean (b : bool)
  | VNumber (n : number)
  | VString (s : string).

(** [Number(v)]. *)
Definition ToNumber (v : value) : number :=
  match v with
  | VUndefined => NaN
  | VNull => zero
  | VBoolean b => if b then of_Z 1 else zero
  | VNumber n => n
  | VString s => StringToNumber s
  end.

(** [String(v)]. *)
Definition ToString (v : value) : string :=
  match v with
  | VUndefined => "undefined"
  | VNull => "null"
  | VBoolean b => if b then "true" else "false"
  | VNumber n => NumberToString n
  | VString s => s
  end.

Inductive error : Type := TypeError.

Inductive completion (A : Type) : Type :=
  | Normal (a : A)
  | Throw (e : error).
Arguments Normal {A} a.
Arguments Throw {A} e.

Definition bind {A B : Type} (c : completion A) (f : A -> completion B)
  : completion B :=
  match c with
  | Normal a => f a
  | Throw e => Throw e
  end.

End JS.

(** ** The value of a number

    The notions the statements about arithmetic are written with: the
    mathematical value of a finite number, and what rounding may do to it. *)

Module Binary64.
Import JS.

Local Open Scope Z_scope.

(** Every finite number, every product of two of them and every quotient the
    division rounds is a multiple of [2 ^ (- bias)]. *)
Definition bias : Z := 2200.

(** The value of a finite number in units of [2 ^ (- bias)]; 0 for the
    others. *)
Definition val (x : number) : Z :=
  match x with
  | S754_finite s m e => cond_Zopp s (Zpos m * 2 ^ (e + bias))
  | _ => 0
  end.

Definition sign_bit (x : number) : bool :=
  match x with
  | S754_zero s | S754_infinity s | S754_finite s _ _ => s
  | S754_nan => false
  end.

(** A zero, or a finite number in the canonical form of binary64. *)
Definition regular (x : number) : Prop :=
  match x with
  | S754_zero _ => True
  | S754_finite _ m e => bounded prec emax m e = true
  | _ => False
  end.

(** A number other than NaN, in the canonical form of binary64: zero,
    infinite, or finite and [regular]. *)
Definition wellformed (x : number) : Prop :=
  valid_binary prec emax x = true /\ isNaN x = false.

(** The unit in the last place of the numbers of magnitude [X]. *)
Definition ulp (X : Z) : Z :=
  2 ^ (fexp prec emax (Zdigits2 X - bias) + bias).

(** [R] is one of the two multiples of [ulp X] around [X], and [X] itself
    when [X] is such a multiple and nothing was lost before ([exact]). *)
Definition rounding (exact : bool) (X R : Z) : Prop :=
  X / ulp X * ulp X <= R <= (X / ulp X + 1) * ulp X /\
  (exact = true -> X mod ulp X = 0 -> R = X).

(** [R] is the multiple of [ulp X] nearest to [X], and the even one of the
    two when [X] is half way. *)
Definition nearest (X R : Z) : Prop :=
  rounding true X R /\
  R mod ulp X = 0 /\
  2 * Z.abs (R - X) <= ulp X /\
  (2 * Z.abs (R - X) = ulp X -> Z.even (R / ulp X) = true).

(** The number [r] has sign [s] and magnitude [R], or is the infinity that
    stands for a magnitude out of range. *)
Definition represents (s : bool) (R : Z) (r : number) : Prop :=
  (regular r /\ sign_bit r = s /\ val r = cond_Zopp s R) \/
  (r = S754_infinity s /\ 2 ^ (emax + bias) <= R).

(** A number in [[0, B]] that is not the negative zero; [B] is in units of
    [2 ^ (- bias)]. *)
Definition within (B : Z) (x : number) : Prop :=
  regular x /\ sign_bit x = false /\ val x <= B.

Definition one : Z := 2 ^ bias.

(** The sign of a sum of value [v]: the sign of [v], and [s0] when [v] is
    zero. *)
Definition sum_sign (v : Z) (s0 : bool) : bool :=
  if v =? 0 then s0 else v <? 0.

End Binary64.

(** ** The colour model: class [Color]

    Every method of the class is embedded.  The methods that print a number
    in radix 16 take the implementation's approximation [approx] of
    [NumberToString_radix] as their first argument. *)

Module Color.
Import JS.

Local Open Scope string_scope.
Local Open Scope Z_scope.

(** An RGB colour object [{r, g, b}], with the alpha component [a] when the
    object has one. *)
Record RGBObject : Type := mkRGB {
  r : number;
  g : number;
  b : number;
  a : option number
}.

(** An HSV colour object [{h, s, v}]. *)
Record HSVObject : Type := mkHSV {
  h : number;
  s : number;
  v : number
}.

Definition RGB_BLACK : RGBObject := mkRGB zero zero zero None.

Definition RGB_WHITE : RGBObject :=
  mkRGB (of_Z 255) (of_Z 255) (of_Z 255) None.

Definition decimalToRgb (decimal : number) : RGBObject :=
  let a := band (sar decimal 24) (of_Z 255) in
  let r := band (sar decimal 16) (of_Z 255) in
  let g := band (sar decimal 8) (of_Z 255) in
  let b := band decimal (of_Z 255) in
  mkRGB r g b (Some (if gtb a zero then a else of_Z 255)).

(** The character class [[a-f\d]] under the [i] flag. *)
Definition isHexDigit (c : ascii) : bool :=
  match radix_digit 16 c with Some _ => true | None => false end.

(** The optional leading [#] of both patterns. *)
Definition strip_hash (hex : string) : string :=
  match hex with
  | String "#" hex' => hex'
  | _ => hex
  end.

(** [/^#?([a-f\d])([a-f\d])([a-f\d])$/i]: the three captured digits. *)
Definition shorthandRegex (hex : string) : option (ascii * ascii * ascii) :=
  match strip_hash hex with
  | String c1 (String c2 (String c3 EmptyString)) =>
      if isHexDigit c1 && isHexDigit c2 && isHexDigit c3
      then Some (c1, c2, c3) else None
  | _ => None
  end.

(** [/^#?([a-f\d]{2})([a-f\d]{2})([a-f\d]{2})$/i]: the three captured
    pairs. *)
Definition fullRegex (hex : string) : option (string * string * string) :=
  match strip_hash hex with
  | String c1 (String c2 (String c3 (String c4 (String c5 (String c6
      EmptyString))))) =>
      if isHexDigit c1 && isHexDigit c2 && isHexDigit c3 &&
         isHexDigit c4 && isHexDigit c5 && isHexDigit c6
      then Some (String c1 (String c2 EmptyString),
                 String c3 (String c4 EmptyString),
                 String c5 (String c6 EmptyString))
      else None
  | _ => None
  end.

(** [hexToRgb] on a string; [None] is the [null] result. *)
Definition hexToRgb_string (hex : string) : option RGBObject :=
  let hex :=
    match shorthandRegex hex with
    | Some (c1, c2, c3) =>
        String c1 (String c1 (String c2 (String c2 (String c3 (String c3
          EmptyString)))))
    | None => hex
    end in
  match fullRegex hex with
  | Some (rr, gg, bb) =>
      Some (mkRGB (parseInt rr 16) (parseInt gg 16) (parseInt bb 16) None)
  | None => None
  end.

(** [hexToRgb]: the method [replace] exists on strings only. *)
Definition hexToRgb (hex : value) : completion (option RGBObject) :=
  match hex with
  | VString str => Normal (hexToRgb_string str)
  | _ => Throw TypeError
  end.

(** [rgbToDecimal]: reading [rgb.r] throws when [rgb] is [null]. *)
Definition rgbToDecimal (rgb : option RGBObject) : completion number :=
  match rgb with
  | Some c => Normal (add (add (shl (r c) 16) (shl (g c) 8)) (b c))
  | None => Throw TypeError
  end.

Definition hexToDecimal (hex : value) : completion number :=
  bind (hexToRgb hex) rgbToDecimal.

Definition decimalToHex (approx : number -> Z -> string) (decimal : number)
  : string :=
  let decimal :=
    if ltb decimal zero then add decimal (add (of_Z 16777215) (of_Z 1))
    else decimal in
  let hex := NumberToString_radix approx decimal 16 in
  "#" ++ substr "000000" 0 (6 - Z.of_nat (String.length hex)) ++ hex.

Definition rgbToHex (approx : number -> Z -> string)
    (rgb : option RGBObject) : completion string :=
  bind (rgbToDecimal rgb) (fun decimal => Normal (decimalToHex approx decimal)).

(** The hue of [hsvToRgb] after [hsv.h % 360] and the correction of a
    negative remainder. *)
Definition hue (hsv : HSVObject) : number :=
  let h0 := rem (h hsv) (of_Z 360) in
  if ltb h0 zero then add h0 (of_Z 360) else h0.

Definition clamp01 (x : number) : number :=
  Math_max [zero; Math_min [x; of_Z 1]].

Definition hsvToRgb (hsv : HSVObject) : RGBObject :=
  let h := hue hsv in
  let s := clamp01 (s hsv) in
  let v := clamp01 (v hsv) in
  let i := Math_floor (div h (of_Z 60)) in
  let f := sub (div h (of_Z 60)) i in
  let p := mul v (sub (of_Z 1) s) in
  let q := mul v (sub (of_Z 1) (mul s f)) in
  let t := mul v (sub (of_Z 1) (mul s (sub (of_Z 1) f))) in
  let '(r, g, b) :=
    if eqb i (of_Z 1) then (q, v, p)
    else if eqb i (of_Z 2) then (p, v, t)
    else if eqb i (of_Z 3) then (p, q, v)
    else if eqb i (of_Z 4) then (t, p, v)
    else if eqb i (of_Z 5) then (v, p, q)
    else (v, t, p) in
  mkRGB (Math_floor (mul r (of_Z 255)))
        (Math_floor (mul g (of_Z 255)))
        (Math_floor (mul b (of_Z 255)))
        None.

Definition rgbToHsv (rgb : RGBObject) : HSVObject :=
  let r := div (r rgb) (of_Z 255) in
  let g := div (g rgb) (of_Z 255) in
  let b := div (b rgb) (of_Z 255) in
  let x := Math_min [Math_min [r; g]; b] in
  let v := Math_max [Math_max [r; g]; b] in
  if negb (eqb x v) then
    let f :=
      if eqb r x then sub g b else if eqb g x then sub b r else sub r g in
    let i :=
      if eqb r x then of_Z 3 else if eqb g x then of_Z 5 else of_Z 1 in
    mkHSV (rem (mul (sub i (div f (sub v x))) (of_Z 60)) (of_Z 360))
          (div (sub v x) v)
          v
  else mkHSV zero zero v.

Definition mixRgb (rgb0 rgb1 : RGBObject) (fraction1 : number) : RGBObject :=
  if leb fraction1 zero then rgb0
  else if geb fraction1 (of_Z 1) then rgb1
  else
    let fraction0 := sub (of_Z 1) fraction1 in
    mkRGB (add (mul fraction0 (r rgb0)) (mul fraction1 (r rgb1)))
          (add (mul fraction0 (g rgb0)) (mul fraction1 (g rgb1)))
          (add (mul fraction0 (b rgb0)) (mul fraction1 (b rgb1)))
          None.

End Color.

(** ** The coercion engine: class [Cast] *)

Module Cast.
Import JS.

Local Open Scope string_scope.
Local Open Scope Z_scope.

Definition toNumber (value : value) : number :=
  match value with
  | VNumber n => if isNaN n then zero else n
  | _ =>
      let n := ToNumber value in
      if isNaN n then zero else n
  end.

(** [toBoolean]; its last branch, [Boolean(value)], is written out for the
    values of the embedding that reach it: a number is true unless it is 0
    or NaN, and undefined and null are false. *)
Definition toBoolean (value : value) : bool :=
  match value with
  | VBoolean b => b
  | VString str =>
      if String.eqb str "" || String.eqb str "0" ||
         String.eqb (toLowerCase str) "false"
      then false else true
  | VNumber n => negb (eqb n zero || isNaN n)
  | VUndefined | VNull => false
  end.

Definition toString (value : value) : string := ToString value.

Definition toRgbColorObject (value : value) : Color.RGBObject :=
  match value with
  | VString (String "#" _ as str) =>
      match Color.hexToRgb_string str with
      | Some color => color
      | None => Color.mkRGB zero zero zero (Some (of_Z 255))
      end
  | _ => Color.decimalToRgb (toNumber value)
  end.

Definition toRgbColorList (value : value) : list number :=
  let color := toRgbColorObject value in
  [Color.r color; Color.g color; Color.b color].

Definition isWhiteSpace (val : value) : bool :=
  match val with
  | VNull => true
  | VString str => Nat.eqb (String.length (trim str)) 0
  | _ => false
  end.

Definition compare (v1 v2 : value) : number :=
  let n1 := ToNumber v1 in
  let n2 := ToNumber v2 in
  let '(n1, n2) :=
    if eqb n1 zero && isWhiteSpace v1 then (NaN, n2)
    else if eqb n2 zero && isWhiteSpace v2 then (n1, NaN)
    else (n1, n2) in
  if isNaN n1 || isNaN n2 then
    let s1 := toLowerCase (ToString v1) in
    let s2 := toLowerCase (ToString v2) in
    if String.ltb s1 s2 then of_Z (-1)
    else if String.ltb s2 s1 then of_Z 1
    else zero
  else if (eqb n1 Infinity && eqb n2 Infinity) ||
          (eqb n1 negInfinity && eqb n2 negInfinity) then zero
  else sub n1 n2.

Definition isInt (val : value) : bool :=
  match val with
  | VNumber n =>
      if isNaN n then true
      else eqb n (parseInt (NumberToString n) 10)
  | VBoolean _ => true
  | VString str => negb (contains_char "." str)
  | _ => false
  end.

Definition LIST_INVALID : value := VString "INVALID".
Definition LIST_ALL : value := VString "ALL".

(** [index === str] for a string literal [str]. *)
Definition is_string (index : value) (str : string) : bool :=
  match index with
  | VString s => String.eqb s str
  | _ => false
  end.

(** [toListIndex]; [random] is the number [Math.random()] returns when the
    call is made. *)
Definition toListIndex (index : value) (length : number) (acceptAll : bool)
    (random : number) : value :=
  let special :=
    match index with
    | VNumber _ => None
    | _ =>
        if is_string index "all" then
          Some (if acceptAll then LIST_ALL else LIST_INVALID)
        else if is_string index "last" then
          Some (if gtb length zero then VNumber length else LIST_INVALID)
        else if is_string index "random" || is_string index "any" then
          Some (if gtb length zero
                then VNumber (add (of_Z 1) (Math_floor (mul random length)))
                else LIST_INVALID)
        else None
    end in
  match special with
  | Some result => result
  | None =>
      let index := Math_floor (toNumber index) in
      if ltb index (of_Z 1) || gtb index length then LIST_INVALID
      else VNumber index
  end.

End Cast.

(** ** The string extension blocks: class [Scratch3StringExtBlocks] *)

Module Scratch3StringExtBlocks.
Import JS.

Local Open Scope string_scope.
Local Open Scope Z_scope.

(** The block [charCodeAt]; [STRING] and [INDEX] are the two arguments of the
    block.  Of the values of the embedding that are not strings, a boolean
    and a number have no [length], so that the second test fails, and no
    method [charCodeAt], and reading [length] from null or undefined
    throws. *)
Definition charCodeAt (STRING INDEX : value) : completion number :=
  if ltb (ToNumber INDEX) (of_Z 1) then Normal NaN
  else
    match STRING with
    | VString str =>
        if gtb (ToNumber INDEX) (of_Z (Z.of_nat (String.length str)))
        then Normal NaN
        else Normal (JS.charCodeAt str (sub (ToNumber INDEX) (of_Z 1)))
    | VUndefined | VNull | VBoolean _ | VNumber _ => Throw TypeError
    end.

End Scratch3StringExtBlocks.

(** ** The canvas blocks: class [Scratch3CanvasBlocks] *)

Module Scratch3CanvasBlocks.
Import JS.

Local Open Scope Z_scope.


End Scratch3CanvasBlocks.

(** ** Identifiers and XML text: [uid] and [xmlEscape] *)

Module Util.
Import JS.

Local Open Scope string_scope.
Local Open Scope Z_scope.

(** The legal characters of an identifier. *)
Definition soup_ : string :=
  "!#%()*+,-./:;=?@[]^_`{|}~" ++
  "ABCDEFGHIJKLMNOPQRSTUVWXYZabcdefghijklmnopqrstuvwxyz0123456789".

(** [uid]; [random i] is the number that the call of [Math.random] of the
    round [i] of the loop returns. *)
Definition uid (random : nat -> number) : string :=
  let length := 20%nat in
  let soupLength := of_Z (Z.of_nat (String.length soup_)) in
  let id :=
    List.map (fun i => charAt soup_ (mul (random i) soupLength))
             (List.seq 0 length) in
  String.concat "" id.

(** The five characters the pattern of [xmlEscape] matches: the two angle
    brackets, the ampersand, the apostrophe and the quotation mark. *)
Definition isUnsafeChar (c : ascii) : bool :=
  Ascii.eqb c "<" || Ascii.eqb c ">" || Ascii.eqb c "&" ||
  Ascii.eqb c "'" || Ascii.eqb c "034".

(** The replacement of a matched character. *)
Definition replacement (c : ascii) : string :=
  if Ascii.eqb c "<" then "&lt;"
  else if Ascii.eqb c ">" then "&gt;"
  else if Ascii.eqb c "&" then "&amp;"
  else if Ascii.eqb c "'" then "&apos;"
  else "&quot;".

(** The global replacement of the matched characters. *)
Fixpoint replaceUnsafeChars (unsafe : string) : string :=
  match unsafe with
  | String c rest =>
      (if isUnsafeChar c then replacement c else String c EmptyString) ++
      replaceUnsafeChars rest
  | EmptyString => EmptyString
  end.

(** What [xmlEscape] does: it returns the escaped text of a string; with
    any other value (arrays are not among the values of the embedding) it
    takes the branch that reports the value as unexpected.  The properties
    below are about strings. *)
Inductive escaped : Type :=
  | Escaped (text : string)
  | Unexpected (unsafe : value).

Definition xmlEscape (unsafe : value) : escaped :=
  match unsafe with
  | VString str => Escaped (replaceUnsafeChars str)
  | _ => Unexpected unsafe
  end.

End Util.

(** ** What the specification says, in its own words

    The definitions of this module are not taken from the code: they restate
    the specification, to be compared with the code above. *)

Module Spec.
Import JS Binary64.

Local Open Scope string_scope.
Local Open Scope Z_scope.

(** The sign of a number. *)
Inductive sign : Type := Negative | NoSign | Positive | SignOfNaN.

Definition sign_of (x : number) : sign :=
  match x with
  | S754_nan => SignOfNaN
  | S754_zero _ => NoSign
  | S754_infinity sx | S754_finite sx _ _ => if sx then Negative else Positive
  end.

Definition sign_opp (sg : sign) : sign :=
  match sg with
  | Negative => Positive
  | Positive => Negative
  | NoSign => NoSign
  | SignOfNaN => SignOfNaN
  end.

(** One side of a comparison: coerced with [Number], and replaced by NaN
    when it is numerically zero and white space. *)
Definition comparand (v : value) : number :=
  if eqb (ToNumber v) zero && Cast.isWhiteSpace v then NaN else ToNumber v.

(** -1, 0 or 1 according to the order of two strings. *)
Definition string_order (s1 s2 : string) : number :=
  match String.compare s1 s2 with
  | Lt => of_Z (-1)
  | Eq => zero
  | Gt => of_Z 1
  end.

Definition like_signed_infinities (n1 n2 : number) : bool :=
  match n1, n2 with
  | S754_infinity s1, S754_infinity s2 => Bool.eqb s1 s2
  | _, _ => false
  end.

Definition compare (v1 v2 : value) : number :=
  let n1 := comparand v1 in
  let n2 := comparand v2 in
  if isNaN n1 || isNaN n2 then
    string_order (toLowerCase (ToString v1)) (toLowerCase (ToString v2))
  else if like_signed_infinities n1 n2 then zero
  else sub n1 n2.

(** [index] is the string [str]. *)
Definition keyword (index : value) (str : string) : bool :=
  match index with
  | VString s => String.eqb s str
  | _ => false
  end.

(** The number a value is coerced to: [Number(v)], that is the number
    itself, 0 and 1 for the booleans, 0 for null, the number a text denotes
    (a numeric string such as ["2"] or [" 3.9 "] included), and 0 for
    everything [Number] turns into NaN. *)
Definition coerced (v : value) : number :=
  let x := ToNumber v in
  if isNaN x then zero else x.

(** The list index of a value that is none of the four keywords, for a list
    of [n] items: coerced to a number, floored, and kept when it lies in
    [[1, n]]. *)
Definition numeric_index (index : value) (n : Z) : value :=
  let k := Math_floor (coerced index) in
  if leb (of_Z 1) k && leb k (of_Z n) then VNumber k else Cast.LIST_INVALID.

Definition toListIndex (index : value) (n : Z) (acceptAll : bool) : value :=
  if keyword index "all" then
    if acceptAll then Cast.LIST_ALL else Cast.LIST_INVALID
  else if keyword index "last" then
    if 0 <? n then VNumber (of_Z n) else Cast.LIST_INVALID
  else numeric_index index n.

(** A hexadecimal digit, in either case. *)
Definition hex_digit (c : ascii) : bool :=
  existsb (Ascii.eqb c) (list_ascii_of_string "0123456789abcdefABCDEF").

Definition hex_value (c : ascii) : Z :=
  let n := code c in
  if n <=? 57 then n - 48 else if n <=? 70 then n - 55 else n - 87.

Definition channel (c1 c2 : ascii) : number :=
  of_Z (16 * hex_value c1 + hex_value c2).

(** The colour a string denotes: after an optional [#], three hexadecimal
    digits (each one doubled) or six; nothing otherwise. *)
Definition hexToRgb (hex : string) : option Color.RGBObject :=
  let body :=
    match hex with
    | String "#" rest => rest
    | _ => hex
    end in
  if forallb hex_digit (list_ascii_of_string body) then
    match list_ascii_of_string body with
    | [c1; c2; c3] =>
        Some (Color.mkRGB (channel c1 c1) (channel c2 c2) (channel c3 c3) None)
    | [c1; c2; c3; c4; c5; c6] =>
        Some (Color.mkRGB (channel c1 c2) (channel c3 c4) (channel c5 c6) None)
    | _ => None
    end
  else None.

(** [Math.trunc]: the integer part of a number, rounding toward zero. *)
Definition Math_trunc (x : number) : number :=
  match x with
  | S754_finite sx _ e =>
      if 0 <=? e then x else binary_normalize prec emax (truncate x) 0 sx
  | _ => x
  end.

(** An integer-looking value: a number that is NaN or equal to its own
    truncation, a boolean, or a string without a decimal point. *)
Definition isInt (val : value) : bool :=
  match val with
  | VNumber n => isNaN n || eqb n (Math_trunc n)
  | VBoolean _ => true
  | VString str => negb (existsb (Ascii.eqb ".") (list_ascii_of_string str))
  | _ => false
  end.

(** Two numbers with the same representation. *)
Definition same_number (x y : number) : bool :=
  match x, y with
  | S754_zero sx, S754_zero sy => Bool.eqb sx sy
  | S754_infinity sx, S754_infinity sy => Bool.eqb sx sy
  | S754_nan, S754_nan => true
  | S754_finite sx mx ex, S754_finite sy my ey =>
      Bool.eqb sx sy && Pos.eqb mx my && Z.eqb ex ey
  | _, _ => false
  end.

(** The channels red, green and blue of a sector of the colour wheel, among
    the value [v] and the three mixtures [t], [p] and [q]; the first
    permutation serves every index that is not one of 1 to 5. *)
Definition sector_channels (sector : Z) (v t p q : number)
  : number * number * number :=
  match sector with
  | 1 => (q, v, p)
  | 2 => (p, v, t)
  | 3 => (p, q, v)
  | 4 => (t, p, v)
  | 5 => (v, p, q)
  | _ => (v, t, p)
  end.

(** The hue reduced: [h] modulo 360, and 360 more when that is negative. *)
Definition hue (h : number) : number :=
  let r := rem h (of_Z 360) in
  if ltb r zero then add r (of_Z 360) else r.

(** A number clamped into [[0, 1]]: 1 for a number above 1, the number
    itself when it is above 0, and 0 for every other number. *)
Definition clamp01 (x : number) : number :=
  if ltb (of_Z 1) x then of_Z 1
  else if ltb zero x then x
  else zero.

(** The colour of a hue, a saturation and a value: the hue reduced, the
    saturation and the value clamped, the channels of the sector
    [floor (h / 60)], each scaled by 255 and floored. *)
Definition hsvToRgb (hsv : Color.HSVObject) : Color.RGBObject :=
  let h := hue (Color.h hsv) in
  let s := clamp01 (Color.s hsv) in
  let v := clamp01 (Color.v hsv) in
  let sector := truncate (Math_floor (div h (of_Z 60))) in
  let f := sub (div h (of_Z 60)) (Math_floor (div h (of_Z 60))) in
  let p := mul v (sub (of_Z 1) s) in
  let q := mul v (sub (of_Z 1) (mul s f)) in
  let t := mul v (sub (of_Z 1) (mul s (sub (of_Z 1) f))) in
  let '(r, g, b) := sector_channels sector v t p q in
  Color.mkRGB (Math_floor (mul r (of_Z 255)))
              (Math_floor (mul g (of_Z 255)))
              (Math_floor (mul b (of_Z 255)))
              None.

(** The hue reduced into [[0, 360]]: the remainder of [h] modulo 360, and,
    when the remainder is negative, the sum of the remainder and 360 as
    the addition rounds it. *)
Definition reduced_hue (h hue : number) : Prop :=
  let r := Z.rem (val h) (360 * one) in
  if r <? 0 then rounding true (r + 360 * one) (val hue) else val hue = r.

(** A string made of white space only. *)
Fixpoint all_white_space (str : string) : bool :=
  match str with
  | String c str' => isWhiteSpaceChar c && all_white_space str'
  | EmptyString => true
  end.

(** A string that trims to the empty string. *)
Definition blank (str : string) : Prop := trim str = EmptyString.

(** The weighted average [(1 - f) * x0 + f * x1] of two components, as the
    arithmetic gives it: neither rounded to an integer nor clamped. *)
Definition weighted (f x0 x1 : number) : number :=
  add (mul (sub (of_Z 1) f) x0) (mul f x1).

(** An integer in [[0, 255]], as a number. *)
Definition is_byte (x : number) : Prop :=
  exists z : Z, 0 <= z <= 255 /\ x = of_Z z.

Definition byte_components (c : Color.RGBObject) : Prop :=
  is_byte (Color.r c) /\ is_byte (Color.g c) /\ is_byte (Color.b c).

End Spec.

(** ** Notions the further properties are stated with *)

Module Notions.
Import JS Binary64.

Local Open Scope string_scope.
Local Open Scope Z_scope.

(** A value whose number, if it is one, is in the canonical form of
    binary64. *)
Definition valid_value (v : value) : Prop :=
  match v with
  | VNumber n => valid_binary prec emax n = true
  | _ => True
  end.

(** Undefined, null, a boolean or a number: the values of the embedding
    that are not strings. *)
Definition not_a_string (v : value) : Prop :=
  match v with
  | VUndefined | VNull | VBoolean _ | VNumber _ => True
  | VString _ => False
  end.

(** A number of [[0, 1)], as [Math.random] returns. *)
Definition unit_interval (x : number) : Prop :=
  regular x /\ sign_bit x = false /\ val x < one.

(** The [k] lower hexadecimal digits of an integer, in lower case. *)
Fixpoint hex_digits (k : nat) (z : Z) : string :=
  match k with
  | S k' => hex_digits k' (z / 16) ++ String (digit_char (z mod 16)) EmptyString
  | O => EmptyString
  end.

(** The six digits a hexadecimal colour text stands for: the digits after
    the optional [#], each one doubled when there are three. *)
Definition six_digits (hex : string) : string :=
  let body :=
    match hex with
    | String "#" rest => rest
    | _ => hex
    end in
  string_of_list_ascii
    match list_ascii_of_string body with
    | [c1; c2; c3] => [c1; c1; c2; c2; c3; c3]
    | digits => digits
    end.

(** The number of a position of a string, and NaN for a position the
    string does not have. *)
Definition code_at (str : string) (pos : Z) : number :=
  match (if pos <? 0 then None else String.get (Z.to_nat pos) str) with
  | Some c => of_Z (code c)
  | None => NaN
  end.


(** A character of the soup that needs no escaping. *)
Definition soup_char (c : ascii) : Prop :=
  In c (list_ascii_of_string Util.soup_) /\ Util.isUnsafeChar c = false.

End Notions.

(** ** Properties *)

Import JS Binary64.

Local Open Scope string_scope.
Local Open Scope Z_scope.

(** *** Rounding never produces NaN, and commutes with the sign *)

Section IterPos.
Context {A : Type} (f : A -> A).

Lemma iter_pos_invariant (P : A -> Prop) :
  (forall x, P x -> P (f x)) ->
  forall n x, P x -> P (iter_pos f n x).
Proof.
  intros Hf n. induction n as [n IH | n IH | ]; intros x Hx; simpl.
  - apply IH, IH, Hf, Hx.
  - apply IH, IH, Hx.
  - apply Hf, Hx.
Qed.

Lemma iter_pos_nat n x : iter_pos f n x = Nat.iter (Pos.to_nat n) f x.
Proof.
  revert x. induction n as [n IH | n IH | ]; intros x; cbn [iter_pos].
  - rewrite !IH, Pos2Nat.inj_xI, <- Nat.iter_succ_r.
    replace (S (2 * Pos.to_nat n))%nat
      with (Pos.to_nat n + S (Pos.to_nat n))%nat by lia.
    now rewrite Nat.iter_add.
  - rewrite !IH, Pos2Nat.inj_xO.
    replace (2 * Pos.to_nat n)%nat
      with (Pos.to_nat n + Pos.to_nat n)%nat by lia.
    now rewrite Nat.iter_add.
  - reflexivity.
Qed.
End IterPos.

Lemma shr_1_nonneg mrs : 0 <= shr_m mrs -> 0 <= shr_m (shr_1 mrs).
Proof.
  destruct mrs as [[ | [p | p | ] | p] r s]; simpl; intros H; lia.
Qed.

Lemma shr_nonneg mrs e n : 0 <= shr_m mrs -> 0 <= shr_m (fst (shr mrs e n)).
Proof.
  intros H. destruct n as [ | p | p]; simpl; trivial.
  now apply iter_pos_invariant; [apply shr_1_nonneg | ].
Qed.

Lemma shr_record_of_loc_m m l : shr_m (shr_record_of_loc m l) = m.
Proof. now destruct l as [ | [ | | ]]. Qed.

Lemma shr_fexp_nonneg m e l :
  0 <= m -> 0 <= shr_m (fst (shr_fexp prec emax m e l)).
Proof.
  intros H. unfold shr_fexp. apply shr_nonneg.
  now rewrite shr_record_of_loc_m.
Qed.

Lemma round_nearest_even_nonneg m l : 0 <= m -> 0 <= round_nearest_even m l.
Proof.
  intros H. destruct l as [ | [ | | ]]; simpl; try lia.
  destruct (Z.even m); lia.
Qed.

Lemma binary_round_aux_not_nan sx mx ex lx :
  0 <= mx -> binary_round_aux prec emax sx mx ex lx <> S754_nan.
Proof.
  intros H. unfold binary_round_aux.
  pose proof (shr_fexp_nonneg mx ex lx H) as H1.
  destruct (shr_fexp prec emax mx ex lx) as [mrs' e'].
  simpl in H1.
  pose proof (shr_fexp_nonneg _ e' loc_Exact
    (round_nearest_even_nonneg _ (loc_of_shr_record mrs') H1)) as H2.
  destruct (shr_fexp prec emax _ e' loc_Exact) as [mrs'' e''].
  simpl in H2.
  destruct (shr_m mrs'') as [ | m | m]; try discriminate; try lia.
  now destruct (e'' <=? emax - prec).
Qed.

Lemma binary_round_not_nan sx mx ex :
  binary_round prec emax sx mx ex <> S754_nan.
Proof.
  unfold binary_round.
  destruct (shl_align mx ex _) as [mz ez].
  now apply binary_round_aux_not_nan.
Qed.

Lemma binary_normalize_not_nan m e szero :
  binary_normalize prec emax m e szero <> S754_nan.
Proof.
  destruct m; simpl; try discriminate; apply binary_round_not_nan.
Qed.

Lemma binary_round_aux_opp sx mx ex lx :
  binary_round_aux prec emax (negb sx) mx ex lx =
  SFopp (binary_round_aux prec emax sx mx ex lx).
Proof.
  unfold binary_round_aux.
  destruct (shr_fexp prec emax mx ex lx) as [mrs' e'].
  destruct (shr_fexp prec emax _ e' loc_Exact) as [mrs'' e''].
  destruct (shr_m mrs''); trivial.
  now destruct (e'' <=? emax - prec).
Qed.

Lemma binary_normalize_opp_sign m e :
  Spec.sign_of (binary_normalize prec emax (- m) e false) =
  Spec.sign_opp (Spec.sign_of (binary_normalize prec emax m e false)).
Proof.
  destruct m as [ | p | p]; simpl; trivial; unfold binary_round;
    destruct (shl_align p e _) as [mz ez].
  - rewrite (binary_round_aux_opp false).
    now destruct (binary_round_aux prec emax false (Z.pos mz) ez loc_Exact)
      as [[]|[]| |[] ? ?].
  - rewrite (binary_round_aux_opp false).
    now destruct (binary_round_aux prec emax false (Z.pos mz) ez loc_Exact)
      as [[]|[]| |[] ? ?].
Qed.

Lemma sub_not_nan (x y : number) :
  isNaN x = false -> isNaN y = false ->
  Spec.like_signed_infinities x y = false ->
  isNaN (sub x y) = false.
Proof.
  destruct x as [[]|[]| |sx mx ex], y as [[]|[]| |sy my ey];
    try discriminate; try reflexivity.
  intros _ _ _. unfold sub, SFsub.
  match goal with |- isNaN ?r = false =>
    pose proof (binary_normalize_not_nan
      (cond_Zopp sx (Z.pos (fst (shl_align mx ex (Z.min ex ey)))) -
       cond_Zopp sy (Z.pos (fst (shl_align my ey (Z.min ex ey)))))
      (Z.min ex ey) false) as H;
    destruct r; trivial; now elim H
  end.
Qed.

Lemma sub_antisym_sign (x y : number) :
  Spec.sign_of (sub x y) = Spec.sign_opp (Spec.sign_of (sub y x)).
Proof.
  destruct x as [[]|[]| |sx mx ex], y as [[]|[]| |sy my ey];
    try reflexivity; try (now destruct sx); try (now destruct sy).
  unfold sub, SFsub. rewrite (Z.min_comm ey ex).
  rewrite <- binary_normalize_opp_sign. f_equal. f_equal. lia.
Qed.

(** *** Digits and powers of two *)

Lemma fexp_eq (d : Z) : fexp prec emax d = Z.max (d - 53) (-1074).
Proof. reflexivity. Qed.

Lemma digits2_pos_size (p : positive) : digits2_pos p = Pos.size p.
Proof. induction p; simpl; congruence. Qed.

Lemma Zdigits2_log2 (m : Z) : 0 < m -> Zdigits2 m = Z.log2 m + 1.
Proof.
  destruct m as [ | p | p]; try lia. intros _.
  destruct p as [p | p | ]; simpl; rewrite ?digits2_pos_size; lia.
Qed.

Lemma Zdigits2_nonneg (m : Z) : 0 <= Zdigits2 m.
Proof. destruct m; simpl; lia. Qed.

Lemma digits_bounds (m : Z) :
  0 < m -> 2 ^ (Zdigits2 m - 1) <= m < 2 ^ Zdigits2 m.
Proof.
  intros H. rewrite (Zdigits2_log2 m H).
  replace (Z.log2 m + 1 - 1) with (Z.log2 m) by lia.
  apply (Z.log2_spec m H).
Qed.

Lemma digits_unique (m d : Z) :
  0 < d -> 2 ^ (d - 1) <= m < 2 ^ d -> Zdigits2 m = d.
Proof.
  intros Hd H.
  assert (0 < m) by (pose proof (Z.pow_pos_nonneg 2 (d - 1)); lia).
  rewrite (Zdigits2_log2 m) by trivial.
  rewrite (Z.log2_unique m (d - 1)); try lia.
  now replace (Z.succ (d - 1)) with d by lia.
Qed.

Lemma digits_le (a b : Z) : 0 <= a <= b -> Zdigits2 a <= Zdigits2 b.
Proof.
  intros [Ha Hab]. destruct (Z.eq_dec a 0) as [-> | Hn].
  - apply Zdigits2_nonneg.
  - rewrite !Zdigits2_log2 by lia.
    pose proof (Z.log2_le_mono a b Hab). lia.
Qed.

Lemma digits_mul_pow2 (m k : Z) :
  0 < m -> 0 <= k -> Zdigits2 (m * 2 ^ k) = Zdigits2 m + k.
Proof.
  intros Hm Hk.
  assert (0 < 2 ^ k) by (apply Z.pow_pos_nonneg; lia).
  rewrite !Zdigits2_log2 by nia.
  rewrite Z.log2_mul_pow2 by lia. lia.
Qed.

Lemma digits_div_pow2 (m k : Z) :
  0 <= k -> 2 ^ k <= m -> Zdigits2 (m / 2 ^ k) = Zdigits2 m - k.
Proof.
  intros Hk Hm.
  assert (0 < 2 ^ k) by (apply Z.pow_pos_nonneg; lia).
  assert (0 < m / 2 ^ k) by (apply Z.div_str_pos; lia).
  rewrite !Zdigits2_log2 by lia.
  rewrite <- Z.shiftr_div_pow2 by trivial.
  rewrite Z.log2_shiftr by lia.
  assert (k <= Z.log2 m) by (apply Z.log2_le_pow2; lia).
  lia.
Qed.

Lemma digits_lt_pow2 (m d : Z) : 0 <= d -> 0 <= m < 2 ^ d -> Zdigits2 m <= d.
Proof.
  intros Hd [H0 H]. destruct (Z.eq_dec m 0) as [-> | Hn]; [simpl; lia | ].
  rewrite Zdigits2_log2 by lia.
  assert (Z.log2 m < d) by (apply Z.log2_lt_pow2; lia). lia.
Qed.

Lemma digits_ge_pow2 (m d : Z) : 2 ^ (d - 1) <= m -> 0 < m -> d <= Zdigits2 m.
Proof.
  intros H Hm. rewrite Zdigits2_log2 by trivial.
  destruct (Z.le_gt_cases (d - 1) 0) as [Hd | Hd].
  - pose proof (Z.log2_nonneg m). lia.
  - assert (d - 1 <= Z.log2 m) by (apply Z.log2_le_pow2; lia). lia.
Qed.

(** *** Shifting a mantissa to the right *)

Lemma shr_1_spec (m : Z) (r s : bool) :
  0 <= m ->
  shr_1 (Build_shr_record m r s) =
  Build_shr_record (m / 2) (Z.odd m) (r || s).
Proof.
  intros H. rewrite <- Z.div2_div.
  destruct m as [ | [p | p | ] | p]; try reflexivity; lia.
Qed.

Lemma shr_iter_spec (k : nat) (m : Z) :
  0 <= m ->
  let mrs := Nat.iter k shr_1 (Build_shr_record m false false) in
  shr_m mrs = m / 2 ^ Z.of_nat k /\
  (m mod 2 ^ Z.of_nat k = 0 -> shr_r mrs = false /\ shr_s mrs = false).
Proof.
  intros Hm. induction k as [ | k IH].
  - simpl. rewrite Z.div_1_r. now split.
  - cbn zeta in *. rewrite Nat.iter_succ.
    destruct (Nat.iter k shr_1 _) as [mk rk sk]. simpl in IH.
    destruct IH as [IH1 IH2].
    assert (Hp : 0 < 2 ^ Z.of_nat k) by (apply Z.pow_pos_nonneg; lia).
    assert (Hk : 0 <= mk) by (subst mk; apply Z.div_pos; lia).
    rewrite shr_1_spec by trivial. cbn [shr_m shr_r shr_s].
    rewrite Nat2Z.inj_succ, Z.pow_succ_r by lia.
    split.
    + subst mk. rewrite Z.div_div by lia. f_equal. lia.
    + intros Hmod.
      assert (Hdiv : m = 2 * 2 ^ Z.of_nat k * (m / (2 * 2 ^ Z.of_nat k))).
      { apply Z.div_exact; lia. }
      assert (Hmk : mk = 2 * (m / (2 * 2 ^ Z.of_nat k))).
      { subst mk. rewrite Hdiv at 1.
        replace (2 * 2 ^ Z.of_nat k * (m / (2 * 2 ^ Z.of_nat k)))
          with (2 * (m / (2 * 2 ^ Z.of_nat k)) * 2 ^ Z.of_nat k) by ring.
        apply Z.div_mul. lia. }
      assert (Hmod' : m mod 2 ^ Z.of_nat k = 0).
      { rewrite Hdiv.
        replace (2 * 2 ^ Z.of_nat k * (m / (2 * 2 ^ Z.of_nat k)))
          with (2 * (m / (2 * 2 ^ Z.of_nat k)) * 2 ^ Z.of_nat k) by ring.
        apply Z.mod_mul. lia. }
      destruct (IH2 Hmod') as [-> ->]. split; trivial.
      rewrite Hmk, Z.odd_mul. reflexivity.
Qed.

Lemma shr_correct (m e n : Z) :
  0 <= m -> 0 <= n ->
  let res := shr (Build_shr_record m false false) e n in
  snd res = e + n /\
  shr_m (fst res) = m / 2 ^ n /\
  (m mod 2 ^ n = 0 -> shr_r (fst res) = false /\ shr_s (fst res) = false).
Proof.
  intros Hm Hn. destruct n as [ | p | p]; try lia; simpl.
  - rewrite Z.div_1_r. repeat split; lia.
  - rewrite iter_pos_nat.
    pose proof (shr_iter_spec (Pos.to_nat p) m Hm) as H.
    cbn zeta in H. rewrite positive_nat_Z in H.
    change (Z.pow_pos 2 p) with (2 ^ Z.pos p). tauto.
Qed.

Lemma shr_m_any (mrs : shr_record) (e n : Z) :
  0 <= shr_m mrs -> 0 <= n ->
  snd (shr mrs e n) = e + n /\
  shr_m (fst (shr mrs e n)) = shr_m mrs / 2 ^ n.
Proof.
  intros Hm Hn. destruct n as [ | p | p]; try lia; simpl.
  - rewrite Z.div_1_r. split; lia.
  - split; trivial. rewrite iter_pos_nat.
    change (Z.pow_pos 2 p) with (2 ^ Z.pos p).
    rewrite <- (positive_nat_Z p).
    generalize (Pos.to_nat p). intros k.
    induction k as [ | k IH].
    + simpl. now rewrite Z.div_1_r.
    + rewrite Nat.iter_succ.
      assert (Hp : 0 < 2 ^ Z.of_nat k) by (apply Z.pow_pos_nonneg; lia).
      destruct (Nat.iter k shr_1 mrs) as [mk rk sk]. simpl in IH.
      assert (Hk : 0 <= mk) by (subst mk; apply Z.div_pos; lia).
      rewrite shr_1_spec by trivial. cbn [shr_m shr_r shr_s].
      rewrite Nat2Z.inj_succ, Z.pow_succ_r by lia.
      subst mk. rewrite Z.div_div by lia. f_equal. lia.
Qed.

Lemma round_nearest_even_range (mrs : shr_record) :
  let rnd := round_nearest_even (shr_m mrs) (loc_of_shr_record mrs) in
  shr_m mrs <= rnd <= shr_m mrs + 1 /\
  (shr_r mrs = false -> shr_s mrs = false -> rnd = shr_m mrs).
Proof.
  destruct mrs as [m [ | ] [ | ]]; simpl; split; intros;
    try discriminate; try lia; destruct (Z.even m); lia.
Qed.

Lemma shr_record_exact (m : Z) :
  shr_record_of_loc m loc_Exact = Build_shr_record m false false.
Proof. reflexivity. Qed.

(** The second shift of [binary_round_aux] renormalises a mantissa that
    rounding carried to [2 ^ 53], and nothing else. *)
Lemma renormalise (q rnd e1 : Z) :
  0 <= q -> q <= rnd <= q + 1 -> 0 < rnd -> -1074 <= e1 ->
  (0 < q -> fexp prec emax (Zdigits2 q + e1) = e1) ->
  (q = 0 -> e1 = -1074) ->
  let n2 := fexp prec emax (Zdigits2 rnd + e1) - e1 in
  (n2 = 0 /\ Zdigits2 rnd <= 53) \/ (n2 = 1 /\ rnd = 2 ^ 53).
Proof.
  intros Hq Hr Hpos He1 Hcan Hzero n2. subst n2. rewrite fexp_eq.
  destruct (Z.eq_dec q 0) as [-> | Hq0].
  - assert (rnd = 1) by lia. subst rnd. specialize (Hzero eq_refl).
    subst e1. left. simpl. lia.
  - specialize (Hcan ltac:(lia)). rewrite fexp_eq in Hcan.
    pose proof (digits_bounds q ltac:(lia)) as [Hq1 Hq2].
    pose proof (Zdigits2_nonneg q) as Hd0.
    assert (Hd : Zdigits2 q <= 53) by lia.
    assert (Hd1 : 0 < Zdigits2 q).
    { destruct q; simpl; lia. }
    destruct (Z.eq_dec rnd (2 ^ Zdigits2 q)) as [Hp | Hp].
    + assert (Hdr : Zdigits2 rnd = Zdigits2 q + 1).
      { apply digits_unique; [lia | ].
        replace (Zdigits2 q + 1 - 1) with (Zdigits2 q) by lia.
        rewrite Z.pow_add_r by lia. lia. }
      rewrite Hdr.
      destruct (Z.eq_dec (Zdigits2 q) 53) as [E | E].
      * right. rewrite E in *. split; [lia | trivial].
      * left. lia.
    + assert (Hdr : Zdigits2 rnd = Zdigits2 q).
      { apply digits_unique; lia. }
      rewrite Hdr. left. lia.
Qed.

Lemma binary_round_aux_spec (sx : bool) (mx ex : Z) (lx : location) :
  0 <= mx -> ex <= fexp prec emax (Zdigits2 mx + ex) ->
  let e1 := fexp prec emax (Zdigits2 mx + ex) in
  let q := mx / 2 ^ (e1 - ex) in
  exists m2 e2 : Z,
    binary_round_aux prec emax sx mx ex lx =
      match m2 with
      | Z0 => S754_zero sx
      | Zpos p =>
          if e2 <=? emax - prec then S754_finite sx p e2
          else S754_infinity sx
      | Zneg _ => S754_nan
      end /\
    0 <= m2 /\ e1 <= e2 /\
    (0 < m2 -> fexp prec emax (Zdigits2 m2 + e2) = e2) /\
    q <= m2 * 2 ^ (e2 - e1) <= q + 1 /\
    (lx = loc_Exact -> mx mod 2 ^ (e1 - ex) = 0 -> m2 * 2 ^ (e2 - e1) = q).
Proof.
  intros Hmx Hex e1 q.
  assert (He1 : -1074 <= e1) by (subst e1; rewrite fexp_eq; lia).
  assert (Hn : 0 <= e1 - ex) by lia.
  assert (Hpow : 0 < 2 ^ (e1 - ex)) by (apply Z.pow_pos_nonneg; lia).
  assert (Hq : 0 <= q) by (apply Z.div_pos; lia).
  (* the first shift *)
  unfold binary_round_aux, shr_fexp. fold e1.
  pose proof (shr_m_any (shr_record_of_loc mx lx) ex (e1 - ex)) as S1.
  rewrite shr_record_of_loc_m in S1. specialize (S1 Hmx Hn).
  assert (X1 : lx = loc_Exact -> mx mod 2 ^ (e1 - ex) = 0 ->
               shr_r (fst (shr (shr_record_of_loc mx lx) ex (e1 - ex))) = false /\
               shr_s (fst (shr (shr_record_of_loc mx lx) ex (e1 - ex))) = false).
  { intros -> Hmod. rewrite shr_record_exact.
    now apply (shr_correct mx ex (e1 - ex) Hmx Hn). }
  destruct (shr (shr_record_of_loc mx lx) ex (e1 - ex)) as [mrs' e'].
  simpl in S1, X1. destruct S1 as [Se Sm].
  assert (He' : e' = e1) by lia. clear Se. subst e'. fold q in Sm.
  (* rounding *)
  pose proof (round_nearest_even_range mrs') as R. cbn zeta in R.
  set (rnd := round_nearest_even (shr_m mrs') (loc_of_shr_record mrs')) in *.
  rewrite Sm in R. destruct R as [Rr Rx].
  (* what is known of the quotient *)
  assert (Hcan : 0 < q -> fexp prec emax (Zdigits2 q + e1) = e1).
  { intros Hq0. unfold q. rewrite digits_div_pow2; trivial.
    - now replace (Zdigits2 mx - (e1 - ex) + e1) with (Zdigits2 mx + ex) by lia.
    - destruct (Z.le_gt_cases (2 ^ (e1 - ex)) mx) as [Hle | Hgt]; trivial.
      unfold q in Hq0. rewrite Z.div_small in Hq0; lia. }
  assert (Hzero : q = 0 -> e1 = -1074).
  { intros Hq0.
    assert (Hlt : mx < 2 ^ (e1 - ex)).
    { destruct (Z.le_gt_cases (2 ^ (e1 - ex)) mx) as [Hle | Hgt]; [ | lia].
      assert (0 < q) by (apply Z.div_str_pos; lia). lia. }
    pose proof (digits_lt_pow2 mx (e1 - ex) Hn (conj Hmx Hlt)) as Hd.
    unfold e1 in *. rewrite fexp_eq in *. lia. }
  destruct (Z.eq_dec rnd 0) as [Hr0 | Hr0].
  - (* the result is a zero *)
    rewrite Hr0, shr_record_exact. simpl Zdigits2.
    assert (Hn2 : fexp prec emax (0 + e1) - e1 <= 0) by (rewrite fexp_eq; lia).
    assert (Hs : shr (Build_shr_record 0 false false) e1
                   (fexp prec emax (0 + e1) - e1) =
                 (Build_shr_record 0 false false, e1)).
    { destruct (fexp prec emax (0 + e1) - e1) as [ | p | p]; trivial; lia. }
    rewrite Hs. exists 0, e1. simpl.
    repeat split; intros; lia.
  - (* the result is not a zero *)
    pose proof (renormalise q rnd e1 Hq Rr ltac:(lia) He1 Hcan Hzero) as N.
    cbn zeta in N. rewrite shr_record_exact.
    destruct N as [[Hn2 Hd] | [Hn2 Hp]].
    + rewrite Hn2. simpl shr. exists rnd, e1. cbn [shr_m].
      replace (e1 - e1) with 0 by lia. rewrite Z.mul_1_r.
      split; [reflexivity | ]. split; [lia | ]. split; [lia | ].
      split; [intros _; lia | ]. split; [lia | ].
      intros Hx Hmod. destruct (X1 Hx Hmod) as [H1 H2]. now apply Rx.
    + rewrite Hn2, Hp. exists (2 ^ 52), (e1 + 1).
      replace (e1 + 1 - e1) with 1 by lia.
      split; [reflexivity | ]. split; [simpl; lia | ]. split; [lia | ].
      split; [intros _; rewrite fexp_eq; simpl Zdigits2; lia | ].
      split; [simpl; lia | ].
      intros Hx Hmod. destruct (X1 Hx Hmod) as [H1 H2].
      specialize (Rx H1 H2). simpl. lia.
Qed.

(** *** From representations to values *)

Lemma bias_eq : bias = 2200.
Proof. reflexivity. Qed.

Lemma pow2_pos (k : Z) : 0 <= k -> 0 < 2 ^ k.
Proof. intros H. apply Z.pow_pos_nonneg; lia. Qed.

Lemma pow2_split (a b : Z) : 0 <= a -> 0 <= b -> 2 ^ (a + b) = 2 ^ a * 2 ^ b.
Proof. intros. now apply Z.pow_add_r. Qed.

Lemma pow2_le (a b : Z) : 0 <= a <= b -> 2 ^ a <= 2 ^ b.
Proof. intros. apply Z.pow_le_mono_r; lia. Qed.

Lemma pow2_lt_inv (a b : Z) : 0 <= b -> 2 ^ a < 2 ^ b -> a < b.
Proof.
  intros Hb H. destruct (Z.lt_ge_cases a b) as [Hlt | Hge]; trivial.
  pose proof (pow2_le b a ltac:(lia)). lia.
Qed.

Lemma bounded_iff (m : positive) (e : Z) :
  bounded prec emax m e = true <->
  fexp prec emax (Zdigits2 (Z.pos m) + e) = e /\ e <= 971.
Proof.
  unfold bounded, canonical_mantissa. simpl Zdigits2.
  rewrite andb_true_iff, Z.eqb_eq, Z.leb_le. reflexivity.
Qed.

Lemma bounded_range (m : positive) (e : Z) :
  bounded prec emax m e = true ->
  -1074 <= e <= 971 /\ 0 < Zdigits2 (Z.pos m) <= 53.
Proof.
  rewrite bounded_iff, fexp_eq. intros [H1 H2].
  assert (0 < Zdigits2 (Z.pos m)) by (simpl; lia). lia.
Qed.

Lemma ulp_of_scaled (mx ex : Z) :
  0 < mx -> - bias <= ex ->
  ulp (mx * 2 ^ (ex + bias)) =
  2 ^ (fexp prec emax (Zdigits2 mx + ex) + bias).
Proof.
  intros Hm He. unfold ulp. rewrite digits_mul_pow2 by lia.
  now replace (Zdigits2 mx + (ex + bias) - bias) with (Zdigits2 mx + ex) by lia.
Qed.

Lemma ulp_pos (X : Z) : 0 < ulp X.
Proof.
  unfold ulp. apply pow2_pos. rewrite fexp_eq, bias_eq. lia.
Qed.

(** What [binary_round_aux] returns, in terms of values. *)
Lemma binary_round_aux_value (sx : bool) (mx ex : Z) (lx : location) :
  0 <= mx -> - bias <= ex -> ex <= fexp prec emax (Zdigits2 mx + ex) ->
  exists R : Z,
    rounding (match lx with loc_Exact => true | _ => false end)
      (mx * 2 ^ (ex + bias)) R /\
    represents sx R (binary_round_aux prec emax sx mx ex lx).
Proof.
  intros Hmx Hb Hex.
  destruct (binary_round_aux_spec sx mx ex lx Hmx Hex)
    as [m2 [e2 [Hres [Hm2 [He2 [Hcan [Hq Hexact]]]]]]].
  set (e1 := fexp prec emax (Zdigits2 mx + ex)) in *.
  assert (He1 : -1074 <= e1) by (unfold e1; rewrite fexp_eq; lia).
  pose proof bias_eq as HB.
  set (X := mx * 2 ^ (ex + bias)).
  assert (HU : ulp X = 2 ^ (e1 + bias)).
  { destruct (Z.eq_dec mx 0) as [-> | Hn].
    - unfold X. rewrite Z.mul_0_l. unfold ulp, e1 in *.
      simpl Zdigits2 in *. rewrite !fexp_eq in *. f_equal. lia.
    - unfold X. now rewrite ulp_of_scaled by lia. }
  assert (Hsplit : 2 ^ (e1 + bias) = 2 ^ (e1 - ex) * 2 ^ (ex + bias)).
  { rewrite <- pow2_split by lia. f_equal. lia. }
  assert (Hp1 : 0 < 2 ^ (e1 - ex)) by (apply pow2_pos; lia).
  assert (Hp2 : 0 < 2 ^ (ex + bias)) by (apply pow2_pos; lia).
  assert (Hdiv : X / ulp X = mx / 2 ^ (e1 - ex)).
  { rewrite HU, Hsplit. unfold X. apply Z.div_mul_cancel_r; lia. }
  assert (Hmod : X mod ulp X = (mx mod 2 ^ (e1 - ex)) * 2 ^ (ex + bias)).
  { rewrite HU, Hsplit. unfold X. apply Z.mul_mod_distr_r; lia. }
  assert (HR : m2 * 2 ^ (e2 + bias) = m2 * 2 ^ (e2 - e1) * ulp X).
  { rewrite HU, <- Z.mul_assoc, <- pow2_split by lia. do 2 f_equal. lia. }
  exists (m2 * 2 ^ (e2 + bias)). split.
  - split.
    + rewrite HR, Hdiv. pose proof (ulp_pos X). nia.
    + intros Hl Hm. destruct lx; try discriminate.
      rewrite Hmod in Hm.
      assert (Hm' : mx mod 2 ^ (e1 - ex) = 0) by nia.
      rewrite HR, (Hexact eq_refl Hm'), HU, Hsplit.
      unfold X.
      assert (Hmx' : mx = 2 ^ (e1 - ex) * (mx / 2 ^ (e1 - ex))).
      { apply Z.div_exact; lia. }
      transitivity (2 ^ (e1 - ex) * (mx / 2 ^ (e1 - ex)) * 2 ^ (ex + bias));
        [ring | now rewrite <- Hmx'].
  - rewrite Hres. destruct m2 as [ | p | p]; try lia.
    + left. simpl. repeat split. now destruct sx.
    + specialize (Hcan ltac:(lia)).
      destruct (e2 <=? emax - prec) eqn:Hle.
      * left. apply Z.leb_le in Hle. repeat split.
        simpl. apply bounded_iff. split; trivial.
      * right. apply Z.leb_gt in Hle. split; trivial.
        change (emax - prec) with 971 in Hle. change emax with 1024.
        rewrite fexp_eq in Hcan.
        assert (Hd : Zdigits2 (Z.pos p) = 53) by lia.
        pose proof (digits_bounds (Z.pos p) ltac:(lia)) as [Hlo _].
        rewrite Hd in Hlo.
        assert (2 ^ (1024 + bias) <= 2 ^ (53 - 1) * 2 ^ (e2 + bias)).
        { rewrite <- pow2_split by lia. apply pow2_le. lia. }
        pose proof (pow2_pos (e2 + bias) ltac:(lia)). nia.
Qed.

Lemma iter_xO_pow2 (d m : positive) :
  Z.pos (Pos.iter xO m d) = Z.pos m * 2 ^ Z.pos d.
Proof.
  induction d as [ | d IH] using Pos.peano_ind.
  - simpl. lia.
  - rewrite Pos.iter_succ, Pos2Z.inj_xO, IH, Pos2Z.inj_succ, Z.pow_succ_r; lia.
Qed.

Lemma shl_align_value (m : positive) (e e' : Z) :
  let res := shl_align m e e' in
  snd res = Z.min e e' /\
  Z.pos (fst res) = Z.pos m * 2 ^ (e - Z.min e e').
Proof.
  unfold shl_align. destruct (e' - e) as [ | d | d] eqn:E; cbn [fst snd].
  - replace (Z.min e e') with e by lia. rewrite Z.sub_diag. lia.
  - replace (Z.min e e') with e by lia. rewrite Z.sub_diag. lia.
  - replace (Z.min e e') with e' by lia. split; trivial.
    rewrite iter_xO_pow2. do 2 f_equal. lia.
Qed.

(** What [binary_round] returns, in terms of values. *)
Lemma binary_round_value (sx : bool) (m : positive) (e : Z) :
  - bias <= e ->
  exists R : Z,
    rounding true (Z.pos m * 2 ^ (e + bias)) R /\
    represents sx R (binary_round prec emax sx m e).
Proof.
  intros Hb. unfold binary_round.
  set (e1 := fexp prec emax (Z.pos (digits2_pos m) + e)).
  change (Z.pos (digits2_pos m)) with (Zdigits2 (Z.pos m)) in e1.
  pose proof (shl_align_value m e e1) as [Hs Hv]. cbn zeta in *.
  destruct (shl_align m e e1) as [mz ez]. cbn [fst snd] in Hs, Hv.
  assert (He1 : -1074 <= e1) by (unfold e1; rewrite fexp_eq; lia).
  pose proof bias_eq as HB.
  assert (Hpre : ez <= fexp prec emax (Zdigits2 (Z.pos mz) + ez)).
  { rewrite Hv, digits_mul_pow2 by lia.
    replace (Zdigits2 (Z.pos m) + (e - Z.min e e1) + ez)
      with (Zdigits2 (Z.pos m) + e) by lia.
    fold e1. lia. }
  destruct (binary_round_aux_value sx (Z.pos mz) ez loc_Exact)
    as [R [HR1 HR2]]; try lia; trivial.
  exists R. split; trivial.
  replace (Z.pos m * 2 ^ (e + bias)) with (Z.pos mz * 2 ^ (ez + bias)); trivial.
  rewrite Hv, <- Z.mul_assoc, <- pow2_split by lia. do 2 f_equal. lia.
Qed.

(** What [binary_normalize] returns, in terms of values. *)
Lemma binary_normalize_value (z e : Z) (szero : bool) :
  - bias <= e ->
  exists R : Z,
    rounding true (Z.abs z * 2 ^ (e + bias)) R /\
    represents (if z =? 0 then szero else z <? 0) R
      (binary_normalize prec emax z e szero).
Proof.
  intros Hb. destruct z as [ | p | p]; simpl binary_normalize.
  - exists 0. split.
    + change (Z.abs 0 * 2 ^ (e + bias)) with 0. unfold rounding.
      pose proof (ulp_pos 0). rewrite Z.div_0_l by lia.
      split; [lia | trivial].
    + left. simpl. repeat split. now destruct szero.
  - apply (binary_round_value false p e Hb).
  - apply (binary_round_value true p e Hb).
Qed.

(** *** Canonical numbers: uniqueness and order *)

Lemma canonical_exponent_lt (m1 m2 : positive) (e1 e2 : Z) :
  bounded prec emax m1 e1 = true -> bounded prec emax m2 e2 = true ->
  e1 < e2 ->
  Z.pos m1 * 2 ^ (e1 + bias) < Z.pos m2 * 2 ^ (e2 + bias).
Proof.
  intros H1 H2 Hlt.
  pose proof (bounded_range _ _ H1) as [R1 D1].
  pose proof (bounded_range _ _ H2) as [R2 D2].
  apply bounded_iff in H2. destruct H2 as [C2 _]. rewrite fexp_eq in C2.
  assert (Hd2 : Zdigits2 (Z.pos m2) = 53) by lia.
  pose proof (digits_bounds (Z.pos m1) ltac:(lia)) as [_ Hm1].
  pose proof (digits_bounds (Z.pos m2) ltac:(lia)) as [Hm2 _].
  rewrite Hd2 in Hm2.
  assert (Hm1' : Z.pos m1 < 2 ^ 53).
  { eapply Z.lt_le_trans; [exact Hm1 | apply pow2_le; lia]. }
  pose proof bias_eq as HB.
  replace (e2 + bias) with ((e2 - e1 - 1) + 1 + (e1 + bias)) by lia.
  rewrite (pow2_split (e2 - e1 - 1 + 1) (e1 + bias)) by lia.
  rewrite (pow2_split (e2 - e1 - 1) 1) by lia.
  pose proof (pow2_pos (e1 + bias) ltac:(lia)).
  pose proof (pow2_pos (e2 - e1 - 1) ltac:(lia)).
  change (2 ^ (53 - 1)) with 4503599627370496 in Hm2.
  change (2 ^ 53) with 9007199254740992 in Hm1'.
  change (2 ^ 1) with 2.
  set (A := 2 ^ (e1 + bias)) in *. set (C := 2 ^ (e2 - e1 - 1)) in *.
  assert (S1 : Z.pos m1 * A < 9007199254740992 * A)
    by (apply Z.mul_lt_mono_pos_r; lia).
  assert (S2 : 9007199254740992 * A <= Z.pos m2 * 2 * A) by nia.
  assert (S3 : Z.pos m2 * 2 * A * 1 <= Z.pos m2 * 2 * A * C)
    by (apply Z.mul_le_mono_nonneg_l; nia).
  replace (Z.pos m2 * (C * 2 * A)) with (Z.pos m2 * 2 * A * C) by ring.
  lia.
Qed.

Lemma canonical_same_value (m1 m2 : positive) (e1 e2 : Z) :
  bounded prec emax m1 e1 = true -> bounded prec emax m2 e2 = true ->
  Z.pos m1 * 2 ^ (e1 + bias) = Z.pos m2 * 2 ^ (e2 + bias) ->
  m1 = m2 /\ e1 = e2.
Proof.
  intros H1 H2 Hv.
  destruct (Z.lt_trichotomy e1 e2) as [Hlt | [Heq | Hgt]].
  - pose proof (canonical_exponent_lt _ _ _ _ H1 H2 Hlt). lia.
  - subst e2. split; trivial.
    pose proof (bounded_range _ _ H1) as [R1 _]. pose proof bias_eq.
    pose proof (pow2_pos (e1 + bias) ltac:(lia)).
    assert (Z.pos m1 = Z.pos m2) by nia. congruence.
  - pose proof (canonical_exponent_lt _ _ _ _ H2 H1 ltac:(lia)). lia.
Qed.

Lemma val_finite_pos (s : bool) (m : positive) (e : Z) :
  -1074 <= e -> 0 < Z.pos m * 2 ^ (e + bias).
Proof.
  intros He. pose proof bias_eq.
  pose proof (pow2_pos (e + bias) ltac:(lia)). nia.
Qed.

Lemma val_inj (x y : number) :
  regular x -> regular y -> sign_bit x = sign_bit y -> val x = val y ->
  x = y.
Proof.
  destruct x as [sx | sx | | sx mx ex], y as [sy | sy | | sy my ey];
    cbn [regular val sign_bit]; try tauto.
  - intros _ _ -> _. reflexivity.
  - intros _ Hy _ Hv. pose proof (bounded_range _ _ Hy) as [R _].
    pose proof (val_finite_pos sy my ey ltac:(lia)).
    destruct sy; cbn [cond_Zopp] in Hv; lia.
  - intros Hx _ _ Hv. pose proof (bounded_range _ _ Hx) as [R _].
    pose proof (val_finite_pos sx mx ex ltac:(lia)).
    destruct sx; cbn [cond_Zopp] in Hv; lia.
  - intros Hx Hy -> Hv.
    assert (Hv' : Z.pos mx * 2 ^ (ex + bias) = Z.pos my * 2 ^ (ey + bias)).
    { destruct sy; cbn [cond_Zopp] in Hv; lia. }
    destruct (canonical_same_value _ _ _ _ Hx Hy Hv') as [-> ->].
    reflexivity.
Qed.

Lemma compare_cont_Eq (m1 m2 : positive) :
  Pos.compare_cont Eq m1 m2 = (Z.pos m1 ?= Z.pos m2).
Proof. reflexivity. Qed.

Lemma mul_compare_r (a b c : Z) : 0 < c -> (a * c ?= b * c) = (a ?= b).
Proof.
  intros Hc. destruct (Z.compare_spec a b) as [E | E | E].
  - subst. apply Z.compare_refl.
  - apply Z.compare_lt_iff. now apply Z.mul_lt_mono_pos_r.
  - apply Z.compare_gt_iff. now apply Z.mul_lt_mono_pos_r.
Qed.

Lemma SFcompare_val (x y : number) :
  regular x -> regular y -> SFcompare x y = Some (val x ?= val y).
Proof.
  destruct x as [sx | sx | | sx mx ex], y as [sy | sy | | sy my ey];
    unfold SFcompare; cbv beta iota; cbn [regular val]; try tauto.
  - intros _ Hy. pose proof (bounded_range _ _ Hy) as [R _].
    pose proof (val_finite_pos sy my ey ltac:(lia)) as P.
    destruct sy; cbn [cond_Zopp]; f_equal; symmetry;
      [apply Z.compare_gt_iff | apply Z.compare_lt_iff]; lia.
  - intros Hx _. pose proof (bounded_range _ _ Hx) as [R _].
    pose proof (val_finite_pos sx mx ex ltac:(lia)) as P.
    destruct sx; cbn [cond_Zopp]; f_equal; symmetry;
      [apply Z.compare_lt_iff | apply Z.compare_gt_iff]; lia.
  - intros Hx Hy.
    pose proof (bounded_range _ _ Hx) as [Rx _].
    pose proof (bounded_range _ _ Hy) as [Ry _].
    pose proof (val_finite_pos sx mx ex ltac:(lia)) as Px.
    pose proof (val_finite_pos sy my ey ltac:(lia)) as Py.
    assert (Hc : (Z.pos mx * 2 ^ (ex + bias) ?= Z.pos my * 2 ^ (ey + bias)) =
                 match ex ?= ey with
                 | Lt => Lt
                 | Gt => Gt
                 | Eq => Pos.compare_cont Eq mx my
                 end).
    { destruct (Z.compare_spec ex ey) as [E | E | E].
      - subst ey. rewrite compare_cont_Eq.
        pose proof bias_eq.
        apply mul_compare_r. apply pow2_pos. lia.
      - apply Z.compare_lt_iff. now apply canonical_exponent_lt.
      - apply Z.compare_gt_iff. now apply canonical_exponent_lt. }
    f_equal. destruct sx, sy; cbn [cond_Zopp].
    + rewrite Z.compare_opp.
      rewrite (Z.compare_antisym (Z.pos mx * 2 ^ (ex + bias))), Hc.
      now destruct (ex ?= ey).
    + symmetry. apply Z.compare_lt_iff. lia.
    + symmetry. apply Z.compare_gt_iff. lia.
    + now rewrite Hc.
Qed.

Lemma ltb_val (x y : number) :
  regular x -> regular y -> ltb x y = (val x <? val y).
Proof.
  intros Hx Hy. unfold ltb, SFltb, Z.ltb. rewrite SFcompare_val by trivial.
  now destruct (val x ?= val y).
Qed.

Lemma leb_val (x y : number) :
  regular x -> regular y -> leb x y = (val x <=? val y).
Proof.
  intros Hx Hy. unfold leb, SFleb, Z.leb. rewrite SFcompare_val by trivial.
  now destruct (val x ?= val y).
Qed.

Lemma eqb_val (x y : number) :
  regular x -> regular y -> eqb x y = (val x =? val y).
Proof.
  intros Hx Hy. unfold eqb, SFeqb. rewrite SFcompare_val by trivial.
  now rewrite Z.eqb_compare.
Qed.

(** *** Rounding: exact cases and bounds *)

Lemma ulp_eq (X : Z) :
  ulp X = 2 ^ (Z.max (Zdigits2 X - bias - 53) (-1074) + bias).
Proof. unfold ulp. now rewrite fexp_eq. Qed.

Lemma ulp_divides (X Y : Z) :
  0 <= X <= Y -> exists k, ulp Y = k * ulp X /\ 0 < k.
Proof.
  intros H. pose proof (digits_le X Y H) as Hd. pose proof bias_eq as HB.
  rewrite !ulp_eq.
  set (a := Z.max (Zdigits2 X - bias - 53) (-1074)).
  set (b := Z.max (Zdigits2 Y - bias - 53) (-1074)).
  exists (2 ^ (b - a)). split.
  - rewrite <- pow2_split by lia. f_equal. lia.
  - apply pow2_pos. lia.
Qed.

Lemma multiple_of_ulp (m e : Z) :
  0 < m -> -1074 <= e ->
  fexp prec emax (Zdigits2 m + e) <= e ->
  exists k, m * 2 ^ (e + bias) = k * ulp (m * 2 ^ (e + bias)) /\ 0 < k.
Proof.
  intros Hm He Hc. pose proof bias_eq as HB.
  rewrite ulp_of_scaled by lia.
  set (e1 := fexp prec emax (Zdigits2 m + e)) in *.
  assert (-1074 <= e1) by (unfold e1; rewrite fexp_eq; lia).
  exists (m * 2 ^ (e - e1)). split.
  - rewrite <- Z.mul_assoc, <- pow2_split by lia. do 2 f_equal. lia.
  - pose proof (pow2_pos (e - e1) ltac:(lia)). nia.
Qed.

Lemma regular_multiple_of_ulp (s : bool) (m : positive) (e : Z) (X : Z) :
  bounded prec emax m e = true ->
  0 <= X <= Z.pos m * 2 ^ (e + bias) ->
  exists k, Z.pos m * 2 ^ (e + bias) = k * ulp X /\ 0 < k.
Proof.
  intros Hb HX.
  pose proof (bounded_range _ _ Hb) as [R D].
  apply bounded_iff in Hb. destruct Hb as [Hc _].
  destruct (multiple_of_ulp (Z.pos m) e) as [k1 [E1 P1]]; try lia.
  destruct (ulp_divides X (Z.pos m * 2 ^ (e + bias)) HX) as [k2 [E2 P2]].
  exists (k1 * k2). split; [ | nia].
  rewrite E1 at 1. rewrite E2. ring.
Qed.

Lemma rounding_le (X R B k : Z) :
  rounding true X R -> 0 <= X <= B -> B = k * ulp X -> R <= B.
Proof.
  intros [[_ Hhi] Hex] [H0 HB] Hk.
  pose proof (ulp_pos X) as HU. set (U := ulp X) in *.
  destruct (Z.eq_dec (X mod U) 0) as [E | E].
  - rewrite (Hex eq_refl E). trivial.
  - pose proof (Z.div_mod X U ltac:(lia)) as Hdm.
    pose proof (Z.mod_pos_bound X U HU) as Hm.
    assert (X / U < k) by nia. nia.
Qed.

Lemma rounding_le_strict (ex : bool) (X R B k : Z) :
  rounding ex X R -> 0 <= X < B -> B = k * ulp X -> R <= B.
Proof.
  intros [[_ Hhi] _] [H0 HB] Hk.
  pose proof (ulp_pos X) as HU. set (U := ulp X) in *.
  pose proof (Z.div_mod X U ltac:(lia)) as Hdm.
  pose proof (Z.mod_pos_bound X U HU) as Hm.
  assert (X / U < k) by nia. nia.
Qed.

Lemma rounding_nonneg (ex : bool) (X R : Z) :
  rounding ex X R -> 0 <= X -> 0 <= R.
Proof.
  intros [[Hlo _] _] H0. pose proof (ulp_pos X) as HU.
  pose proof (Z.div_pos X (ulp X) H0 HU). nia.
Qed.

Lemma rounding_exact (X R k : Z) :
  rounding true X R -> X = k * ulp X -> R = X.
Proof.
  intros [_ Hex] Hk. apply Hex; trivial.
  rewrite Hk at 1. apply Z.mod_mul. pose proof (ulp_pos X). lia.
Qed.

Lemma rounding_pos (X R k : Z) :
  rounding true X R -> 0 < X -> X = k * 2 ^ (bias - 1074) -> 0 < R.
Proof.
  intros [[Hlo _] _] HX Hk. pose proof bias_eq as HB.
  pose proof (ulp_pos X) as Hu.
  assert (Hle : ulp X <= X).
  { rewrite ulp_eq.
    pose proof (digits_bounds X HX) as [Hd _].
    pose proof (pow2_pos (bias - 1074) ltac:(lia)) as Hp.
    destruct (Z.max_spec (Zdigits2 X - bias - 53) (-1074)) as [[_ E] | [_ E]];
      rewrite E.
    - replace (-1074 + bias) with (bias - 1074) by lia.
      subst X. clear - HX Hp. generalize dependent (2 ^ (bias - 1074)).
      intros P HX HP.
      assert (0 < k) by (apply (Z.mul_pos_cancel_r k P); trivial).
      nia.
    - apply Z.le_trans with (2 ^ (Zdigits2 X - 1)); trivial.
      assert (0 < Zdigits2 X) by (destruct X; simpl; lia).
      apply pow2_le. lia. }
  assert (1 <= X / ulp X).
  { apply Z.div_le_lower_bound; lia. }
  nia.
Qed.

Lemma rounding_refl (X : Z) : 0 <= X -> rounding true X X.
Proof.
  intros H0. pose proof (ulp_pos X) as HU. split; [ | trivial].
  pose proof (Z.div_mod X (ulp X) ltac:(lia)).
  pose proof (Z.mod_pos_bound X (ulp X) HU). nia.
Qed.

Lemma val_bound (x : number) : regular x -> Z.abs (val x) < 2 ^ (emax + bias).
Proof.
  destruct x as [sx | sx | | sx m e]; cbn [regular val]; try tauto.
  - intros _. change (Z.abs 0) with 0. apply pow2_pos. now compute.
  - intros Hb. pose proof (bounded_range _ _ Hb) as [R D].
    pose proof (digits_bounds (Z.pos m) ltac:(lia)) as [_ Hm].
    pose proof bias_eq as HB.
    assert (Hm' : Z.pos m < 2 ^ 53).
    { eapply Z.lt_le_trans; [exact Hm | apply pow2_le; lia]. }
    assert (Hp : 2 ^ (e + bias) <= 2 ^ (971 + bias)) by (apply pow2_le; lia).
    change (emax + bias) with (53 + (971 + bias)).
    rewrite (pow2_split 53 (971 + bias)) by lia.
    pose proof (pow2_pos (e + bias) ltac:(lia)).
    pose proof (val_finite_pos sx m e ltac:(lia)).
    assert (Z.abs (cond_Zopp sx (Z.pos m * 2 ^ (e + bias))) =
            Z.pos m * 2 ^ (e + bias)) as ->
      by (destruct sx; cbn [cond_Zopp]; lia).
    nia.
Qed.

Lemma represents_regular (s : bool) (R : Z) (r : number) :
  represents s R r -> R < 2 ^ (emax + bias) ->
  regular r /\ sign_bit r = s /\ val r = cond_Zopp s R.
Proof. intros [H | [_ H]] Hlt; [trivial | lia]. Qed.

(** *** Integers *)

Lemma digits_abs_small (z : Z) :
  0 < z < 2 ^ 53 -> Zdigits2 z <= 53.
Proof. intros H. apply digits_lt_pow2; lia. Qed.

Lemma of_Z_small (z : Z) :
  Z.abs z <= 2 ^ 53 ->
  regular (of_Z z) /\ sign_bit (of_Z z) = (z <? 0) /\
  val (of_Z z) = z * 2 ^ bias.
Proof.
  intros Hz. unfold of_Z. pose proof bias_eq as HB.
  destruct (binary_normalize_value z 0 false ltac:(lia)) as [R [HR1 HR2]].
  rewrite Z.add_0_l in HR1.
  destruct (Z.eq_dec z 0) as [-> | Hn].
  - simpl. repeat split.
  - assert (Hex : R = Z.abs z * 2 ^ bias).
    { destruct (Z.eq_dec (Z.abs z) (2 ^ 53)) as [E | E].
      - rewrite E in *.
        assert (Hf : fexp prec emax (Zdigits2 (2 ^ 52) + 1) <= 1)
          by (rewrite fexp_eq; simpl; lia).
        destruct (multiple_of_ulp (2 ^ 52) 1 ltac:(lia) ltac:(lia) Hf)
          as [k [Hk _]].
        assert (Hv : 2 ^ 53 * 2 ^ bias = 2 ^ 52 * 2 ^ (1 + bias)).
        { rewrite (pow2_split 1 bias) by lia.
          change (2 ^ 53) with (2 ^ 52 * 2 ^ 1). ring. }
        rewrite Hv in *. apply (rounding_exact _ _ k HR1 Hk).
      - assert (Hf : fexp prec emax (Zdigits2 (Z.abs z) + 0) <= 0).
        { rewrite fexp_eq. pose proof (digits_abs_small (Z.abs z)). lia. }
        destruct (multiple_of_ulp (Z.abs z) 0 ltac:(lia) ltac:(lia) Hf)
          as [k [Hk _]].
        rewrite Z.add_0_l in Hk. apply (rounding_exact _ _ k HR1 Hk). }
    assert (Hlt : R < 2 ^ (emax + bias)).
    { rewrite Hex. change (emax + bias) with (1024 + bias).
      rewrite (pow2_split 1024 bias) by lia.
      pose proof (pow2_pos bias ltac:(lia)).
      assert (2 ^ 53 < 2 ^ 1024) by (apply Z.pow_lt_mono_r; lia). nia. }
    destruct (represents_regular _ _ _ HR2 Hlt) as [H1 [H2 H3]].
    replace (z =? 0) with false in * by (symmetry; apply Z.eqb_neq; lia).
    repeat split; trivial.
    rewrite H3, Hex. destruct (Z.ltb_spec z 0); simpl; lia.
Qed.

Lemma sign_bit_val (x : number) :
  regular x -> val x <> 0 -> sign_bit x = (val x <? 0).
Proof.
  destruct x as [sx | sx | | sx m e]; cbn [regular val sign_bit];
    try (intros []; fail).
  - intros _ H. now elim H.
  - intros Hb _. pose proof (bounded_range _ _ Hb) as [R _].
    pose proof (val_finite_pos sx m e ltac:(lia)).
    destruct sx; cbn [cond_Zopp]; symmetry;
      [apply Z.ltb_lt | apply Z.ltb_ge]; lia.
Qed.

Lemma val_abs (x : number) :
  regular x -> val x = cond_Zopp (sign_bit x) (Z.abs (val x)).
Proof.
  destruct x as [sx | sx | | sx m e]; cbn [regular val sign_bit];
    try (intros []; fail).
  - intros _. now destruct sx.
  - intros Hb. pose proof (bounded_range _ _ Hb) as [R _].
    pose proof (val_finite_pos sx m e ltac:(lia)).
    destruct sx; cbn [cond_Zopp]; lia.
Qed.

Lemma regular_represents (x : number) :
  regular x -> represents (sign_bit x) (Z.abs (val x)) x.
Proof. intros H. left. repeat split; trivial. now apply val_abs. Qed.

(** *** Truncation *)

Lemma truncate_val (x : number) :
  regular x -> truncate x = Z.quot (val x) (2 ^ bias).
Proof.
  destruct x as [sx | sx | | sx m e]; cbn [regular val truncate];
    try (intros []; fail).
  - intros _.
    now rewrite Z.quot_0_l
      by (pose proof bias_eq; pose proof (pow2_pos bias); lia).
  - intros Hb. pose proof (bounded_range _ _ Hb) as [R _].
    pose proof bias_eq as HB.
    pose proof (pow2_pos bias ltac:(lia)) as Pb.
    destruct (Z.leb_spec 0 e) as [He | He].
    + rewrite (pow2_split e bias) by lia.
      assert (E : cond_Zopp sx (Z.pos m * (2 ^ e * 2 ^ bias)) =
                  cond_Zopp sx (Z.pos m * 2 ^ e) * 2 ^ bias)
        by (destruct sx; cbn [cond_Zopp]; ring).
      rewrite E, Z.quot_mul; lia.
    + assert (E : 2 ^ bias = 2 ^ (- e) * 2 ^ (e + bias)).
      { rewrite <- pow2_split by lia. f_equal. lia. }
      rewrite E.
      assert (E' : cond_Zopp sx (Z.pos m * 2 ^ (e + bias)) =
                   cond_Zopp sx (Z.pos m) * 2 ^ (e + bias))
        by (destruct sx; cbn [cond_Zopp]; ring).
      rewrite E'. symmetry. apply Z.quot_mul_cancel_r.
      * pose proof (pow2_pos (- e) ltac:(lia)). lia.
      * pose proof (pow2_pos (e + bias) ltac:(lia)). lia.
Qed.

Lemma truncate_of_Z (z : Z) : Z.abs z <= 2 ^ 53 -> truncate (of_Z z) = z.
Proof.
  intros Hz. destruct (of_Z_small z Hz) as [H1 [_ H3]].
  rewrite truncate_val, H3 by trivial.
  apply Z.quot_mul. pose proof (pow2_pos bias). pose proof bias_eq. lia.
Qed.

Lemma wrap32_small (z : Z) : - 2 ^ 31 <= z < 2 ^ 31 -> wrap32 z = z.
Proof.
  intros H. unfold wrap32.
  change (2 ^ 31) with 2147483648 in *. change (2 ^ 32) with 4294967296.
  destruct (Z.leb_spec 2147483648 (z mod 4294967296));
    Z.div_mod_to_equations; lia.
Qed.

Lemma ToInt32_of_Z (z : Z) : - 2 ^ 31 <= z < 2 ^ 31 -> ToInt32 (of_Z z) = z.
Proof.
  intros H. unfold ToInt32. rewrite truncate_of_Z.
  - now apply wrap32_small.
  - change (2 ^ 31) with 2147483648 in *.
    change (2 ^ 53) with 9007199254740992. lia.
Qed.

(** *** Addition and subtraction *)

Lemma shl_align_min (m : positive) (e e' : Z) :
  Z.pos (fst (shl_align m e (Z.min e e'))) = Z.pos m * 2 ^ (e - Z.min e e').
Proof.
  pose proof (shl_align_value m e (Z.min e e')) as [_ H]. cbn zeta in H.
  rewrite H. do 2 f_equal. lia.
Qed.

Lemma aligned_val (s : bool) (m : positive) (e ez : Z) :
  -1074 <= ez <= e ->
  cond_Zopp s (Z.pos m * 2 ^ (e - ez)) * 2 ^ (ez + bias) =
  cond_Zopp s (Z.pos m * 2 ^ (e + bias)).
Proof.
  intros H. pose proof bias_eq.
  replace (e + bias) with ((e - ez) + (ez + bias)) by lia.
  rewrite (pow2_split (e - ez) (ez + bias)) by lia.
  destruct s; cbn [cond_Zopp]; ring.
Qed.

Lemma normalize_sum (x y : number) (z ez : Z) (v : Z) :
  -1074 <= ez -> z * 2 ^ (ez + bias) = v ->
  exists R : Z,
    rounding true (Z.abs v) R /\
    represents (if v =? 0 then false else v <? 0) R
      (binary_normalize prec emax z ez false).
Proof.
  intros He Hv. pose proof bias_eq as HB.
  pose proof (pow2_pos (ez + bias) ltac:(lia)) as P.
  destruct (binary_normalize_value z ez false ltac:(lia)) as [R [H1 H2]].
  exists R. split.
  - replace (Z.abs v) with (Z.abs z * 2 ^ (ez + bias)); trivial.
    subst v. rewrite Z.abs_mul. f_equal. lia.
  - replace (v =? 0) with (z =? 0).
    + replace (v <? 0) with (z <? 0); trivial.
      subst v. destruct (Z.ltb_spec z 0), (Z.ltb_spec (z * 2 ^ (ez + bias)) 0);
        trivial; nia.
    + subst v. destruct (Z.eqb_spec z 0), (Z.eqb_spec (z * 2 ^ (ez + bias)) 0);
        trivial; nia.
Qed.

Lemma add_spec (x y : number) :
  regular x -> regular y ->
  exists R : Z,
    rounding true (Z.abs (val x + val y)) R /\
    represents (sum_sign (val x + val y) (sign_bit x && sign_bit y)) R
      (add x y).
Proof.
  intros Hx Hy. unfold sum_sign.
  destruct x as [sx | sx | | sx mx ex]; try (now elim Hx);
    destruct y as [sy | sy | | sy my ey]; try (now elim Hy).
  - exists 0. split; [now apply rounding_refl | ].
    left. now destruct sx, sy.
  - exists (Z.abs (val (S754_finite sy my ey))).
    rewrite Z.add_0_l. split; [apply rounding_refl; lia | ].
    pose proof (bounded_range _ _ Hy) as [R _].
    pose proof (val_finite_pos sy my ey ltac:(lia)).
    replace (val (S754_finite sy my ey) =? 0) with false.
    + rewrite <- sign_bit_val; trivial.
      * now apply regular_represents.
      * destruct sy; cbn [val cond_Zopp]; lia.
    + symmetry. apply Z.eqb_neq. destruct sy; cbn [val cond_Zopp]; lia.
  - exists (Z.abs (val (S754_finite sx mx ex))).
    change (val (S754_zero sy)) with 0. rewrite Z.add_0_r.
    split; [apply rounding_refl; lia | ].
    pose proof (bounded_range _ _ Hx) as [R _].
    pose proof (val_finite_pos sx mx ex ltac:(lia)).
    replace (val (S754_finite sx mx ex) =? 0) with false.
    + rewrite <- sign_bit_val; trivial.
      * now apply regular_represents.
      * destruct sx; cbn [val cond_Zopp]; lia.
    + symmetry. apply Z.eqb_neq. destruct sx; cbn [val cond_Zopp]; lia.
  - pose proof (bounded_range _ _ Hx) as [Rx _].
    pose proof (bounded_range _ _ Hy) as [Ry _].
    unfold add, SFadd.
    rewrite shl_align_min, (Z.min_comm ex ey), shl_align_min.
    set (ez := Z.min ey ex).
    destruct (normalize_sum (S754_finite sx mx ex) (S754_finite sy my ey)
      (cond_Zopp sx (Z.pos mx * 2 ^ (ex - ez)) +
       cond_Zopp sy (Z.pos my * 2 ^ (ey - ez))) ez
      (val (S754_finite sx mx ex) + val (S754_finite sy my ey)))
      as [R [H1 H2]].
    + unfold ez. lia.
    + rewrite Z.mul_add_distr_r, !aligned_val by (unfold ez; lia).
      reflexivity.
    + exists R. split; trivial.
      destruct (val (S754_finite sx mx ex) + val (S754_finite sy my ey) =? 0)
        eqn:E; trivial.
      apply Z.eqb_eq in E.
      pose proof (val_finite_pos sx mx ex ltac:(lia)).
      pose proof (val_finite_pos sy my ey ltac:(lia)).
      destruct sx, sy; cbn [val cond_Zopp sign_bit andb] in *; trivial; lia.
Qed.

Lemma sub_spec (x y : number) :
  regular x -> regular y ->
  exists R : Z,
    rounding true (Z.abs (val x - val y)) R /\
    represents (sum_sign (val x - val y) (sign_bit x && negb (sign_bit y))) R
      (sub x y).
Proof.
  intros Hx Hy. unfold sum_sign.
  destruct x as [sx | sx | | sx mx ex]; try (now elim Hx);
    destruct y as [sy | sy | | sy my ey]; try (now elim Hy).
  - exists 0. split; [now apply rounding_refl | ].
    left. now destruct sx, sy.
  - exists (Z.abs (val (S754_finite (negb sy) my ey))).
    pose proof (bounded_range _ _ Hy) as [R _].
    pose proof (val_finite_pos sy my ey ltac:(lia)).
    assert (E : val (S754_zero sx) - val (S754_finite sy my ey) =
                val (S754_finite (negb sy) my ey))
      by (destruct sy; cbn [val cond_Zopp negb]; lia).
    rewrite E. split; [apply rounding_refl; lia | ].
    replace (val (S754_finite (negb sy) my ey) =? 0) with false.
    + rewrite <- sign_bit_val; trivial.
      * now apply (regular_represents (S754_finite (negb sy) my ey)).
      * destruct sy; cbn [val cond_Zopp negb]; lia.
    + symmetry. apply Z.eqb_neq. destruct sy; cbn [val cond_Zopp negb]; lia.
  - exists (Z.abs (val (S754_finite sx mx ex))).
    change (val (S754_zero sy)) with 0. rewrite Z.sub_0_r.
    split; [apply rounding_refl; lia | ].
    pose proof (bounded_range _ _ Hx) as [R _].
    pose proof (val_finite_pos sx mx ex ltac:(lia)).
    replace (val (S754_finite sx mx ex) =? 0) with false.
    + rewrite <- sign_bit_val; trivial.
      * now apply regular_represents.
      * destruct sx; cbn [val cond_Zopp]; lia.
    + symmetry. apply Z.eqb_neq. destruct sx; cbn [val cond_Zopp]; lia.
  - pose proof (bounded_range _ _ Hx) as [Rx _].
    pose proof (bounded_range _ _ Hy) as [Ry _].
    unfold sub, SFsub.
    rewrite shl_align_min, (Z.min_comm ex ey), shl_align_min.
    set (ez := Z.min ey ex).
    destruct (normalize_sum (S754_finite sx mx ex) (S754_finite sy my ey)
      (cond_Zopp sx (Z.pos mx * 2 ^ (ex - ez)) -
       cond_Zopp sy (Z.pos my * 2 ^ (ey - ez))) ez
      (val (S754_finite sx mx ex) - val (S754_finite sy my ey)))
      as [R [H1 H2]].
    + unfold ez. lia.
    + rewrite Z.mul_sub_distr_r, !aligned_val by (unfold ez; lia).
      reflexivity.
    + exists R. split; trivial.
      destruct (val (S754_finite sx mx ex) - val (S754_finite sy my ey) =? 0)
        eqn:E; trivial.
      apply Z.eqb_eq in E.
      pose proof (val_finite_pos sx mx ex ltac:(lia)).
      pose proof (val_finite_pos sy my ey ltac:(lia)).
      destruct sx, sy; cbn [val cond_Zopp sign_bit andb negb] in *;
        trivial; lia.
Qed.

Lemma add_of_Z (a b : Z) :
  Z.abs a <= 2 ^ 53 -> Z.abs b <= 2 ^ 53 -> Z.abs (a + b) < 2 ^ 53 ->
  add (of_Z a) (of_Z b) = of_Z (a + b).
Proof.
  intros Ha Hb Hab. pose proof bias_eq as HB.
  destruct (of_Z_small a Ha) as [A1 [A2 A3]].
  destruct (of_Z_small b Hb) as [B1 [B2 B3]].
  destruct (of_Z_small (a + b) ltac:(lia)) as [C1 [C2 C3]].
  destruct (add_spec (of_Z a) (of_Z b) A1 B1) as [R [H1 H2]].
  rewrite A2, A3, B2, B3 in *.
  replace (a * 2 ^ bias + b * 2 ^ bias) with ((a + b) * 2 ^ bias) in * by ring.
  pose proof (pow2_pos bias ltac:(lia)) as Pb.
  assert (HX : Z.abs ((a + b) * 2 ^ bias) = Z.abs (a + b) * 2 ^ (0 + bias)).
  { rewrite Z.abs_mul, Z.add_0_l, (Z.abs_eq (2 ^ bias)) by lia.
    reflexivity. }
  assert (HR : R = Z.abs ((a + b) * 2 ^ bias)).
  { destruct (Z.eq_dec (a + b) 0) as [E | E].
    - rewrite E in *. change (Z.abs (0 * 2 ^ bias)) with 0 in *.
      apply (rounding_exact 0 R 0 H1). lia.
    - assert (Hf : fexp prec emax (Zdigits2 (Z.abs (a + b)) + 0) <= 0).
      { rewrite fexp_eq. pose proof (digits_abs_small (Z.abs (a + b))). lia. }
      destruct (multiple_of_ulp (Z.abs (a + b)) 0 ltac:(lia) ltac:(lia) Hf)
        as [k [Hk _]].
      rewrite HX in *. apply (rounding_exact _ _ k H1 Hk). }
  assert (Hlt : R < 2 ^ (emax + bias)).
  { rewrite HR, HX, Z.add_0_l. change (emax + bias) with (1024 + bias).
    rewrite (pow2_split 1024 bias) by lia.
    assert (2 ^ 53 < 2 ^ 1024) by (apply Z.pow_lt_mono_r; lia). nia. }
  destruct (represents_regular _ _ _ H2 Hlt) as [D1 [D2 D3]].
  apply val_inj; trivial.
  - rewrite D2, C2. unfold sum_sign.
    destruct (Z.eqb_spec ((a + b) * 2 ^ bias) 0) as [E | E].
    + assert (a + b = 0) by nia.
      destruct (Z.ltb_spec a 0), (Z.ltb_spec b 0), (Z.ltb_spec (a + b) 0);
        trivial; lia.
    + destruct (Z.ltb_spec ((a + b) * 2 ^ bias) 0), (Z.ltb_spec (a + b) 0);
        trivial; nia.
  - rewrite D3, C3, HR. unfold sum_sign.
    destruct (Z.eqb_spec ((a + b) * 2 ^ bias) 0) as [E | E].
    + rewrite E. now destruct (_ && _).
    + destruct (Z.ltb_spec ((a + b) * 2 ^ bias) 0); cbn [cond_Zopp]; lia.
Qed.

Lemma shl_of_Z (z n : Z) :
  0 <= n < 32 -> 0 <= z -> z * 2 ^ n < 2 ^ 31 ->
  shl (of_Z z) n = of_Z (z * 2 ^ n).
Proof.
  intros Hn Hz Hlt. unfold shl.
  assert (0 < 2 ^ n) by (apply pow2_pos; lia).
  rewrite ToInt32_of_Z by (change (2 ^ 31) with 2147483648 in *; nia).
  rewrite Z.mod_small, Z.shiftl_mul_pow2 by lia.
  rewrite wrap32_small; trivial.
  change (2 ^ 31) with 2147483648 in *. nia.
Qed.

Lemma sar_of_Z (z n : Z) :
  0 <= n < 32 -> - 2 ^ 31 <= z < 2 ^ 31 ->
  sar (of_Z z) n = of_Z (z / 2 ^ n).
Proof.
  intros Hn Hz. unfold sar.
  now rewrite ToInt32_of_Z, Z.mod_small, Z.shiftr_div_pow2 by lia.
Qed.

Lemma band_255 (x : number) : band x (of_Z 255) = of_Z (ToInt32 x mod 256).
Proof.
  unfold band. rewrite (ToInt32_of_Z 255) by (now compute).
  change 255 with (Z.ones 8). now rewrite Z.land_ones by lia.
Qed.

(** *** Bounds given by a number *)

Lemma val_multiple_of_ulp (x : number) (X : Z) :
  regular x -> 0 <= X <= Z.abs (val x) ->
  exists k, Z.abs (val x) = k * ulp X.
Proof.
  destruct x as [sx | sx | | sx m e]; cbn [regular val];
    try (intros []; fail).
  - intros _ H. exists 0. simpl. lia.
  - intros Hb HX. pose proof (bounded_range _ _ Hb) as [R _].
    pose proof (val_finite_pos sx m e ltac:(lia)) as P.
    assert (E : Z.abs (cond_Zopp sx (Z.pos m * 2 ^ (e + bias))) =
                Z.pos m * 2 ^ (e + bias))
      by (destruct sx; cbn [cond_Zopp]; lia).
    rewrite E in *.
    destruct (regular_multiple_of_ulp sx m e X Hb HX) as [k [Hk _]].
    now exists k.
Qed.

(** A magnitude that rounding keeps below the value of a number. *)
Lemma rounded_below (s : bool) (X R : Z) (r bound : number) :
  rounding true X R -> represents s R r ->
  regular bound -> 0 <= X <= Z.abs (val bound) ->
  regular r /\ sign_bit r = s /\ val r = cond_Zopp s R /\
  0 <= R <= Z.abs (val bound).
Proof.
  intros H1 H2 Hb HX.
  destruct (val_multiple_of_ulp bound X Hb HX) as [k Hk].
  pose proof (rounding_le X R _ k H1 HX Hk) as Hle.
  pose proof (rounding_nonneg _ _ _ H1 ltac:(lia)) as H0.
  pose proof (val_bound bound Hb) as Hmax.
  destruct (represents_regular s R r H2 ltac:(lia)) as [A [B C]].
  repeat split; trivial.
Qed.

(** *** Remainder *)

Lemma rem_scaled (a b c : Z) (sa sb : bool) :
  0 < c -> 0 < b -> 0 <= a ->
  Z.rem (cond_Zopp sa (a * c)) (cond_Zopp sb (b * c)) =
  cond_Zopp sa (Z.rem a b) * c.
Proof.
  intros Hc Hb Ha.
  assert (E : Z.rem (a * c) (b * c) = Z.rem a b * c).
  { apply Z.mul_rem_distr_r; lia. }
  destruct sa, sb; cbn [cond_Zopp];
    rewrite ?Z.rem_opp_l', ?Z.rem_opp_r', E; ring.
Qed.

Lemma rem_spec (x y : number) :
  regular x -> regular y -> val y <> 0 ->
  regular (rem x y) /\ sign_bit (rem x y) = sign_bit x /\
  val (rem x y) = Z.rem (val x) (val y).
Proof.
  intros Hx Hy Hy0.
  destruct y as [sy | sy | | sy my ey]; try (now elim Hy).
  destruct x as [sx | sx | | sx mx ex]; try (now elim Hx).
  pose proof (bounded_range _ _ Hx) as [Rx Dx].
  pose proof (bounded_range _ _ Hy) as [Ry Dy].
  pose proof bias_eq as HB.
  cbn [rem val sign_bit].
  set (ez := Z.min ex ey).
  set (a := Z.pos mx * 2 ^ (ex - ez)). set (b := Z.pos my * 2 ^ (ey - ez)).
  assert (Pa : 0 < a).
  { unfold a. pose proof (pow2_pos (ex - ez) ltac:(unfold ez; lia)). nia. }
  assert (Pb : 0 < b).
  { unfold b. pose proof (pow2_pos (ey - ez) ltac:(unfold ez; lia)). nia. }
  assert (Pc : 0 < 2 ^ (ez + bias)) by (apply pow2_pos; unfold ez; lia).
  assert (Ea : Z.pos mx * 2 ^ (ex + bias) = a * 2 ^ (ez + bias)).
  { unfold a. rewrite <- Z.mul_assoc, <- pow2_split by (unfold ez; lia).
    do 2 f_equal. lia. }
  assert (Eb : Z.pos my * 2 ^ (ey + bias) = b * 2 ^ (ez + bias)).
  { unfold b. rewrite <- Z.mul_assoc, <- pow2_split by (unfold ez; lia).
    do 2 f_equal. lia. }
  rewrite Ea, Eb, rem_scaled by lia.
  pose proof (Z.rem_bound_pos a b ltac:(lia) Pb) as [Hr0 Hrb].
  assert (Hra : Z.rem a b <= a) by (apply Z.rem_le; lia).
  set (rho := Z.rem a b) in *.
  destruct (binary_normalize_value (cond_Zopp sx rho) ez sx)
    as [R [H1 H2]]; [unfold ez; lia | ].
  assert (Habs : Z.abs (cond_Zopp sx rho) = rho)
    by (destruct sx; cbn [cond_Zopp]; lia).
  rewrite Habs in H1.
  destruct (Z.eq_dec rho 0) as [E0 | E0].
  - rewrite E0 in *. replace (cond_Zopp sx 0) with 0 in * by now destruct sx.
    cbn [binary_normalize]. repeat split.
  - assert (Hsmall : rho < 2 ^ 53).
    { destruct (Z.le_ge_cases ex ey) as [Hle | Hge].
      - assert (a = Z.pos mx).
        { unfold a, ez. rewrite Z.min_l, Z.sub_diag by lia. simpl. lia. }
        pose proof (digits_bounds (Z.pos mx) ltac:(lia)) as [_ Hm].
        assert (2 ^ Zdigits2 (Z.pos mx) <= 2 ^ 53) by (apply pow2_le; lia).
        lia.
      - assert (b = Z.pos my).
        { unfold b, ez. rewrite Z.min_r, Z.sub_diag by lia. simpl. lia. }
        pose proof (digits_bounds (Z.pos my) ltac:(lia)) as [_ Hm].
        assert (2 ^ Zdigits2 (Z.pos my) <= 2 ^ 53) by (apply pow2_le; lia).
        lia. }
    assert (Hf : fexp prec emax (Zdigits2 rho + ez) <= ez).
    { rewrite fexp_eq. pose proof (digits_abs_small rho ltac:(lia)).
      unfold ez in *. lia. }
    destruct (multiple_of_ulp rho ez ltac:(lia) ltac:(unfold ez; lia) Hf)
      as [k [Hk _]].
    pose proof (rounding_exact _ _ k H1 Hk) as HR.
    assert (Hlt : R < 2 ^ (emax + bias)).
    { pose proof (val_bound (S754_finite false mx ex) Hx) as Hv.
      cbn [val cond_Zopp] in Hv. rewrite Ea in Hv.
      rewrite Z.abs_eq in Hv by nia. rewrite HR. nia. }
    destruct (represents_regular _ _ _ H2 Hlt) as [A [B C]].
    replace (cond_Zopp sx rho =? 0) with false in *
      by (symmetry; apply Z.eqb_neq; destruct sx; cbn [cond_Zopp]; lia).
    replace (cond_Zopp sx rho <? 0) with sx in *
      by (destruct sx; cbn [cond_Zopp]; symmetry;
          [apply Z.ltb_lt | apply Z.ltb_ge]; lia).
    repeat split; trivial. rewrite C, HR.
    destruct sx; cbn [cond_Zopp]; ring.
Qed.

(** *** [Math.floor] *)

Lemma floor_spec (x : number) :
  regular x ->
  regular (Math_floor x) /\ sign_bit (Math_floor x) = sign_bit x /\
  val (Math_floor x) = val x / 2 ^ bias * 2 ^ bias.
Proof.
  intros Hx. pose proof bias_eq as HB.
  pose proof (pow2_pos bias ltac:(lia)) as Pb.
  destruct x as [sx | sx | | sx m e]; try (now elim Hx).
  pose proof (bounded_range _ _ Hx) as [R D].
  cbn [Math_floor]. destruct (Z.leb_spec 0 e) as [He | He].
  - repeat split; trivial. cbn [val].
    rewrite (pow2_split e bias) by lia.
    assert (E : cond_Zopp sx (Z.pos m * (2 ^ e * 2 ^ bias)) =
                cond_Zopp sx (Z.pos m * 2 ^ e) * 2 ^ bias)
      by (destruct sx; cbn [cond_Zopp]; ring).
    now rewrite E, Z.div_mul by lia.
  - change (binary_normalize prec emax (cond_Zopp sx (Z.pos m) / 2 ^ (- e)) 0
              false)
      with (of_Z (cond_Zopp sx (Z.pos m) / 2 ^ (- e))).
    set (z := cond_Zopp sx (Z.pos m) / 2 ^ (- e)).
    pose proof (pow2_pos (- e) ltac:(lia)) as Pe.
    assert (P2 : 2 <= 2 ^ (- e)).
    { change 2 with (2 ^ 1) at 1. apply pow2_le. lia. }
    pose proof (digits_bounds (Z.pos m) ltac:(lia)) as [_ Hm].
    assert (Hm' : 2 ^ Zdigits2 (Z.pos m) <= 2 ^ 53) by (apply pow2_le; lia).
    assert (Hz : if sx then - Z.pos m <= z < 0 else 0 <= z <= Z.pos m).
    { unfold z. destruct sx; cbn [cond_Zopp].
      - split.
        + apply Z.div_le_lower_bound; nia.
        + apply Z.div_lt_upper_bound; lia.
      - split.
        + apply Z.div_pos; lia.
        + apply Z.div_le_upper_bound; nia. }
    destruct (of_Z_small z) as [A [B C]].
    { destruct sx; lia. }
    split; trivial. split.
    + rewrite B. cbn [sign_bit]. destruct sx;
        [apply Z.ltb_lt | apply Z.ltb_ge]; lia.
    + rewrite C. f_equal. unfold z. cbn [val].
      assert (E : 2 ^ bias = 2 ^ (- e) * 2 ^ (e + bias)).
      { rewrite <- pow2_split by lia. f_equal. lia. }
      rewrite E.
      assert (E' : cond_Zopp sx (Z.pos m * 2 ^ (e + bias)) =
                   cond_Zopp sx (Z.pos m) * 2 ^ (e + bias))
        by (destruct sx; cbn [cond_Zopp]; ring).
      rewrite E'. symmetry. apply Z.div_mul_cancel_r.
      * lia.
      * pose proof (pow2_pos (e + bias) ltac:(lia)). lia.
Qed.

(** *** Multiplication *)

Lemma digits_mul_ge (a b : Z) :
  0 < a -> 0 < b -> Zdigits2 a + Zdigits2 b - 1 <= Zdigits2 (a * b).
Proof.
  intros Ha Hb.
  pose proof (digits_bounds a Ha) as [Ha1 _].
  pose proof (digits_bounds b Hb) as [Hb1 _].
  assert (0 < Zdigits2 a) by (destruct a; simpl; lia).
  assert (0 < Zdigits2 b) by (destruct b; simpl; lia).
  apply digits_ge_pow2; [ | nia].
  replace (Zdigits2 a + Zdigits2 b - 1 - 1)
    with ((Zdigits2 a - 1) + (Zdigits2 b - 1)) by lia.
  rewrite pow2_split by lia.
  apply Z.mul_le_mono_nonneg; trivial; apply Z.lt_le_incl, pow2_pos; lia.
Qed.

Lemma mul_spec (sx sy : bool) (mx my : positive) (ex ey : Z) :
  bounded prec emax mx ex = true -> bounded prec emax my ey = true ->
  exists R : Z,
    rounding true (Z.pos mx * Z.pos my * 2 ^ (ex + ey + bias)) R /\
    represents (xorb sx sy) R
      (mul (S754_finite sx mx ex) (S754_finite sy my ey)).
Proof.
  intros Hx Hy.
  pose proof (bounded_range _ _ Hx) as [Rx Dx].
  pose proof (bounded_range _ _ Hy) as [Ry Dy].
  pose proof bias_eq as HB.
  unfold mul, SFmul. rewrite Pos2Z.inj_mul.
  apply (binary_round_aux_value (xorb sx sy) (Z.pos mx * Z.pos my) (ex + ey)
           loc_Exact); try lia.
  pose proof (digits_mul_ge (Z.pos mx) (Z.pos my) ltac:(lia) ltac:(lia)) as Hd.
  apply bounded_iff in Hx, Hy. destruct Hx as [Cx _], Hy as [Cy _].
  rewrite fexp_eq in *. lia.
Qed.

Lemma val_mul_scaled (mx my : positive) (ex ey : Z) :
  -1074 <= ex -> -1074 <= ey ->
  Z.pos mx * Z.pos my * 2 ^ (ex + ey + bias) * 2 ^ bias =
  (Z.pos mx * 2 ^ (ex + bias)) * (Z.pos my * 2 ^ (ey + bias)).
Proof.
  intros Hx Hy. pose proof bias_eq as HB.
  replace (ex + ey + bias) with ((ex + bias) + (ey + bias) - bias) by lia.
  assert (E : 2 ^ (ex + bias + (ey + bias) - bias) * 2 ^ bias =
              2 ^ (ex + bias) * 2 ^ (ey + bias)).
  { rewrite <- !pow2_split by lia. f_equal. lia. }
  rewrite <- Z.mul_assoc, E. ring.
Qed.

(** The product of two numbers of a range stays in the range the product
    of the bounds gives. *)
Lemma mul_within (a b : number) (A B : Z) (bound : number) :
  within A a -> within B b ->
  regular bound -> A * B <= val bound * 2 ^ bias ->
  within (val bound) (mul a b).
Proof.
  intros [Ra [Sa Va]] [Rb [Sb Vb]] Hbound HAB.
  pose proof bias_eq as HB. pose proof (pow2_pos bias ltac:(lia)) as Pb.
  destruct a as [sa | sa | | sa ma ea]; try (now elim Ra);
    destruct b as [sb | sb | | sb mb eb]; try (now elim Rb);
    cbn [sign_bit] in Sa, Sb; subst sa sb.
  - assert (0 <= val bound) by (cbn [val] in *; nia).
    repeat split; trivial.
  - cbn [val cond_Zopp] in *.
    pose proof (bounded_range _ _ Rb) as [Rg _].
    pose proof (val_finite_pos false mb eb ltac:(lia)).
    assert (0 <= val bound) by nia.
    repeat split; trivial.
  - cbn [val cond_Zopp] in *.
    pose proof (bounded_range _ _ Ra) as [Rg _].
    pose proof (val_finite_pos false ma ea ltac:(lia)).
    assert (0 <= val bound) by nia.
    repeat split; trivial.
  - cbn [val cond_Zopp] in *.
    pose proof (bounded_range _ _ Ra) as [Rga _].
    pose proof (bounded_range _ _ Rb) as [Rgb _].
    pose proof (val_finite_pos false ma ea ltac:(lia)) as Pa.
    pose proof (val_finite_pos false mb eb ltac:(lia)) as Pb'.
    destruct (mul_spec false false ma mb ea eb Ra Rb) as [R [H1 H2]].
    pose proof (val_mul_scaled ma mb ea eb ltac:(lia) ltac:(lia)) as E.
    set (X := Z.pos ma * Z.pos mb * 2 ^ (ea + eb + bias)) in *.
    assert (HX : 0 <= X <= Z.abs (val bound)).
    { assert (0 <= X).
      { unfold X. pose proof (pow2_pos (ea + eb + bias) ltac:(lia)). nia. }
      assert (Hprod : Z.pos ma * 2 ^ (ea + bias) * (Z.pos mb * 2 ^ (eb + bias))
                      <= A * B) by (apply Z.mul_le_mono_nonneg; lia).
      assert (Hle : X * 2 ^ bias <= val bound * 2 ^ bias)
        by (clearbody X; clear - E Hprod HAB; lia).
      assert (Hle' : X <= val bound)
        by (apply (Z.mul_le_mono_pos_r _ _ (2 ^ bias) Pb); exact Hle).
      clearbody X. clear - H Hle'. lia. }
    destruct (rounded_below _ _ _ _ bound H1 H2 Hbound HX)
      as [C1 [C2 [C3 C4]]].
    assert (Hb0 : 0 <= val bound).
    { assert (Hprod : 0 < Z.pos ma * 2 ^ (ea + bias) *
                          (Z.pos mb * 2 ^ (eb + bias)))
        by (apply Z.mul_pos_pos; trivial).
      assert (Hprod' : Z.pos ma * 2 ^ (ea + bias) *
                       (Z.pos mb * 2 ^ (eb + bias)) <= A * B)
        by (apply Z.mul_le_mono_nonneg; lia).
      clear - Hprod Hprod' HAB Pb. nia. }
    cbn [xorb] in *. split; trivial. split; trivial.
    rewrite C3. cbn [cond_Zopp]. clear - C4 Hb0. lia.
Qed.

(** *** Division *)

Lemma fexp_le (a b : Z) : a <= b -> fexp prec emax a <= fexp prec emax b.
Proof. intros H. rewrite !fexp_eq. lia. Qed.

Lemma quotient_digits (a b : Z) :
  0 < a -> 0 < b -> Zdigits2 a - Zdigits2 b <= Zdigits2 (a / b).
Proof.
  intros Ha Hb.
  pose proof (digits_bounds a Ha) as [Ha1 _].
  pose proof (digits_bounds b Hb) as [_ Hb2].
  pose proof (Zdigits2_nonneg (a / b)) as H0.
  assert (Hda : 0 < Zdigits2 a) by (destruct a; simpl; lia).
  assert (Hdb : 0 < Zdigits2 b) by (destruct b; simpl; lia).
  destruct (Z.le_gt_cases (Zdigits2 a - Zdigits2 b) 0) as [Hle | Hgt];
    [lia | ].
  assert (Hq : 2 ^ (Zdigits2 a - Zdigits2 b - 1) <= a / b).
  { apply Z.div_le_lower_bound; trivial.
    assert (E : 2 ^ (Zdigits2 a - 1) =
                2 ^ Zdigits2 b * 2 ^ (Zdigits2 a - Zdigits2 b - 1)).
    { rewrite <- pow2_split by lia. f_equal. lia. }
    pose proof (pow2_pos (Zdigits2 a - Zdigits2 b - 1) ltac:(lia)).
    nia. }
  apply digits_ge_pow2; trivial.
  pose proof (pow2_pos (Zdigits2 a - Zdigits2 b - 1) ltac:(lia)). lia.
Qed.

Lemma div_spec (sx sy : bool) (mx my : positive) (ex ey : Z) :
  bounded prec emax mx ex = true -> bounded prec emax my ey = true ->
  exists X R : Z,
    0 <= X /\
    X * (Z.pos my * 2 ^ (ey + bias)) <= Z.pos mx * 2 ^ (ex + bias) * 2 ^ bias /\
    rounding false X R /\
    represents (xorb sx sy) R
      (div (S754_finite sx mx ex) (S754_finite sy my ey)).
Proof.
  intros Hx Hy.
  pose proof (bounded_range _ _ Hx) as [Rx Dx].
  pose proof (bounded_range _ _ Hy) as [Ry Dy].
  pose proof bias_eq as HB.
  unfold div, SFdiv, SFdiv_core_binary.
  set (e' := Z.min (fexp prec emax (Zdigits2 (Z.pos mx) + ex -
                                     (Zdigits2 (Z.pos my) + ey))) (ex - ey)).
  set (s := ex - ey - e').
  assert (Hs : 0 <= s) by (unfold s, e'; lia).
  assert (He' : -2045 <= e').
  { unfold e'. rewrite fexp_eq. lia. }
  set (m' := match s with
             | 0 => Z.pos mx
             | Z.pos _ => Z.shiftl (Z.pos mx) s
             | Z.neg _ => 0
             end).
  assert (Hm' : m' = Z.pos mx * 2 ^ s).
  { unfold m'. clearbody s. destruct s as [ | p | p]; try lia.
    now rewrite Z.shiftl_mul_pow2 by lia. }
  assert (Pm' : 0 < m').
  { rewrite Hm'. pose proof (pow2_pos s Hs). nia. }
  destruct (Z.div_eucl m' (Z.pos my)) as [q r] eqn:E.
  assert (Hq : q = m' / Z.pos my) by (unfold Z.div; now rewrite E).
  assert (Hq0 : 0 <= q) by (subst q; apply Z.div_pos; lia).
  assert (Hpre : e' <= fexp prec emax (Zdigits2 q + e')).
  { pose proof (quotient_digits m' (Z.pos my) Pm' ltac:(lia)) as Hd.
    rewrite <- Hq in Hd. rewrite Hm', digits_mul_pow2 in Hd by lia.
    apply Z.le_trans with
      (fexp prec emax (Zdigits2 (Z.pos mx) + ex - (Zdigits2 (Z.pos my) + ey))).
    - unfold e'. lia.
    - apply fexp_le. unfold s in Hd. lia. }
  destruct (binary_round_aux_value (xorb sx sy) q e'
              (new_location (Z.pos my) r) Hq0 ltac:(lia) Hpre)
    as [R [H1 H2]].
  exists (q * 2 ^ (e' + bias)), R.
  assert (Pe : 0 < 2 ^ (e' + bias)) by (apply pow2_pos; lia).
  split; [nia | ]. split.
  - assert (Hqm : q * Z.pos my <= m').
    { subst q. rewrite Z.mul_comm. apply Z.mul_div_le. lia. }
    assert (Ee : 2 ^ (e' + bias) * 2 ^ (ey + bias) * 2 ^ s =
                 2 ^ (ex + bias) * 2 ^ bias).
    { rewrite <- !pow2_split by lia. f_equal. unfold s. lia. }
    pose proof (pow2_pos (ey + bias) ltac:(lia)) as Py.
    replace (Z.pos mx * 2 ^ (ex + bias) * 2 ^ bias)
      with (Z.pos mx * 2 ^ s * (2 ^ (e' + bias) * 2 ^ (ey + bias)))
      by (rewrite <- (Z.mul_assoc (Z.pos mx) (2 ^ (ex + bias))), <- Ee; ring).
    rewrite <- Hm'.
    replace (q * 2 ^ (e' + bias) * (Z.pos my * 2 ^ (ey + bias)))
      with (q * Z.pos my * (2 ^ (e' + bias) * 2 ^ (ey + bias))) by ring.
    apply Z.mul_le_mono_nonneg_r; trivial.
    apply Z.lt_le_incl, Z.mul_pos_pos; trivial.
  - split; trivial.
    destruct H1 as [H1 _]. split; [exact H1 | discriminate].
Qed.

Lemma div_regular (x y : number) :
  regular x -> regular y -> 2 * 2 ^ bias <= Z.abs (val y) ->
  regular (div x y).
Proof.
  intros Hx Hy Hy2. pose proof bias_eq as HB.
  pose proof (pow2_pos bias ltac:(lia)) as Pb.
  destruct y as [sy | sy | | sy my ey]; try (now elim Hy).
  destruct x as [sx | sx | | sx mx ex]; try (now elim Hx).
  pose proof (val_bound _ Hx) as Bx.
  pose proof (bounded_range _ _ Hx) as [Rx _].
  pose proof (bounded_range _ _ Hy) as [Ry _].
  pose proof (val_finite_pos sx mx ex ltac:(lia)) as Px.
  pose proof (val_finite_pos sy my ey ltac:(lia)) as Py.
  assert (Ex : Z.abs (val (S754_finite sx mx ex)) = Z.pos mx * 2 ^ (ex + bias))
    by (destruct sx; cbn [val cond_Zopp]; lia).
  assert (Ey : Z.abs (val (S754_finite sy my ey)) = Z.pos my * 2 ^ (ey + bias))
    by (destruct sy; cbn [val cond_Zopp]; lia).
  rewrite Ex in Bx. rewrite Ey in Hy2.
  destruct (div_spec sx sy mx my ex ey Hx Hy) as [X [R [H0 [Hle [H1 H2]]]]].
  set (vx := Z.pos mx * 2 ^ (ex + bias)) in *.
  set (vy := Z.pos my * 2 ^ (ey + bias)) in *.
  assert (HX : 0 <= X < 2 ^ (1023 + bias)).
  { split; trivial.
    assert (E : 2 ^ (emax + bias) = 2 * 2 ^ (1023 + bias)).
    { change (emax + bias) with (1 + (1023 + bias)).
      now rewrite (pow2_split 1 (1023 + bias)) by lia. }
    assert (X * (2 * 2 ^ bias) <= X * vy)
      by (apply Z.mul_le_mono_nonneg_l; lia).
    clearbody vx vy. clear - E H Hle Bx Pb H0. nia. }
  assert (Hk : exists k, 2 ^ (1023 + bias) = k * ulp X).
  { rewrite ulp_eq.
    pose proof (digits_lt_pow2 X (1023 + bias) ltac:(lia) HX) as Hd.
    set (a := Z.max (Zdigits2 X - bias - 53) (-1074)).
    exists (2 ^ (1023 - a)).
    rewrite <- pow2_split by lia. f_equal. lia. }
  destruct Hk as [k Hk].
  pose proof (rounding_le_strict false X R _ k H1 HX Hk) as HR.
  assert (Hlt : R < 2 ^ (emax + bias)).
  { assert (2 ^ (1023 + bias) < 2 ^ (emax + bias))
      by (apply Z.pow_lt_mono_r; change emax with 1024; lia).
    lia. }
  now destruct (represents_regular _ _ _ H2 Hlt) as [A _].
Qed.

(** *** Ranges *)

Lemma of_Z_within (z : Z) :
  0 <= z <= 2 ^ 53 -> within (z * one) (of_Z z) /\ val (of_Z z) = z * one.
Proof.
  intros Hz. destruct (of_Z_small z ltac:(lia)) as [A [B C]].
  unfold within, one. rewrite B, C.
  repeat split; trivial; [apply Z.ltb_ge; lia | lia].
Qed.

Lemma one_pos : 0 < one.
Proof. unfold one. apply pow2_pos. now compute. Qed.

Lemma within_regular (B : Z) (x : number) : within B x -> regular x.
Proof. now intros [H _]. Qed.

Lemma within_val (B : Z) (x : number) : within B x -> 0 <= val x <= B.
Proof.
  intros [H1 [H2 H3]]. split; trivial.
  rewrite (val_abs x H1), H2. cbn [cond_Zopp]. lia.
Qed.

(** [1 - a] stays in [[0, 1]]. *)
Lemma complement_within (a : number) :
  within one a -> within one (sub (of_Z 1) a).
Proof.
  intros Ha. pose proof (within_val _ _ Ha) as Va.
  destruct Ha as [Ra [Sa _]].
  destruct (of_Z_within 1 ltac:(now compute)) as [[R1 [S1 _]] V1].
  rewrite Z.mul_1_l in V1.
  destruct (sub_spec (of_Z 1) a R1 Ra) as [R [H1 H2]].
  rewrite V1, S1, Sa in *. cbn [andb negb] in H2.
  rewrite Z.abs_eq in H1 by lia.
  assert (HX : 0 <= one - val a <= Z.abs (val (of_Z 1)))
    by (rewrite V1; pose proof one_pos; lia).
  destruct (rounded_below _ _ _ _ (of_Z 1) H1 H2 R1 HX) as [C1 [C2 [C3 C4]]].
  rewrite V1 in C4.
  assert (Hs : sum_sign (one - val a) false = false).
  { unfold sum_sign. destruct (Z.eqb_spec (one - val a) 0); trivial.
    apply Z.ltb_ge. lia. }
  rewrite Hs in *. repeat split; trivial.
  rewrite C3. cbn [cond_Zopp]. pose proof one_pos. lia.
Qed.

(** The fractional part [y - floor y] is in [[0, 1]]. *)
Lemma fraction_within (y : number) :
  regular y -> within one (sub y (Math_floor y)).
Proof.
  intros Hy. destruct (floor_spec y Hy) as [Rf [Sf Vf]].
  destruct (of_Z_within 1 ltac:(now compute)) as [[R1 _] V1].
  rewrite Z.mul_1_l in V1.
  destruct (sub_spec y (Math_floor y) Hy Rf) as [R [H1 H2]].
  rewrite Sf, Vf in *. fold one in *.
  pose proof one_pos as P1.
  pose proof (Z.div_mod (val y) one ltac:(lia)) as Hdm.
  pose proof (Z.mod_pos_bound (val y) one P1) as Hm.
  assert (E : val y - val y / one * one = val y mod one) by lia.
  rewrite E in *. rewrite Z.abs_eq in H1 by lia.
  assert (HX : 0 <= val y mod one <= Z.abs (val (of_Z 1)))
    by (rewrite V1; lia).
  destruct (rounded_below _ _ _ _ (of_Z 1) H1 H2 R1 HX) as [C1 [C2 [C3 C4]]].
  rewrite V1 in C4.
  assert (Hs : sum_sign (val y mod one) (sign_bit y && negb (sign_bit y)) =
               false).
  { unfold sum_sign. destruct (Z.eqb_spec (val y mod one) 0).
    - now destruct (sign_bit y).
    - apply Z.ltb_ge. lia. }
  rewrite Hs in *. repeat split; trivial.
  rewrite C3. cbn [cond_Zopp]. lia.
Qed.

(** A product of two numbers of [[0, 1]] is in [[0, 1]]. *)
Lemma product_within (a b : number) :
  within one a -> within one b -> within one (mul a b).
Proof.
  intros Ha Hb.
  destruct (of_Z_within 1 ltac:(now compute)) as [[R1 _] V1].
  rewrite Z.mul_1_l in V1.
  assert (H : within (val (of_Z 1)) (mul a b)).
  { apply (mul_within a b one one (of_Z 1)); trivial.
    rewrite V1. unfold one. lia. }
  now rewrite V1 in H.
Qed.

(** A number of [[0, 1]] scaled by 255 and floored is an integer of
    [[0, 255]]. *)
Lemma scaled_byte (c : number) :
  within one c -> Spec.is_byte (Math_floor (mul c (of_Z 255))).
Proof.
  intros Hc.
  destruct (of_Z_within 255 ltac:(now compute)) as [H255 V255].
  pose proof (within_regular _ _ H255) as R255.
  assert (Hp : within (val (of_Z 255)) (mul c (of_Z 255))).
  { apply (mul_within c (of_Z 255) one (255 * one) (of_Z 255)); trivial.
    rewrite V255. unfold one. lia. }
  rewrite V255 in Hp. pose proof (within_val _ _ Hp) as Vp.
  destruct Hp as [Rp [Sp _]].
  destruct (floor_spec _ Rp) as [Rf [Sf Vf]]. fold one in Vf.
  set (p := mul c (of_Z 255)) in *.
  pose proof one_pos as P1.
  assert (Hz : 0 <= val p / one <= 255).
  { split; [apply Z.div_pos; lia | ].
    apply Z.div_le_upper_bound; lia. }
  exists (val p / one). split; trivial.
  destruct (of_Z_small (val p / one)) as [A [B C]].
  { change (2 ^ 53) with 9007199254740992. lia. }
  fold one in C. apply val_inj; trivial.
  - rewrite Sf, Sp, B. symmetry. apply Z.ltb_ge. lia.
  - now rewrite Vf, C.
Qed.

(** *** Clamping *)

Lemma min_step_infinity (x : number) :
  isNaN x = false -> min_step Infinity x = x.
Proof. now destruct x as [[] | [] | | [] m e]. Qed.

Lemma max_step_zero : max_step negInfinity zero = zero.
Proof. reflexivity. Qed.

Lemma clamp01_cases (x : number) :
  isNaN x = false ->
  Color.clamp01 x =
  if ltb (of_Z 1) x then of_Z 1 else if ltb zero x then x else zero.
Proof.
  intros Hx. unfold Color.clamp01, Math_max, Math_min.
  cbn [existsb fold_left]. rewrite Hx.
  change (isNaN (of_Z 1)) with false. cbn [orb].
  rewrite (min_step_infinity x Hx).
  assert (E : min_step x (of_Z 1) = if ltb (of_Z 1) x then of_Z 1 else x).
  { unfold min_step. now change (is_negzero (of_Z 1)) with false. }
  rewrite E, max_step_zero.
  change (isNaN zero) with false. cbn [orb].
  destruct (ltb (of_Z 1) x) eqn:L.
  - reflexivity.
  - rewrite Hx. unfold max_step, gtb. change (is_negzero zero) with false.
    rewrite andb_false_r. reflexivity.
Qed.

Lemma clamp01_within (x : number) :
  wellformed x -> within one (Color.clamp01 x).
Proof.
  intros [Hv Hn]. rewrite (clamp01_cases x Hn).
  destruct (of_Z_within 1 ltac:(now compute)) as [H1 V1].
  rewrite Z.mul_1_l in *.
  destruct (ltb (of_Z 1) x) eqn:L1; trivial.
  destruct (ltb zero x) eqn:L0.
  - destruct x as [sx | [] | | [] m e]; try discriminate.
    assert (Rx : regular (S754_finite false m e)) by exact Hv.
    rewrite ltb_val in L1 by (trivial; apply (within_regular _ _ H1)).
    rewrite V1 in L1. apply Z.ltb_ge in L1.
    repeat split; trivial.
  - repeat split. change (val zero) with 0. pose proof one_pos. lia.
Qed.

(** *** The hue *)

Lemma hue_spec (hsv : Color.HSVObject) :
  regular (Color.h hsv) ->
  regular (Color.hue hsv) /\ 0 <= val (Color.hue hsv) <= 360 * one /\
  Spec.reduced_hue (Color.h hsv) (Color.hue hsv).
Proof.
  intros Hh. unfold Spec.reduced_hue, Color.hue. cbn zeta.
  destruct (of_Z_within 360 ltac:(now compute)) as [H360 V360].
  pose proof (within_regular _ _ H360) as R360.
  pose proof one_pos as P1.
  destruct (rem_spec (Color.h hsv) (of_Z 360) Hh R360 ltac:(lia))
    as [Rr [Sr Vr]].
  set (h0 := rem (Color.h hsv) (of_Z 360)) in *.
  rewrite V360 in Vr. rewrite <- Vr.
  assert (Hb : Z.abs (val h0) < 360 * one).
  { rewrite Vr. pose proof (Z.rem_bound_abs (val (Color.h hsv)) (360 * one)
      ltac:(lia)). lia. }
  rewrite ltb_val by (trivial; exact I). change (val zero) with 0.
  destruct (Z.ltb_spec (val h0) 0) as [Hneg | Hpos].
  - destruct (add_spec h0 (of_Z 360) Rr R360) as [R [H1 H2]].
    rewrite V360 in *.
    rewrite Z.abs_eq in H1 by lia.
    assert (HX : 0 <= val h0 + 360 * one <= Z.abs (val (of_Z 360)))
      by (rewrite V360; lia).
    destruct (rounded_below _ _ _ _ (of_Z 360) H1 H2 R360 HX)
      as [C1 [C2 [C3 C4]]].
    rewrite V360 in C4. split; trivial.
    assert (Hs : sum_sign (val h0 + 360 * one)
                   (sign_bit h0 && sign_bit (of_Z 360)) = false).
    { unfold sum_sign. destruct (Z.eqb_spec (val h0 + 360 * one) 0); [lia | ].
      apply Z.ltb_ge. lia. }
    rewrite C3, Hs. cbn [cond_Zopp]. split; [lia | trivial].
  - split; trivial. split; [lia | trivial].
Qed.

(** *** [Cast.isWhiteSpace] *)

Lemma length_zero_iff_empty (str : string) :
  Nat.eqb (String.length str) 0 = true <-> str = EmptyString.
Proof. destruct str; simpl; split; congruence. Qed.

Lemma trimEnd_nonempty (c : ascii) (str : string) :
  isWhiteSpaceChar c = false -> trimEnd (String c str) <> EmptyString.
Proof.
  intros Hc. cbn [trimEnd]. destruct (trimEnd str); [ | discriminate].
  rewrite Hc. discriminate.
Qed.

(** The strings that trim to the empty string are those made of white
    space only. *)
Lemma blank_all_white_space (str : string) :
  Spec.blank str <-> Spec.all_white_space str = true.
Proof.
  unfold Spec.blank, trim. induction str as [ | c str IH].
  - simpl. tauto.
  - cbn [trimStart Spec.all_white_space].
    destruct (isWhiteSpaceChar c) eqn:Hc; cbn [andb]; trivial.
    split; [ | discriminate].
    intros H. now apply trimEnd_nonempty in H.
Qed.

(** C9, as stated, fails: [undefined] is absent, and yet not white space. *)
Lemma isWhiteSpace_undefined : Cast.isWhiteSpace VUndefined = false.
Proof. reflexivity. Qed.

(** C9, amended: [isWhiteSpace] is true exactly for [null] and for the
    strings that trim to the empty string; it is false for every other
    value, [undefined] included. *)
Theorem isWhiteSpace_spec (val : value) :
  Cast.isWhiteSpace val = true <->
  (val = VNull \/ exists str, val = VString str /\ Spec.blank str).
Proof.
  unfold Spec.blank. destruct val as [ | | bl | n | str]; simpl.
  - split; [discriminate | intros [H | [str [H _]]]; discriminate].
  - split; [now left | trivial].
  - split; [discriminate | intros [H | [str [H _]]]; discriminate].
  - split; [discriminate | intros [H | [str [H _]]]; discriminate].
  - rewrite length_zero_iff_empty. split.
    + intros H. right. now exists str.
    + intros [H | [str' [H1 H2]]]; [discriminate | congruence].
Qed.

(** *** [Cast.compare] *)

Lemma string_order_code (s1 s2 : string) :
  (if String.ltb s1 s2 then of_Z (-1)
   else if String.ltb s2 s1 then of_Z 1 else zero) = Spec.string_order s1 s2.
Proof.
  unfold String.ltb, Spec.string_order.
  rewrite (String.compare_antisym s1 s2).
  now destruct (String.compare s2 s1).
Qed.

Lemma compare_eq_spec (v1 v2 : value) :
  Cast.compare v1 v2 = Spec.compare v1 v2.
Proof.
  unfold Cast.compare, Spec.compare, Spec.comparand.
  rewrite <- string_order_code.
  generalize (toLowerCase (ToString v1)) (toLowerCase (ToString v2)).
  intros s1 s2.
  destruct (ToNumber v1) as [[]|[]| |[] m1 e1],
           (ToNumber v2) as [[]|[]| |[] m2 e2],
           (Cast.isWhiteSpace v1), (Cast.isWhiteSpace v2); reflexivity.
Qed.

(** C1: [compare] falls back to the case-insensitive string order (-1, 0 or
    1) when a side is NaN after the white-space adjustment, answers 0 for
    like-signed infinities, and the difference [n1 - n2] otherwise; in
    particular [compare("", 0)] is not 0 and [compare(Infinity, Infinity)]
    is 0. *)
Theorem compare_semantics :
  (forall v1 v2 : value, Cast.compare v1 v2 = Spec.compare v1 v2) /\
  eqb (Cast.compare (VString "") (VNumber zero)) zero = false /\
  Cast.compare (VNumber Infinity) (VNumber Infinity) = zero.
Proof.
  split; [exact compare_eq_spec | split; reflexivity].
Qed.

Lemma string_order_antisym (s1 s2 : string) :
  Spec.sign_of (Spec.string_order s1 s2) =
  Spec.sign_opp (Spec.sign_of (Spec.string_order s2 s1)).
Proof.
  unfold Spec.string_order. rewrite (String.compare_antisym s1 s2).
  now destruct (String.compare s2 s1).
Qed.

Lemma string_order_not_nan (s1 s2 : string) :
  isNaN (Spec.string_order s1 s2) = false.
Proof. unfold Spec.string_order. now destruct (String.compare s1 s2). Qed.

Lemma like_signed_infinities_sym (x y : number) :
  Spec.like_signed_infinities x y = Spec.like_signed_infinities y x.
Proof. now destruct x as [[]|[]| |[] ? ?], y as [[]|[]| |[] ? ?]. Qed.

Lemma sign_defined_iff (x : number) :
  Spec.sign_of x <> Spec.SignOfNaN <-> isNaN x = false.
Proof.
  destruct x as [sx|sx| |sx m e]; simpl; try (destruct sx);
    split; congruence.
Qed.

(** C10: [compare] is sign-antisymmetric, and its result always has a sign
    (it is never NaN), although the white-space adjustment rewrites one side
    only. *)
Theorem compare_sign_antisymmetric (v1 v2 : value) :
  Spec.sign_of (Cast.compare v1 v2) =
    Spec.sign_opp (Spec.sign_of (Cast.compare v2 v1)) /\
  Spec.sign_of (Cast.compare v1 v2) <> Spec.SignOfNaN.
Proof.
  rewrite !compare_eq_spec, sign_defined_iff. unfold Spec.compare.
  rewrite (orb_comm (isNaN (Spec.comparand v2))).
  rewrite (like_signed_infinities_sym (Spec.comparand v2)).
  destruct (isNaN (Spec.comparand v1)) eqn:N1; simpl.
  { split; [apply string_order_antisym | apply string_order_not_nan]. }
  destruct (isNaN (Spec.comparand v2)) eqn:N2; simpl.
  { split; [apply string_order_antisym | apply string_order_not_nan]. }
  destruct (Spec.like_signed_infinities _ _) eqn:L.
  { now split. }
  split; [apply sub_antisym_sign | now apply sub_not_nan].
Qed.

(** *** [Color.hexToDecimal] *)

Lemma hexToDecimal_null (hex : string) :
  Color.hexToRgb_string hex = None ->
  Color.hexToDecimal (VString hex) = Throw TypeError.
Proof. unfold Color.hexToDecimal. simpl. now intros ->. Qed.

(** C2 fails at a malformed hex string: [hexToRgb] answers [null], and
    [hexToDecimal] passes it to [rgbToDecimal], which throws. *)
Theorem hexToDecimal_malformed_throws :
  Color.hexToRgb (VString "zzz") = Normal None /\
  Color.hexToDecimal (VString "zzz") = Throw TypeError.
Proof. split; reflexivity. Qed.

(** *** [Cast.isInt] *)

Lemma contains_char_existsb (c : ascii) (str : string) :
  contains_char c str = existsb (Ascii.eqb c) (list_ascii_of_string str).
Proof.
  induction str as [ | c' str IH]; simpl; trivial.
  now rewrite IH, (Ascii.eqb_sym c' c).
Qed.

(** Away from the numbers other than NaN, [isInt] is what C4 says. *)
Lemma isInt_not_number (val : value) :
  (forall n, val = VNumber n -> isNaN n = true) ->
  Cast.isInt val = Spec.isInt val.
Proof.
  destruct val as [ | | bl | n | str]; simpl; trivial.
  - intros H. now rewrite (H n eq_refl).
  - intros _. now rewrite contains_char_existsb.
Qed.

Lemma isInt_examples :
  Cast.isInt (VString "1.0") = false /\
  Cast.isInt (VString "1e5") = true /\
  Cast.isInt (VBoolean true) = true /\
  Cast.isInt (VNumber NaN) = true /\
  Cast.isInt (VNumber (of_decimal false 25 (-1))) = false /\
  Cast.isInt (VNumber (of_Z 2)) = true.
Proof. repeat split; vm_compute; reflexivity. Qed.

(** C4 fails at the number 1e21: it equals its own truncation, and [isInt]
    answers false, because [parseInt] reads the text ["1e+21"] of the number
    and stops at the letter. *)
Theorem isInt_1e21 :
  let x := of_decimal false 1 21 in
  x = of_Z (10 ^ 21) /\
  Spec.isInt (VNumber x) = true /\
  NumberToString x = "1e+21" /\
  parseInt "1e+21" 10 = of_Z 1 /\
  Cast.isInt (VNumber x) = false.
Proof. repeat split; vm_compute; reflexivity. Qed.

(** *** [Color.hexToRgb] *)

Lemma same_number_eq (x y : number) : Spec.same_number x y = true -> x = y.
Proof.
  destruct x as [sx|sx| |sx mx ex], y as [sy|sy| |sy my ey]; simpl;
    try discriminate; trivial.
  - intros H. now apply eqb_prop in H; subst.
  - intros H. now apply eqb_prop in H; subst.
  - rewrite !andb_true_iff. intros [[H1 H2] H3].
    apply eqb_prop in H1. apply Pos.eqb_eq in H2. apply Z.eqb_eq in H3.
    now subst.
Qed.

Lemma isHexDigit_hex_digit (c : ascii) : Color.isHexDigit c = Spec.hex_digit c.
Proof.
  destruct c as [b0 b1 b2 b3 b4 b5 b6 b7].
  destruct b0, b1, b2, b3, b4, b5, b6, b7; reflexivity.
Qed.

Lemma strip_hash_cons (c : ascii) (str : string) :
  Color.strip_hash (String c str) =
  if Ascii.eqb c "#" then str else String c str.
Proof.
  destruct c as [b0 b1 b2 b3 b4 b5 b6 b7].
  destruct b0, b1, b2, b3, b4, b5, b6, b7; reflexivity.
Qed.

Lemma hex_digit_not_hash (c : ascii) :
  Spec.hex_digit c = true -> Ascii.eqb c "#" = false.
Proof.
  destruct c as [b0 b1 b2 b3 b4 b5 b6 b7].
  destruct b0, b1, b2, b3, b4, b5, b6, b7; trivial; discriminate.
Qed.

Lemma hex_digit_In (c : ascii) :
  Spec.hex_digit c = true ->
  In c (list_ascii_of_string "0123456789abcdefABCDEF").
Proof.
  unfold Spec.hex_digit. rewrite existsb_exists.
  intros [c' [Hin Heq]]. apply Ascii.eqb_eq in Heq. now subst.
Qed.

Lemma parseInt_hex_pair (c1 c2 : ascii) :
  Spec.hex_digit c1 = true -> Spec.hex_digit c2 = true ->
  parseInt (String c1 (String c2 EmptyString)) 16 = Spec.channel c1 c2.
Proof.
  intros H1 H2. apply hex_digit_In in H1. apply hex_digit_In in H2.
  apply same_number_eq.
  assert (H : forallb (fun d1 => forallb (fun d2 =>
                Spec.same_number
                  (parseInt (String d1 (String d2 EmptyString)) 16)
                  (Spec.channel d1 d2))
                (list_ascii_of_string "0123456789abcdefABCDEF"))
              (list_ascii_of_string "0123456789abcdefABCDEF") = true)
    by (vm_compute; reflexivity).
  rewrite forallb_forall in H. specialize (H c1 H1).
  rewrite forallb_forall in H. exact (H c2 H2).
Qed.

Ltac hex_simpl :=
  cbn -[Color.strip_hash parseInt Spec.channel Spec.hex_digit
        Color.isHexDigit].

Lemma hexToRgb_string_eq_spec (hex : string) :
  Color.hexToRgb_string hex = Spec.hexToRgb hex.
Proof.
  unfold Color.hexToRgb_string, Color.shorthandRegex, Spec.hexToRgb.
  change (match hex with String "#" rest => rest | _ => hex end)
    with (Color.strip_hash hex).
  destruct (Color.strip_hash hex)
    as [ | c1 [ | c2 [ | c3 [ | c4 [ | c5 [ | c6 [ | c7 rest]]]]]]] eqn:B;
    unfold Color.fullRegex; try rewrite B; hex_simpl;
    rewrite ?isHexDigit_hex_digit; trivial.
  - now destruct (Spec.hex_digit c1).
  - now destruct (Spec.hex_digit c1), (Spec.hex_digit c2).
  - destruct (Spec.hex_digit c1) eqn:H1, (Spec.hex_digit c2) eqn:H2,
      (Spec.hex_digit c3) eqn:H3; hex_simpl; try (now rewrite B).
    rewrite strip_hash_cons, (hex_digit_not_hash c1 H1).
    rewrite !isHexDigit_hex_digit, H1, H2, H3. hex_simpl.
    now rewrite !parseInt_hex_pair.
  - now destruct (Spec.hex_digit c1), (Spec.hex_digit c2),
      (Spec.hex_digit c3), (Spec.hex_digit c4).
  - now destruct (Spec.hex_digit c1), (Spec.hex_digit c2),
      (Spec.hex_digit c3), (Spec.hex_digit c4), (Spec.hex_digit c5).
  - destruct (Spec.hex_digit c1) eqn:H1, (Spec.hex_digit c2) eqn:H2,
      (Spec.hex_digit c3) eqn:H3, (Spec.hex_digit c4) eqn:H4,
      (Spec.hex_digit c5) eqn:H5, (Spec.hex_digit c6) eqn:H6;
      hex_simpl; trivial.
    now rewrite !parseInt_hex_pair.
  - now destruct (Spec.hex_digit c1), (Spec.hex_digit c2),
      (Spec.hex_digit c3), (Spec.hex_digit c4), (Spec.hex_digit c5),
      (Spec.hex_digit c6), (Spec.hex_digit c7),
      (forallb Spec.hex_digit (list_ascii_of_string rest)).
Qed.

(** C8: on a string, [hexToRgb] answers the colour of the three (doubled) or
    six hexadecimal digits that follow an optional [#], in either case, and
    [null] for every other string. *)
Theorem hexToRgb_spec (hex : string) :
  Color.hexToRgb (VString hex) = Normal (Spec.hexToRgb hex).
Proof. simpl. now rewrite hexToRgb_string_eq_spec. Qed.

Lemma hexToRgb_examples :
  Color.hexToRgb (VString "#03F") = Color.hexToRgb (VString "0033ff") /\
  Color.hexToRgb (VString "#03F") =
    Normal (Some (Color.mkRGB zero (of_Z 51) (of_Z 255) None)) /\
  Color.hexToRgb (VString "03F ") = Normal None /\
  Color.hexToRgb (VString "#0033FF0") = Normal None /\
  Color.hexToRgb (VString "") = Normal None.
Proof. repeat split; vm_compute; reflexivity. Qed.

(** *** [Cast.toListIndex] *)

Lemma compare_cont_Eq_antisym (p q : positive) :
  Pos.compare_cont Eq q p = CompOpp (Pos.compare_cont Eq p q).
Proof. exact (eq_sym (Pos.compare_cont_antisym p q Eq)). Qed.

Lemma SFcompare_antisym (x y : number) :
  SFcompare y x = option_map CompOpp (SFcompare x y).
Proof.
  destruct x as [[] | [] | | [] mx ex], y as [[] | [] | | [] my ey];
    try reflexivity; cbn [SFcompare option_map]; f_equal;
    rewrite (Z.compare_antisym ex ey), (compare_cont_Eq_antisym mx my);
    destruct (ex ?= ey); cbn [CompOpp]; trivial;
    now destruct (Pos.compare_cont Eq mx my).
Qed.

Lemma ltb_negb_leb (x y : number) :
  isNaN x = false -> isNaN y = false -> ltb x y = negb (leb y x).
Proof.
  intros Hx Hy. unfold ltb, leb, SFltb, SFleb.
  rewrite (SFcompare_antisym x y).
  destruct x as [sx | sx | | sx mx ex]; try discriminate;
    destruct y as [sy | sy | | sy my ey]; try discriminate;
    cbn [option_map];
    match goal with
    | |- context [SFcompare ?a ?b] =>
        destruct (SFcompare a b) as [[ | | ] | ] eqn:E; trivial
    end; destruct sx, sy; discriminate.
Qed.

Lemma toNumber_not_nan (v : value) : isNaN (Cast.toNumber v) = false.
Proof.
  unfold Cast.toNumber.
  destruct v as [ | | bl | n | str]; try reflexivity.
  - now destruct bl.
  - now destruct (isNaN n) eqn:E.
  - now destruct (isNaN (ToNumber (VString str))) eqn:E.
Qed.

Lemma Math_floor_not_nan (x : number) :
  isNaN x = false -> isNaN (Math_floor x) = false.
Proof.
  destruct x as [sx | sx | | sx m e]; trivial. intros _.
  unfold Math_floor. destruct (0 <=? e); trivial.
  match goal with |- isNaN ?r = false =>
    pose proof (binary_normalize_not_nan
      (cond_Zopp sx (Z.pos m) / 2 ^ (- e)) 0 false) as H;
    destruct r; trivial; now elim H
  end.
Qed.

Lemma of_Z_not_nan (z : Z) : isNaN (of_Z z) = false.
Proof.
  pose proof (binary_normalize_not_nan z 0 false) as H.
  unfold of_Z. now destruct (binary_normalize prec emax z 0 false).
Qed.

Lemma ltb_zero_of_Z (n : Z) :
  0 <= n <= 2 ^ 53 -> ltb zero (of_Z n) = (0 <? n).
Proof.
  intros Hn. destruct (of_Z_small n ltac:(lia)) as [H1 [_ H3]].
  rewrite ltb_val, H3; trivial; [ | exact I].
  change (val zero) with 0. pose proof bias_eq.
  pose proof (pow2_pos bias ltac:(lia)).
  destruct (Z.ltb_spec 0 (n * 2 ^ bias)), (Z.ltb_spec 0 n); trivial; nia.
Qed.

Lemma ltb_zero_of_Z_nonneg (n : Z) :
  0 <= n -> ltb zero (of_Z n) = (0 <? n).
Proof.
  intros Hn. pose proof bias_eq as HB.
  destruct (Z.eq_dec n 0) as [-> | H0]; [reflexivity | ].
  destruct (Z.ltb_spec 0 n) as [Hp | Hp]; [ | lia].
  destruct (binary_normalize_value n 0 false ltac:(lia)) as [R [HR Rp]].
  change (binary_normalize prec emax n 0 false) with (of_Z n) in Rp.
  rewrite Z.abs_eq, Z.add_0_l in HR by lia.
  replace (if n =? 0 then false else n <? 0) with false in Rp
    by (destruct (Z.eqb_spec n 0); [trivial | symmetry; apply Z.ltb_ge; lia]).
  pose proof (pow2_pos (bias - 1074) ltac:(lia)) as Pl.
  pose proof (pow2_pos 1074 ltac:(lia)) as Pm.
  assert (HR0 : 0 < R).
  { apply (rounding_pos (n * 2 ^ bias) R (n * 2 ^ 1074) HR).
    - pose proof (pow2_pos bias ltac:(lia)). nia.
    - replace bias with (1074 + (bias - 1074)) at 1 by lia.
      rewrite (pow2_split 1074 (bias - 1074)) by lia. ring. }
  destruct Rp as [[Rr [_ Vr]] | [-> _]]; [ | reflexivity].
  rewrite ltb_val by (trivial; exact I). rewrite Vr.
  change (val zero) with 0. cbn [cond_Zopp]. now apply Z.ltb_lt.
Qed.

Lemma toNumber_coerced (v : value) : Cast.toNumber v = Spec.coerced v.
Proof. destruct v as [ | | bl | n | str]; reflexivity. Qed.

Lemma numeric_index_code (index : value) (n : Z) :
  (let k := Math_floor (Cast.toNumber index) in
   if ltb k (of_Z 1) || gtb k (of_Z n) then Cast.LIST_INVALID
   else VNumber k) = Spec.numeric_index index n.
Proof.
  cbn zeta. unfold Spec.numeric_index, gtb.
  rewrite <- toNumber_coerced.
  pose proof (Math_floor_not_nan _ (toNumber_not_nan index)) as Hk.
  rewrite !ltb_negb_leb; trivial; try apply of_Z_not_nan.
  rewrite <- negb_andb.
  now destruct (leb (of_Z 1) _ && leb _ (of_Z n)).
Qed.

Lemma toListIndex_eq_spec (index : value) (n : Z) (acceptAll : bool)
    (random : number) :
  0 <= n ->
  Spec.keyword index "random" = false -> Spec.keyword index "any" = false ->
  Cast.toListIndex index (of_Z n) acceptAll random =
  Spec.toListIndex index n acceptAll.
Proof.
  intros Hn Hr Ha. unfold Cast.toListIndex, Spec.toListIndex.
  destruct index as [ | | bl | x | str];
    try (cbn [Cast.is_string Spec.keyword orb]; apply numeric_index_code).
  cbn [Cast.is_string Spec.keyword] in *. rewrite Hr, Ha. cbn [orb].
  destruct (String.eqb str "all"); trivial.
  destruct (String.eqb str "last").
  - unfold gtb. now rewrite ltb_zero_of_Z_nonneg.
  - apply numeric_index_code.
Qed.

(** C3: for every length that is a non-negative integer, ["all"] gives
    [ALL] when accepted and [INVALID] otherwise; ["last"] gives the length
    when it is positive and [INVALID] otherwise; a value that is not a
    keyword, a numeric string or a fraction included, is coerced to a number,
    floored, and returned when it lies in [[1, length]], [INVALID] being
    returned otherwise; so 3.9 gives 3 and 0 gives [INVALID] in a list of 5
    items, the texts ["2"] and [" 3.9 "] give 2 and 3, and the texts ["6"]
    and ["two"] give [INVALID]. *)
Theorem toListIndex_spec :
  (forall (index : value) (n : Z) (acceptAll : bool) (random : number),
     0 <= n ->
     Spec.keyword index "random" = false ->
     Spec.keyword index "any" = false ->
     Cast.toListIndex index (of_Z n) acceptAll random =
     Spec.toListIndex index n acceptAll) /\
  (forall random : number,
     Cast.toListIndex (VNumber (of_decimal false 39 (-1))) (of_Z 5) false
       random = VNumber (of_Z 3)) /\
  (forall random : number,
     Cast.toListIndex (VNumber zero) (of_Z 5) false random =
     Cast.LIST_INVALID) /\
  (forall random : number,
     Cast.toListIndex (VString "2") (of_Z 5) false random =
     VNumber (of_Z 2)) /\
  (forall random : number,
     Cast.toListIndex (VString " 3.9 ") (of_Z 5) false random =
     VNumber (of_Z 3)) /\
  (forall random : number,
     Cast.toListIndex (VString "6") (of_Z 5) false random =
     Cast.LIST_INVALID) /\
  (forall random : number,
     Cast.toListIndex (VString "two") (of_Z 5) false random =
     Cast.LIST_INVALID).
Proof.
  split; [exact toListIndex_eq_spec | ].
  repeat split; intros random; vm_compute; reflexivity.
Qed.

Lemma toListIndex_spec_witness :
  Cast.toListIndex (VString "last") (of_Z 5) true zero =
  Spec.toListIndex (VString "last") 5 true.
Proof.
  apply (proj1 toListIndex_spec (VString "last") 5 true zero);
    [lia | reflexivity | reflexivity].
Defined.

Lemma toListIndex_examples :
  Cast.toListIndex (VString "last") (of_Z 5) false zero = VNumber (of_Z 5) /\
  Cast.toListIndex (VString "last") (of_Z 0) false zero = Cast.LIST_INVALID /\
  Cast.toListIndex (VString "all") (of_Z 5) true zero = Cast.LIST_ALL /\
  Cast.toListIndex (VString "all") (of_Z 5) false zero = Cast.LIST_INVALID /\
  Cast.toListIndex (VString " 2 ") (of_Z 5) false zero = VNumber (of_Z 2) /\
  Cast.toListIndex (VNumber (of_Z 6)) (of_Z 5) false zero = Cast.LIST_INVALID.
Proof. repeat split; vm_compute; reflexivity. Qed.

(** *** [Color.rgbToDecimal] and [Color.decimalToRgb] *)

(** C5: packing the components of an RGB colour into a decimal and unpacking
    the decimal gives the components back, for integers in [[0, 255]]. *)
Theorem decimal_roundtrip (r g b : Z) (alpha : option number) :
  0 <= r <= 255 -> 0 <= g <= 255 -> 0 <= b <= 255 ->
  exists decimal : number,
    Color.rgbToDecimal
      (Some (Color.mkRGB (of_Z r) (of_Z g) (of_Z b) alpha)) =
      Normal decimal /\
    decimal = of_Z (r * 65536 + g * 256 + b) /\
    Color.r (Color.decimalToRgb decimal) = of_Z r /\
    Color.g (Color.decimalToRgb decimal) = of_Z g /\
    Color.b (Color.decimalToRgb decimal) = of_Z b.
Proof.
  intros Hr Hg Hb.
  exists (of_Z (r * 65536 + g * 256 + b)).
  assert (Hd : - 2 ^ 31 <= r * 65536 + g * 256 + b < 2 ^ 31)
    by (change (2 ^ 31) with 2147483648; lia).
  split; [ | split; [reflexivity | ]].
  - cbn [Color.rgbToDecimal Color.r Color.g Color.b].
    rewrite (shl_of_Z r 16), (shl_of_Z g 8)
      by (change (2 ^ 31) with 2147483648;
          change (2 ^ 16) with 65536; change (2 ^ 8) with 256; lia).
    change (2 ^ 16) with 65536. change (2 ^ 8) with 256.
    rewrite !add_of_Z
      by (change (2 ^ 53) with 9007199254740992; lia).
    reflexivity.
  - unfold Color.decimalToRgb. cbn [Color.r Color.g Color.b].
    rewrite !band_255, !sar_of_Z, !ToInt32_of_Z; trivial; try lia.
    + change (2 ^ 16) with 65536. change (2 ^ 8) with 256.
      repeat split; f_equal; Z.div_mod_to_equations; lia.
    + change (2 ^ 31) with 2147483648. change (2 ^ 8) with 256.
      Z.div_mod_to_equations; lia.
    + change (2 ^ 31) with 2147483648. change (2 ^ 16) with 65536.
      Z.div_mod_to_equations; lia.
Qed.

Lemma decimal_roundtrip_witness :
  exists decimal : number,
    Color.rgbToDecimal
      (Some (Color.mkRGB (of_Z 18) (of_Z 52) (of_Z 86) None)) =
      Normal decimal /\
    decimal = of_Z (18 * 65536 + 52 * 256 + 86) /\
    Color.r (Color.decimalToRgb decimal) = of_Z 18 /\
    Color.g (Color.decimalToRgb decimal) = of_Z 52 /\
    Color.b (Color.decimalToRgb decimal) = of_Z 86.
Proof. apply (decimal_roundtrip 18 52 86 None); lia. Defined.

(** *** [Color.hsvToRgb] *)

Lemma floor_eqb (y : number) (k : Z) :
  regular y -> 0 <= k <= 2 ^ 53 ->
  eqb (Math_floor y) (of_Z k) = (truncate (Math_floor y) =? k).
Proof.
  intros Hy Hk. destruct (floor_spec y Hy) as [Rf [_ Vf]].
  destruct (of_Z_within k Hk) as [Hw Vk].
  pose proof one_pos as P1. fold one in Vf.
  rewrite eqb_val, truncate_val, Vf, Vk; trivial;
    [ | apply (within_regular _ _ Hw)].
  fold one. rewrite Z.quot_mul by lia.
  destruct (Z.eqb_spec (val y / one * one) (k * one)),
           (Z.eqb_spec (val y / one) k); trivial; nia.
Qed.

Lemma sector_channels_code (sector : Z) (v t p q : number) :
  (if sector =? 1 then (q, v, p)
   else if sector =? 2 then (p, v, t)
   else if sector =? 3 then (p, q, v)
   else if sector =? 4 then (t, p, v)
   else if sector =? 5 then (v, p, q)
   else (v, t, p)) = Spec.sector_channels sector v t p q.
Proof.
  destruct sector as [ | n | n]; trivial.
  destruct n as [[[n | n | ] | [n | n | ] | ] | [[n | n | ] | [n | n | ] | ] | ];
    reflexivity.
Qed.

Lemma hue_eq_spec (hsv : Color.HSVObject) :
  Color.hue hsv = Spec.hue (Color.h hsv).
Proof. reflexivity. Qed.

Lemma clamp01_eq_spec (x : number) :
  isNaN x = false -> Color.clamp01 x = Spec.clamp01 x.
Proof. exact (clamp01_cases x). Qed.

Lemma hsvToRgb_eq_spec (hsv : Color.HSVObject) :
  regular (Color.h hsv) ->
  isNaN (Color.s hsv) = false -> isNaN (Color.v hsv) = false ->
  Color.hsvToRgb hsv = Spec.hsvToRgb hsv.
Proof.
  intros Hh Hs Hv. destruct (hue_spec hsv Hh) as [Rh _].
  unfold Spec.hsvToRgb.
  rewrite <- (hue_eq_spec hsv), <- (clamp01_eq_spec _ Hs),
    <- (clamp01_eq_spec _ Hv).
  destruct (of_Z_within 60 ltac:(now compute)) as [H60 V60].
  assert (Ry : regular (div (Color.hue hsv) (of_Z 60))).
  { apply div_regular; trivial; [apply (within_regular _ _ H60) | ].
    rewrite V60. unfold one. pose proof (pow2_pos bias ltac:(now compute)).
    lia. }
  unfold Color.hsvToRgb. cbn zeta.
  rewrite !(floor_eqb _ _ Ry) by (now compute).
  now rewrite sector_channels_code.
Qed.

Lemma hsv_channels_within (hsv : Color.HSVObject) :
  regular (Color.h hsv) -> wellformed (Color.s hsv) ->
  wellformed (Color.v hsv) ->
  let h := Color.hue hsv in
  let s := Color.clamp01 (Color.s hsv) in
  let v := Color.clamp01 (Color.v hsv) in
  let f := sub (div h (of_Z 60)) (Math_floor (div h (of_Z 60))) in
  within one v /\
  within one (mul v (sub (of_Z 1) (mul s (sub (of_Z 1) f)))) /\
  within one (mul v (sub (of_Z 1) s)) /\
  within one (mul v (sub (of_Z 1) (mul s f))).
Proof.
  intros Hh Hs Hv h s v f.
  destruct (hue_spec hsv Hh) as [Rh _].
  destruct (of_Z_within 60 ltac:(now compute)) as [H60 V60].
  assert (Ry : regular (div h (of_Z 60))).
  { apply div_regular; trivial; [apply (within_regular _ _ H60) | ].
    rewrite V60. unfold one. pose proof (pow2_pos bias ltac:(now compute)).
    lia. }
  pose proof (fraction_within _ Ry) as Wf. fold f in Wf.
  pose proof (clamp01_within _ Hs) as Ws. fold s in Ws.
  pose proof (clamp01_within _ Hv) as Wv. fold v in Wv.
  split; [assumption | ].
  split; [ | split];
    repeat first [ apply product_within | apply complement_within
                 | assumption ].
Qed.

Lemma hsvToRgb_bytes (hsv : Color.HSVObject) :
  regular (Color.h hsv) -> wellformed (Color.s hsv) ->
  wellformed (Color.v hsv) ->
  Spec.byte_components (Color.hsvToRgb hsv).
Proof.
  intros Hh Hs Hv.
  rewrite (hsvToRgb_eq_spec hsv Hh (proj2 Hs) (proj2 Hv)).
  destruct (hsv_channels_within hsv Hh Hs Hv) as [Wv [Wt [Wp Wq]]].
  unfold Spec.hsvToRgb.
  rewrite <- (hue_eq_spec hsv), <- (clamp01_eq_spec _ (proj2 Hs)),
    <- (clamp01_eq_spec _ (proj2 Hv)).
  cbn zeta.
  set (sector := truncate _).
  unfold Spec.byte_components.
  destruct sector as [ | n | n];
    [ | destruct n as [[[n | n | ] | [n | n | ] | ]
                      | [[n | n | ] | [n | n | ] | ] | ] | ];
    cbn [Spec.sector_channels Color.r Color.g Color.b];
    (split; [ | split]); now apply scaled_byte.
Qed.

(** C6, as stated, fails: the hue of -1e-20 is reduced to 360, which is
    not below 360, because the sum [-1e-20 + 360] rounds to 360. *)
Lemma hue_of_tiny_negative :
  let hsv := Color.mkHSV (of_decimal true 1 (-20)) (of_Z 1) (of_Z 1) in
  Color.hue hsv = of_Z 360 /\ ltb (Color.hue hsv) (of_Z 360) = false.
Proof. split; vm_compute; reflexivity. Qed.

(** C6, amended: for a finite hue and a saturation and a value that are
    numbers, [hsvToRgb] reduces the hue into [[0, 360]] (the remainder
    modulo 360, plus 360 when it is negative), clamps the saturation and the
    value into [[0, 1]] (1 for a number above 1, 0 for a number that is not
    above 0, the number itself otherwise), takes the channel permutation of
    the sector [floor (h / 60)], the first permutation serving every index
    outside 1 to 5, and returns each channel scaled by 255 and floored; the
    two examples hold. *)
Theorem hsvToRgb_spec :
  (forall hsv : Color.HSVObject,
     regular (Color.h hsv) -> wellformed (Color.s hsv) ->
     wellformed (Color.v hsv) ->
     Spec.reduced_hue (Color.h hsv) (Spec.hue (Color.h hsv)) /\
     leb zero (Spec.hue (Color.h hsv)) = true /\
     leb (Spec.hue (Color.h hsv)) (of_Z 360) = true /\
     within one (Spec.clamp01 (Color.s hsv)) /\
     within one (Spec.clamp01 (Color.v hsv)) /\
     Color.hsvToRgb hsv = Spec.hsvToRgb hsv) /\
  Color.hsvToRgb (Color.mkHSV zero zero (of_Z 1)) =
    Color.mkRGB (of_Z 255) (of_Z 255) (of_Z 255) None /\
  Color.hsvToRgb (Color.mkHSV zero (of_Z 1) (of_Z 1)) =
    Color.mkRGB (of_Z 255) zero zero None.
Proof.
  split; [ | split; vm_compute; reflexivity].
  intros hsv Hh Hs Hv.
  destruct (hue_spec hsv Hh) as [Rh [Vh Hr]].
  rewrite (hue_eq_spec hsv) in Rh, Vh, Hr.
  destruct (of_Z_within 360 ltac:(now compute)) as [H360 V360].
  split; [exact Hr | ].
  rewrite !leb_val, V360; trivial;
    try exact I; try apply (within_regular _ _ H360).
  change (val zero) with 0.
  split; [apply Z.leb_le; lia | ].
  split; [apply Z.leb_le; lia | ].
  rewrite <- (clamp01_eq_spec _ (proj2 Hs)), <- (clamp01_eq_spec _ (proj2 Hv)).
  split; [now apply clamp01_within | ].
  split; [now apply clamp01_within | ].
  apply hsvToRgb_eq_spec; [trivial | apply Hs | apply Hv].
Qed.

Lemma hsvToRgb_spec_witness :
  let hsv := Color.mkHSV (of_Z 200) (of_decimal false 5 (-1))
               (of_decimal false 7 (-1)) in
  Spec.reduced_hue (Color.h hsv) (Spec.hue (Color.h hsv)) /\
  leb zero (Spec.hue (Color.h hsv)) = true /\
  leb (Spec.hue (Color.h hsv)) (of_Z 360) = true /\
  within one (Spec.clamp01 (Color.s hsv)) /\
  within one (Spec.clamp01 (Color.v hsv)) /\
  Color.hsvToRgb hsv = Spec.hsvToRgb hsv.
Proof.
  apply (proj1 hsvToRgb_spec
           (Color.mkHSV (of_Z 200) (of_decimal false 5 (-1))
              (of_decimal false 7 (-1))));
    [reflexivity | split; reflexivity | split; reflexivity].
Defined.

(** *** The components of an RGB colour *)

Lemma is_byte_mod (z : Z) : Spec.is_byte (of_Z (z mod 256)).
Proof.
  exists (z mod 256). split; trivial.
  pose proof (Z.mod_pos_bound z 256 ltac:(lia)). lia.
Qed.

Lemma decimalToRgb_bytes (decimal : number) :
  Spec.byte_components (Color.decimalToRgb decimal).
Proof.
  unfold Spec.byte_components, Color.decimalToRgb.
  cbn [Color.r Color.g Color.b]. rewrite !band_255.
  split; [ | split]; apply is_byte_mod.
Qed.

Lemma hex_value_range (c : ascii) :
  Spec.hex_digit c = true -> 0 <= Spec.hex_value c <= 15.
Proof.
  intros H. apply hex_digit_In in H. simpl in H.
  repeat (destruct H as [<- | H]; [vm_compute; split; discriminate | ]).
  contradiction.
Qed.

Lemma channel_byte (c1 c2 : ascii) :
  Spec.hex_digit c1 = true -> Spec.hex_digit c2 = true ->
  Spec.is_byte (Spec.channel c1 c2).
Proof.
  intros H1 H2. pose proof (hex_value_range c1 H1).
  pose proof (hex_value_range c2 H2).
  exists (16 * Spec.hex_value c1 + Spec.hex_value c2). split; trivial. lia.
Qed.

Lemma hexToRgb_bytes (hex : string) (rgb : Color.RGBObject) :
  Color.hexToRgb (VString hex) = Normal (Some rgb) ->
  Spec.byte_components rgb.
Proof.
  cbn [Color.hexToRgb]. rewrite hexToRgb_string_eq_spec.
  unfold Spec.hexToRgb.
  set (body := match hex with String "#" rest => rest | _ => hex end).
  destruct (forallb Spec.hex_digit (list_ascii_of_string body)) eqn:F;
    [ | discriminate].
  destruct (list_ascii_of_string body)
    as [ | c1 [ | c2 [ | c3 [ | c4 [ | c5 [ | c6 [ | c7 rest]]]]]]];
    try discriminate;
    cbn [forallb] in F; rewrite !andb_true_iff in F.
  - destruct F as [F1 [F2 [F3 _]]]. intros E. injection E as <-.
    split; [ | split]; now apply channel_byte.
  - destruct F as [F1 [F2 [F3 [F4 [F5 [F6 _]]]]]]. intros E.
    injection E as <-.
    split; [ | split]; now apply channel_byte.
Qed.

Lemma mixRgb_outside (rgb0 rgb1 : Color.RGBObject) (fraction1 : number) :
  leb fraction1 zero = true \/ geb fraction1 (of_Z 1) = true ->
  Color.mixRgb rgb0 rgb1 fraction1 = rgb0 \/
  Color.mixRgb rgb0 rgb1 fraction1 = rgb1.
Proof.
  unfold Color.mixRgb. intros H.
  destruct (leb fraction1 zero) eqn:L; [now left | ].
  destruct H as [H | H]; [discriminate | ].
  right. now rewrite H.
Qed.

Lemma not_byte_127_5 : ~ Spec.is_byte (of_decimal false 1275 (-1)).
Proof.
  intros [z [Hz E]].
  assert (Ht : truncate (of_decimal false 1275 (-1)) = z).
  { rewrite E. apply truncate_of_Z.
    change (2 ^ 53) with 9007199254740992. lia. }
  vm_compute in Ht. subst z. vm_compute in E. discriminate.
Qed.

Lemma mixRgb_inside (rgb0 rgb1 : Color.RGBObject) (fraction1 : number) :
  ltb zero fraction1 = true -> ltb fraction1 (of_Z 1) = true ->
  Color.mixRgb rgb0 rgb1 fraction1 =
  Color.mkRGB
    (Spec.weighted fraction1 (Color.r rgb0) (Color.r rgb1))
    (Spec.weighted fraction1 (Color.g rgb0) (Color.g rgb1))
    (Spec.weighted fraction1 (Color.b rgb0) (Color.b rgb1))
    None.
Proof.
  intros H0 H1.
  assert (Hn : isNaN fraction1 = false) by (now destruct fraction1).
  unfold Color.mixRgb.
  change (geb fraction1 (of_Z 1)) with (leb (of_Z 1) fraction1).
  rewrite (ltb_negb_leb zero fraction1) in H0 by trivial.
  rewrite (ltb_negb_leb fraction1 (of_Z 1)) in H1 by trivial.
  apply negb_true_iff in H0, H1. now rewrite H0, H1.
Qed.

Lemma not_byte_NaN : ~ Spec.is_byte NaN.
Proof.
  intros [z [_ E]]. pose proof (of_Z_not_nan z) as H.
  rewrite <- E in H. discriminate.
Qed.

(** C7, as stated, fails: mixing black and white half and half gives the
    components 127.5, which are not integers; and [hsvToRgb] gives the
    component NaN for an infinite hue and for a saturation or a value that
    is NaN. *)
Lemma components_not_bytes :
  (Spec.byte_components Color.RGB_BLACK /\
   Spec.byte_components Color.RGB_WHITE /\
   Color.r (Color.mixRgb Color.RGB_BLACK Color.RGB_WHITE
              (of_decimal false 5 (-1))) = of_decimal false 1275 (-1) /\
   ~ Spec.byte_components
       (Color.mixRgb Color.RGB_BLACK Color.RGB_WHITE
          (of_decimal false 5 (-1)))) /\
  (Color.g (Color.hsvToRgb (Color.mkHSV Infinity (of_Z 1) (of_Z 1))) = NaN /\
   ~ Spec.byte_components
       (Color.hsvToRgb (Color.mkHSV Infinity (of_Z 1) (of_Z 1)))) /\
  (Color.g (Color.hsvToRgb (Color.mkHSV zero NaN (of_Z 1))) = NaN /\
   ~ Spec.byte_components
       (Color.hsvToRgb (Color.mkHSV zero NaN (of_Z 1)))) /\
  (Color.r (Color.hsvToRgb (Color.mkHSV zero (of_Z 1) NaN)) = NaN /\
   ~ Spec.byte_components
       (Color.hsvToRgb (Color.mkHSV zero (of_Z 1) NaN))).
Proof.
  split; [ | split; [ | split]].
  - split; [ | split; [ | split]].
    + split; [ | split]; exists 0; split; trivial; lia.
    + split; [ | split]; exists 255; split; trivial; lia.
    + vm_compute. reflexivity.
    + intros [H _].
      change (Color.r (Color.mixRgb Color.RGB_BLACK Color.RGB_WHITE
                         (of_decimal false 5 (-1))))
        with (of_decimal false 1275 (-1)) in H.
      exact (not_byte_127_5 H).
  - assert (E : Color.g (Color.hsvToRgb
                           (Color.mkHSV Infinity (of_Z 1) (of_Z 1))) = NaN)
      by (vm_compute; reflexivity).
    split; [exact E | ]. intros [_ [H _]]. rewrite E in H.
    exact (not_byte_NaN H).
  - assert (E : Color.g (Color.hsvToRgb
                           (Color.mkHSV zero NaN (of_Z 1))) = NaN)
      by (vm_compute; reflexivity).
    split; [exact E | ]. intros [_ [H _]]. rewrite E in H.
    exact (not_byte_NaN H).
  - assert (E : Color.r (Color.hsvToRgb
                           (Color.mkHSV zero (of_Z 1) NaN)) = NaN)
      by (vm_compute; reflexivity).
    split; [exact E | ]. intros [H _]. rewrite E in H.
    exact (not_byte_NaN H).
Qed.

(** C7, amended: the components of the colour are integers in [[0, 255]]
    for [decimalToRgb], for [hexToRgb] when it is not null, for [hsvToRgb]
    on a finite hue and a saturation and a value that are numbers, and for
    [mixRgb] on such colours when the fraction is at most 0 or at least 1;
    for a fraction between 0 and 1, [mixRgb] returns the weighted averages
    of the components as they are, not rounded: 125 for the components 100
    and 200 and the fraction 0.25. *)
Theorem rgb_components_bytes :
  (forall decimal : number,
     Spec.byte_components (Color.decimalToRgb decimal)) /\
  (forall (hex : string) (rgb : Color.RGBObject),
     Color.hexToRgb (VString hex) = Normal (Some rgb) ->
     Spec.byte_components rgb) /\
  (forall hsv : Color.HSVObject,
     regular (Color.h hsv) -> wellformed (Color.s hsv) ->
     wellformed (Color.v hsv) ->
     Spec.byte_components (Color.hsvToRgb hsv)) /\
  (forall (rgb0 rgb1 : Color.RGBObject) (fraction1 : number),
     Spec.byte_components rgb0 -> Spec.byte_components rgb1 ->
     leb fraction1 zero = true \/ geb fraction1 (of_Z 1) = true ->
     Spec.byte_components (Color.mixRgb rgb0 rgb1 fraction1)) /\
  (forall (rgb0 rgb1 : Color.RGBObject) (fraction1 : number),
     ltb zero fraction1 = true -> ltb fraction1 (of_Z 1) = true ->
     Color.mixRgb rgb0 rgb1 fraction1 =
     Color.mkRGB
       (Spec.weighted fraction1 (Color.r rgb0) (Color.r rgb1))
       (Spec.weighted fraction1 (Color.g rgb0) (Color.g rgb1))
       (Spec.weighted fraction1 (Color.b rgb0) (Color.b rgb1))
       None) /\
  Color.mixRgb (Color.mkRGB (of_Z 100) (of_Z 100) (of_Z 100) None)
    (Color.mkRGB (of_Z 200) (of_Z 200) (of_Z 200) None)
    (of_decimal false 25 (-2)) =
  Color.mkRGB (of_Z 125) (of_Z 125) (of_Z 125) None.
Proof.
  split; [exact decimalToRgb_bytes | ].
  split; [exact hexToRgb_bytes | ].
  split; [exact hsvToRgb_bytes | ].
  split; [ | split; [exact mixRgb_inside | vm_compute; reflexivity]].
  intros rgb0 rgb1 fraction1 H0 H1 Hf.
  now destruct (mixRgb_outside rgb0 rgb1 fraction1 Hf) as [-> | ->].
Qed.

Lemma rgb_components_bytes_witness :
  Spec.byte_components
    (Color.hsvToRgb (Color.mkHSV (of_Z 200) (of_decimal false 5 (-1))
                       (of_decimal false 7 (-1)))) /\
  Spec.byte_components
    (Color.mixRgb Color.RGB_BLACK Color.RGB_WHITE (of_Z 2)) /\
  Color.mixRgb Color.RGB_BLACK Color.RGB_WHITE (of_decimal false 25 (-2)) =
  Color.mkRGB
    (Spec.weighted (of_decimal false 25 (-2)) zero (of_Z 255))
    (Spec.weighted (of_decimal false 25 (-2)) zero (of_Z 255))
    (Spec.weighted (of_decimal false 25 (-2)) zero (of_Z 255))
    None.
Proof.
  split; [ | split].
  - apply (proj1 (proj2 (proj2 rgb_components_bytes)));
      [reflexivity | split; reflexivity | split; reflexivity].
  - apply (proj1 (proj2 (proj2 (proj2 rgb_components_bytes)))).
    + split; [ | split]; exists 0; split; trivial; lia.
    + split; [ | split]; exists 255; split; trivial; lia.
    + right. reflexivity.
  - apply (proj1 (proj2 (proj2 (proj2 (proj2 rgb_components_bytes))))
             Color.RGB_BLACK Color.RGB_WHITE (of_decimal false 25 (-2)));
      reflexivity.
Defined.

(** ** Further properties

    Properties of the code beyond the claims: of the methods of [Color] and
    [Cast] the claims leave out, of the block [charCodeAt], and of [uid] and
    [xmlEscape]. *)

Import Notions.

(** *** Rounding to nearest *)

(** The round bit and the sticky bit after [k] shifts tell where the
    remainder lies with respect to the half of [2 ^ k]. *)
Lemma shr_iter_bits (k : nat) (m : Z) :
  0 <= m ->
  let mrs := Nat.iter k shr_1 (Build_shr_record m false false) in
  let rho := m mod 2 ^ Z.of_nat k in
  shr_m mrs = m / 2 ^ Z.of_nat k /\
  (shr_r mrs = true <-> 2 ^ Z.of_nat k <= 2 * rho) /\
  (shr_s mrs = true <-> rho <> 0 /\ 2 * rho <> 2 ^ Z.of_nat k).
Proof.
  intros Hm. induction k as [ | k IH].
  - simpl. rewrite Z.div_1_r, Z.mod_1_r.
    split; [trivial | ]. split; split; try discriminate; lia.
  - cbn zeta in *. rewrite Nat.iter_succ.
    destruct (Nat.iter k shr_1 _) as [mk rk sk]. cbn [shr_m shr_r shr_s] in IH.
    destruct IH as [IH1 [IH2 IH3]].
    assert (Hp : 0 < 2 ^ Z.of_nat k) by (apply Z.pow_pos_nonneg; lia).
    assert (Hk : 0 <= mk) by (subst mk; apply Z.div_pos; lia).
    rewrite shr_1_spec by trivial. cbn [shr_m shr_r shr_s].
    rewrite Nat2Z.inj_succ, Z.pow_succ_r by lia.
    set (h := 2 ^ Z.of_nat k) in *.
    assert (Hdm : m = h * mk + m mod h).
    { subst mk. apply Z.div_mod. lia. }
    pose proof (Z.mod_pos_bound m h Hp) as Hb.
    assert (Hmk : mk = 2 * (mk / 2) + mk mod 2) by (apply Z.div_mod; lia).
    pose proof (Z.mod_pos_bound mk 2 ltac:(lia)) as Hb2.
    assert (Hrho : m mod (2 * h) = (mk mod 2) * h + m mod h).
    { symmetry. apply Z.mod_unique_pos with (q := mk / 2); [nia | ].
      rewrite Hdm at 1. rewrite Hmk at 1. ring. }
    assert (Hq : m / (2 * h) = mk / 2).
    { symmetry. apply Z.div_unique_pos with (r := (mk mod 2) * h + m mod h);
        [nia | ].
      rewrite Hdm at 1. rewrite Hmk at 1. ring. }
    rewrite Hrho, Hq. split; [trivial | ].
    rewrite Zodd_mod. split.
    + destruct (Z.eqb_spec (mk mod 2) 1) as [E | E].
      * rewrite E. split; trivial. intros _. lia.
      * assert (E0 : mk mod 2 = 0) by lia. rewrite E0.
        split; [discriminate | ]. intros H. lia.
    + rewrite orb_true_iff, IH2, IH3.
      destruct (Z.eq_dec (mk mod 2) 0) as [E | E]; [rewrite E | ].
      * split; [ | lia]. intros [H | H]; lia.
      * assert (E1 : mk mod 2 = 1) by lia. rewrite E1.
        split; [ | lia]. intros [H | H]; lia.
Qed.

Lemma shr_bits (m e n : Z) :
  0 <= m -> 0 <= n ->
  let res := shr (Build_shr_record m false false) e n in
  let rho := m mod 2 ^ n in
  snd res = e + n /\
  shr_m (fst res) = m / 2 ^ n /\
  (shr_r (fst res) = true <-> 2 ^ n <= 2 * rho) /\
  (shr_s (fst res) = true <-> rho <> 0 /\ 2 * rho <> 2 ^ n).
Proof.
  intros Hm Hn. destruct n as [ | p | p]; try lia; simpl.
  - rewrite Z.div_1_r, Z.mod_1_r.
    split; [lia | ]. split; [trivial | ].
    split; split; try discriminate; lia.
  - rewrite iter_pos_nat.
    pose proof (shr_iter_bits (Pos.to_nat p) m Hm) as H.
    cbn zeta in H. rewrite positive_nat_Z in H.
    change (Z.pow_pos 2 p) with (2 ^ Z.pos p). tauto.
Qed.

(** Rounding the shifted mantissa: the nearest multiple, the even one on a
    tie. *)
Lemma shr_round_nearest (m e n : Z) :
  0 <= m -> 0 <= n ->
  let mrs := fst (shr (Build_shr_record m false false) e n) in
  let rnd := round_nearest_even (shr_m mrs) (loc_of_shr_record mrs) in
  2 * Z.abs (rnd * 2 ^ n - m) <= 2 ^ n /\
  (2 * Z.abs (rnd * 2 ^ n - m) = 2 ^ n -> Z.even rnd = true).
Proof.
  intros Hm Hn.
  pose proof (shr_bits m e n Hm Hn) as H. cbn zeta in *.
  destruct (shr (Build_shr_record m false false) e n) as [[q r s] e'].
  cbn [fst snd shr_m shr_r shr_s] in *.
  destruct H as [_ [Hq [Hr Hs]]].
  assert (Hp : 0 < 2 ^ n) by (apply Z.pow_pos_nonneg; lia).
  assert (Hdm : m = 2 ^ n * q + m mod 2 ^ n).
  { subst q. apply Z.div_mod. lia. }
  pose proof (Z.mod_pos_bound m (2 ^ n) Hp) as Hb.
  set (h := 2 ^ n) in *. set (rho := m mod h) in *.
  destruct r, s; cbn [loc_of_shr_record round_nearest_even].
  - assert (h <= 2 * rho) by now apply Hr.
    assert (rho <> 0 /\ 2 * rho <> h) by now apply Hs.
    split; [ | intros E]; lia.
  - assert (h <= 2 * rho) by now apply Hr.
    assert (E : ~ (rho <> 0 /\ 2 * rho <> h)).
    { intros C. apply Hs in C. discriminate. }
    assert (2 * rho = h) by lia.
    destruct (Z.even q) eqn:Ev.
    + split; [lia | trivial].
    + split; [lia | ]. intros _.
      rewrite Z.even_add, Ev. reflexivity.
  - assert (E : ~ h <= 2 * rho).
    { intros C. apply Hr in C. discriminate. }
    split; [ | intros E']; lia.
  - assert (E : ~ h <= 2 * rho).
    { intros C. apply Hr in C. discriminate. }
    assert (E' : ~ (rho <> 0 /\ 2 * rho <> h)).
    { intros C. apply Hs in C. discriminate. }
    split; [ | intros E'']; lia.
Qed.

Lemma binary_round_aux_nearest (sx : bool) (mx ex : Z) :
  0 <= mx -> ex <= fexp prec emax (Zdigits2 mx + ex) ->
  let e1 := fexp prec emax (Zdigits2 mx + ex) in
  let q := mx / 2 ^ (e1 - ex) in
  exists m2 e2 : Z,
    binary_round_aux prec emax sx mx ex loc_Exact =
      match m2 with
      | Z0 => S754_zero sx
      | Zpos p =>
          if e2 <=? emax - prec then S754_finite sx p e2
          else S754_infinity sx
      | Zneg _ => S754_nan
      end /\
    0 <= m2 /\ e1 <= e2 /\
    (0 < m2 -> fexp prec emax (Zdigits2 m2 + e2) = e2) /\
    q <= m2 * 2 ^ (e2 - e1) <= q + 1 /\
    (mx mod 2 ^ (e1 - ex) = 0 -> m2 * 2 ^ (e2 - e1) = q) /\
    2 * Z.abs (m2 * 2 ^ (e2 - e1) * 2 ^ (e1 - ex) - mx) <= 2 ^ (e1 - ex) /\
    (2 * Z.abs (m2 * 2 ^ (e2 - e1) * 2 ^ (e1 - ex) - mx) = 2 ^ (e1 - ex) ->
     Z.even (m2 * 2 ^ (e2 - e1)) = true).
Proof.
  intros Hmx Hex e1 q.
  assert (He1 : -1074 <= e1) by (subst e1; rewrite fexp_eq; lia).
  assert (Hn : 0 <= e1 - ex) by lia.
  assert (Hpow : 0 < 2 ^ (e1 - ex)) by (apply Z.pow_pos_nonneg; lia).
  assert (Hq : 0 <= q) by (apply Z.div_pos; lia).
  unfold binary_round_aux, shr_fexp. fold e1.
  rewrite shr_record_exact.
  pose proof (shr_correct mx ex (e1 - ex) Hmx Hn) as S1.
  pose proof (shr_round_nearest mx ex (e1 - ex) Hmx Hn) as N1.
  cbn zeta in S1, N1.
  destruct (shr (Build_shr_record mx false false) ex (e1 - ex)) as [mrs' e'].
  cbn [fst snd] in S1, N1. destruct S1 as [Se [Sm X1]].
  assert (He' : e' = e1) by lia. clear Se. subst e'. fold q in Sm.
  pose proof (round_nearest_even_range mrs') as R. cbn zeta in R.
  set (rnd := round_nearest_even (shr_m mrs') (loc_of_shr_record mrs')) in *.
  rewrite Sm in R. destruct R as [Rr Rx]. destruct N1 as [N1 N2].
  assert (Hcan : 0 < q -> fexp prec emax (Zdigits2 q + e1) = e1).
  { intros Hq0. unfold q. rewrite digits_div_pow2; trivial.
    - now replace (Zdigits2 mx - (e1 - ex) + e1) with (Zdigits2 mx + ex) by lia.
    - destruct (Z.le_gt_cases (2 ^ (e1 - ex)) mx) as [Hle | Hgt]; trivial.
      unfold q in Hq0. rewrite Z.div_small in Hq0; lia. }
  assert (Hzero : q = 0 -> e1 = -1074).
  { intros Hq0.
    assert (Hlt : mx < 2 ^ (e1 - ex)).
    { destruct (Z.le_gt_cases (2 ^ (e1 - ex)) mx) as [Hle | Hgt]; [ | lia].
      assert (0 < q) by (apply Z.div_str_pos; lia). lia. }
    pose proof (digits_lt_pow2 mx (e1 - ex) Hn (conj Hmx Hlt)) as Hd.
    unfold e1 in *. rewrite fexp_eq in *. lia. }
  destruct (Z.eq_dec rnd 0) as [Hr0 | Hr0].
  - rewrite Hr0, shr_record_exact. simpl Zdigits2.
    assert (Hn2 : fexp prec emax (0 + e1) - e1 <= 0) by (rewrite fexp_eq; lia).
    assert (Hs : shr (Build_shr_record 0 false false) e1
                   (fexp prec emax (0 + e1) - e1) =
                 (Build_shr_record 0 false false, e1)).
    { destruct (fexp prec emax (0 + e1) - e1) as [ | p | p]; trivial; lia. }
    rewrite Hs. exists 0, e1. cbn [shr_m fst snd round_nearest_even
      loc_of_shr_record shr_r shr_s].
    replace (e1 - e1) with 0 by lia. rewrite Hr0 in *.
    change (0 * 2 ^ 0) with 0.
    split; [reflexivity | ]. split; [lia | ]. split; [lia | ].
    split; [intros; lia | ]. split; [lia | ].
    split; [intros; lia | ]. split; [exact N1 | ].
    intros _. reflexivity.
  - pose proof (renormalise q rnd e1 Hq Rr ltac:(lia) He1 Hcan Hzero) as N.
    cbn zeta in N. rewrite shr_record_exact.
    destruct N as [[Hn2 Hd] | [Hn2 Hp]].
    + rewrite Hn2. simpl shr. exists rnd, e1. cbn [shr_m fst snd].
      replace (e1 - e1) with 0 by lia. rewrite Z.mul_1_r.
      split; [reflexivity | ]. split; [lia | ]. split; [lia | ].
      split; [intros _; lia | ]. split; [lia | ].
      split; [ | split; trivial].
      intros Hmod. destruct (X1 Hmod) as [H1 H2]. now apply Rx.
    + rewrite Hn2, Hp. exists (2 ^ 52), (e1 + 1).
      replace (e1 + 1 - e1) with 1 by lia.
      assert (E53 : 2 ^ 52 * 2 ^ 1 = rnd) by (rewrite Hp; reflexivity).
      rewrite E53.
      split; [reflexivity | ]. split; [simpl; lia | ]. split; [lia | ].
      split; [intros _; rewrite fexp_eq; simpl Zdigits2; lia | ].
      split; [lia | ].
      split; [ | split; trivial].
      intros Hmod. destruct (X1 Hmod) as [H1 H2]. now apply Rx.
Qed.

Lemma binary_round_aux_nearest_value (sx : bool) (mx ex : Z) :
  0 <= mx -> - bias <= ex -> ex <= fexp prec emax (Zdigits2 mx + ex) ->
  exists R : Z,
    nearest (mx * 2 ^ (ex + bias)) R /\
    represents sx R (binary_round_aux prec emax sx mx ex loc_Exact).
Proof.
  intros Hmx Hb Hex.
  destruct (binary_round_aux_nearest sx mx ex Hmx Hex)
    as [m2 [e2 [Hres [Hm2 [He2 [Hcan [Hq [Hexact [Hn1 Hn2]]]]]]]]].
  set (e1 := fexp prec emax (Zdigits2 mx + ex)) in *.
  assert (He1 : -1074 <= e1) by (unfold e1; rewrite fexp_eq; lia).
  pose proof bias_eq as HB.
  set (X := mx * 2 ^ (ex + bias)).
  assert (HU : ulp X = 2 ^ (e1 + bias)).
  { destruct (Z.eq_dec mx 0) as [-> | Hn].
    - unfold X. rewrite Z.mul_0_l. unfold ulp, e1 in *.
      simpl Zdigits2 in *. rewrite !fexp_eq in *. f_equal. lia.
    - unfold X. now rewrite ulp_of_scaled by lia. }
  assert (Hsplit : 2 ^ (e1 + bias) = 2 ^ (e1 - ex) * 2 ^ (ex + bias)).
  { rewrite <- pow2_split by lia. f_equal. lia. }
  assert (Hp1 : 0 < 2 ^ (e1 - ex)) by (apply pow2_pos; lia).
  assert (Hp2 : 0 < 2 ^ (ex + bias)) by (apply pow2_pos; lia).
  assert (Hdiv : X / ulp X = mx / 2 ^ (e1 - ex)).
  { rewrite HU, Hsplit. unfold X. apply Z.div_mul_cancel_r; lia. }
  assert (Hmod : X mod ulp X = (mx mod 2 ^ (e1 - ex)) * 2 ^ (ex + bias)).
  { rewrite HU, Hsplit. unfold X. apply Z.mul_mod_distr_r; lia. }
  assert (HR : m2 * 2 ^ (e2 + bias) = m2 * 2 ^ (e2 - e1) * ulp X).
  { rewrite HU, <- Z.mul_assoc, <- pow2_split by lia. do 2 f_equal. lia. }
  set (rnd := m2 * 2 ^ (e2 - e1)) in *.
  assert (HD : m2 * 2 ^ (e2 + bias) - X =
               (rnd * 2 ^ (e1 - ex) - mx) * 2 ^ (ex + bias)).
  { rewrite HR, HU, Hsplit. unfold X. ring. }
  exists (m2 * 2 ^ (e2 + bias)). split.
  - split; [ | split; [ | split]].
    + split.
      * rewrite HR, Hdiv. pose proof (ulp_pos X). nia.
      * intros _ Hm. rewrite Hmod in Hm.
        assert (Hm' : mx mod 2 ^ (e1 - ex) = 0) by nia.
        rewrite HR, (Hexact Hm'), HU, Hsplit. unfold X.
        assert (Hmx' : mx = 2 ^ (e1 - ex) * (mx / 2 ^ (e1 - ex))).
        { apply Z.div_exact; lia. }
        transitivity (2 ^ (e1 - ex) * (mx / 2 ^ (e1 - ex)) * 2 ^ (ex + bias));
          [ring | now rewrite <- Hmx'].
    + rewrite HR. apply Z.mod_mul. pose proof (ulp_pos X). lia.
    + rewrite HD, Z.abs_mul, (Z.abs_eq (2 ^ (ex + bias))) by lia.
      rewrite HU, Hsplit, Z.mul_assoc.
      apply Z.mul_le_mono_nonneg_r; lia.
    + rewrite HD, Z.abs_mul, (Z.abs_eq (2 ^ (ex + bias))) by lia.
      rewrite HR, Z.div_mul by (pose proof (ulp_pos X); lia).
      rewrite HU, Hsplit, Z.mul_assoc. intros E.
      apply Hn2. apply Z.mul_cancel_r in E; lia.
  - rewrite Hres. destruct m2 as [ | p | p]; try lia.
    + left. simpl. repeat split. now destruct sx.
    + specialize (Hcan ltac:(lia)).
      destruct (e2 <=? emax - prec) eqn:Hle.
      * left. apply Z.leb_le in Hle. repeat split.
        simpl. apply bounded_iff. split; trivial.
      * right. apply Z.leb_gt in Hle. split; trivial.
        change (emax - prec) with 971 in Hle. change emax with 1024.
        rewrite fexp_eq in Hcan.
        assert (Hd : Zdigits2 (Z.pos p) = 53) by lia.
        pose proof (digits_bounds (Z.pos p) ltac:(lia)) as [Hlo _].
        rewrite Hd in Hlo.
        assert (2 ^ (1024 + bias) <= 2 ^ (53 - 1) * 2 ^ (e2 + bias)).
        { rewrite <- pow2_split by lia. apply pow2_le. lia. }
        pose proof (pow2_pos (e2 + bias) ltac:(lia)). nia.
Qed.

Lemma binary_round_nearest (sx : bool) (m : positive) (e : Z) :
  - bias <= e ->
  exists R : Z,
    nearest (Z.pos m * 2 ^ (e + bias)) R /\
    represents sx R (binary_round prec emax sx m e).
Proof.
  intros Hb. unfold binary_round.
  set (e1 := fexp prec emax (Z.pos (digits2_pos m) + e)).
  change (Z.pos (digits2_pos m)) with (Zdigits2 (Z.pos m)) in e1.
  pose proof (shl_align_value m e e1) as [Hs Hv]. cbn zeta in *.
  destruct (shl_align m e e1) as [mz ez]. cbn [fst snd] in Hs, Hv.
  assert (He1 : -1074 <= e1) by (unfold e1; rewrite fexp_eq; lia).
  pose proof bias_eq as HB.
  assert (Hpre : ez <= fexp prec emax (Zdigits2 (Z.pos mz) + ez)).
  { rewrite Hv, digits_mul_pow2 by lia.
    replace (Zdigits2 (Z.pos m) + (e - Z.min e e1) + ez)
      with (Zdigits2 (Z.pos m) + e) by lia.
    fold e1. lia. }
  destruct (binary_round_aux_nearest_value sx (Z.pos mz) ez)
    as [R [HR1 HR2]]; try lia; trivial.
  exists R. split; trivial.
  replace (Z.pos m * 2 ^ (e + bias)) with (Z.pos mz * 2 ^ (ez + bias)); trivial.
  rewrite Hv, <- Z.mul_assoc, <- pow2_split by lia. do 2 f_equal. lia.
Qed.

Lemma nearest_refl (X : Z) : 0 <= X -> X mod ulp X = 0 -> nearest X X.
Proof.
  intros HX Hm. pose proof (ulp_pos X) as Hu.
  split; [now apply rounding_refl | ]. split; trivial.
  rewrite Z.sub_diag. simpl Z.abs. split; lia.
Qed.

Lemma nearest_zero : nearest 0 0.
Proof. apply nearest_refl; [lia | reflexivity]. Qed.

Lemma binary_normalize_nearest (z e : Z) (szero : bool) :
  - bias <= e ->
  exists R : Z,
    nearest (Z.abs z * 2 ^ (e + bias)) R /\
    represents (if z =? 0 then szero else z <? 0) R
      (binary_normalize prec emax z e szero).
Proof.
  intros Hb. destruct z as [ | p | p]; simpl binary_normalize.
  - exists 0. split.
    + change (Z.abs 0 * 2 ^ (e + bias)) with 0. apply nearest_zero.
    + left. simpl. repeat split. now destruct szero.
  - apply (binary_round_nearest false p e Hb).
  - apply (binary_round_nearest true p e Hb).
Qed.

Lemma nearest_rounding (X R : Z) : nearest X R -> rounding true X R.
Proof. now intros [H _]. Qed.

(** The two candidates of a rounding. *)
Lemma nearest_candidates (X R : Z) :
  0 <= X -> nearest X R ->
  R = X / ulp X * ulp X \/ R = (X / ulp X + 1) * ulp X.
Proof.
  intros HX [[[Hlo Hhi] _] [Hm _]]. pose proof (ulp_pos X) as HU.
  set (U := ulp X) in *.
  assert (E : R = U * (R / U)) by (apply Z.div_exact; lia).
  assert (X / U <= R / U <= X / U + 1) by nia.
  assert (C : R / U = X / U \/ R / U = X / U + 1) by lia.
  destruct C as [C | C]; [left | right]; rewrite E, C; ring.
Qed.

Lemma nearest_unique (X R1 R2 : Z) :
  0 <= X -> nearest X R1 -> nearest X R2 -> R1 = R2.
Proof.
  intros HX H1 H2. pose proof (ulp_pos X) as HU.
  pose proof (nearest_candidates X R1 HX H1) as C1.
  pose proof (nearest_candidates X R2 HX H2) as C2.
  destruct H1 as [_ [_ [N1 E1]]], H2 as [_ [_ [N2 E2]]].
  set (U := ulp X) in *.
  pose proof (Z.div_mod X U ltac:(lia)) as Hdm.
  pose proof (Z.mod_pos_bound X U HU) as Hb.
  set (q := X / U) in *. set (rho := X mod U) in *.
  destruct C1 as [C1 | C1], C2 as [C2 | C2]; try congruence; exfalso.
  - assert (T1 : 2 * Z.abs (R1 - X) = U) by lia.
    assert (T2 : 2 * Z.abs (R2 - X) = U) by lia.
    specialize (E1 T1). specialize (E2 T2).
    rewrite C1, Z.div_mul in E1 by lia.
    rewrite C2, Z.div_mul in E2 by lia.
    rewrite Z.even_add in E2. rewrite E1 in E2. discriminate.
  - assert (T1 : 2 * Z.abs (R1 - X) = U) by lia.
    assert (T2 : 2 * Z.abs (R2 - X) = U) by lia.
    specialize (E1 T1). specialize (E2 T2).
    rewrite C1, Z.div_mul in E1 by lia.
    rewrite C2, Z.div_mul in E2 by lia.
    rewrite Z.even_add in E1. rewrite E2 in E1. discriminate.
Qed.

Lemma nearest_mono_same_ulp (X1 X2 R1 R2 : Z) :
  0 <= X1 < X2 -> ulp X1 = ulp X2 ->
  nearest X1 R1 -> nearest X2 R2 -> R1 <= R2.
Proof.
  intros HX HU H1 H2. pose proof (ulp_pos X1) as HP.
  pose proof (nearest_candidates X1 R1 ltac:(lia) H1) as C1.
  pose proof (nearest_candidates X2 R2 ltac:(lia) H2) as C2.
  destruct H1 as [_ [_ [N1 _]]], H2 as [_ [_ [N2 _]]].
  rewrite <- HU in *. set (U := ulp X1) in *.
  pose proof (Z.div_mod X1 U ltac:(lia)) as Hd1.
  pose proof (Z.mod_pos_bound X1 U HP) as Hb1.
  pose proof (Z.div_mod X2 U ltac:(lia)) as Hd2.
  pose proof (Z.mod_pos_bound X2 U HP) as Hb2.
  assert (Hq : X1 / U <= X2 / U) by (apply Z.div_le_mono; lia).
  set (q1 := X1 / U) in *. set (q2 := X2 / U) in *.
  destruct C1 as [C1 | C1], C2 as [C2 | C2]; subst R1 R2; try nia.
  (* the lower number rounded up, the upper one rounded down *)
  destruct (Z.eq_dec q1 q2) as [E | E]; [ | nia].
  exfalso. rewrite E in *. nia.
Qed.

Lemma nearest_mono (X1 X2 R1 R2 : Z) :
  0 <= X1 <= X2 -> nearest X1 R1 -> nearest X2 R2 -> R1 <= R2.
Proof.
  intros HX H1 H2. pose proof bias_eq as HB.
  destruct (Z.eq_dec X1 X2) as [E | E].
  { subst X2. rewrite (nearest_unique X1 R1 R2); trivial; lia. }
  destruct (Z.eq_dec X1 0) as [E0 | E0].
  { subst X1. destruct H1 as [[_ Hex] _].
    rewrite (Hex eq_refl eq_refl).
    apply (rounding_nonneg true X2); [now apply nearest_rounding | lia]. }
  destruct (Z.eq_dec (ulp X1) (ulp X2)) as [EU | EU].
  { apply (nearest_mono_same_ulp X1 X2); trivial; lia. }
  pose proof (digits_le X1 X2 HX) as Hd.
  pose proof (digits_bounds X1 ltac:(lia)) as [_ Hb1].
  pose proof (digits_bounds X2 ltac:(lia)) as [Hb2 _].
  rewrite !ulp_eq in EU.
  set (d1 := Zdigits2 X1) in *. set (d2 := Zdigits2 X2) in *.
  assert (Hd12 : d1 < d2).
  { destruct (Z.eq_dec d1 d2) as [Ed | Ed]; [ | lia].
    rewrite Ed in EU. now elim EU. }
  assert (Ha2 : Z.max (d2 - bias - 53) (-1074) = d2 - bias - 53).
  { destruct (Z.max_spec (d2 - bias - 53) (-1074)) as [[L E2] | [L E2]];
      trivial.
    exfalso. apply EU. f_equal. lia. }
  assert (Hd1 : 0 < d1) by (unfold d1; destruct X1; simpl; lia).
  set (B := 2 ^ (d2 - 1)).
  assert (HB1 : X1 <= B).
  { apply Z.lt_le_incl, Z.lt_le_trans with (2 ^ d1); trivial.
    apply pow2_le. lia. }
  assert (HR1 : R1 <= B).
  { apply (rounding_le X1 R1 B
             (2 ^ (d2 - 1 - (Z.max (d1 - bias - 53) (-1074) + bias))));
      [now apply nearest_rounding | lia | ].
    rewrite ulp_eq. fold d1. unfold B.
    rewrite <- pow2_split by lia. f_equal. lia. }
  assert (HR2 : B <= R2).
  { destruct H2 as [[[Hlo _] _] _].
    pose proof (ulp_pos X2) as HU2.
    assert (EB : B = 2 ^ 52 * ulp X2).
    { rewrite ulp_eq. fold d2. rewrite Ha2. unfold B.
      rewrite <- pow2_split by lia. f_equal. lia. }
    assert (2 ^ 52 <= X2 / ulp X2).
    { apply Z.div_le_lower_bound; trivial. rewrite Z.mul_comm, <- EB.
      exact Hb2. }
    nia. }
  lia.
Qed.

Lemma mul_nearest (sx sy : bool) (mx my : positive) (ex ey : Z) :
  bounded prec emax mx ex = true -> bounded prec emax my ey = true ->
  exists R : Z,
    nearest (Z.pos mx * Z.pos my * 2 ^ (ex + ey + bias)) R /\
    represents (xorb sx sy) R
      (mul (S754_finite sx mx ex) (S754_finite sy my ey)).
Proof.
  intros Hx Hy.
  pose proof (bounded_range _ _ Hx) as [Rx Dx].
  pose proof (bounded_range _ _ Hy) as [Ry Dy].
  pose proof bias_eq as HB.
  unfold mul, SFmul. rewrite Pos2Z.inj_mul.
  apply (binary_round_aux_nearest_value (xorb sx sy) (Z.pos mx * Z.pos my)
           (ex + ey)); try lia.
  pose proof (digits_mul_ge (Z.pos mx) (Z.pos my) ltac:(lia) ltac:(lia)) as Hd.
  apply bounded_iff in Hx, Hy. destruct Hx as [Cx _], Hy as [Cy _].
  rewrite fexp_eq in *. lia.
Qed.

Lemma normalize_sum_nearest (z ez : Z) (v : Z) :
  -1074 <= ez -> z * 2 ^ (ez + bias) = v ->
  exists R : Z,
    nearest (Z.abs v) R /\
    represents (if v =? 0 then false else v <? 0) R
      (binary_normalize prec emax z ez false).
Proof.
  intros He Hv. pose proof bias_eq as HB.
  pose proof (pow2_pos (ez + bias) ltac:(lia)) as P.
  destruct (binary_normalize_nearest z ez false ltac:(lia)) as [R [H1 H2]].
  exists R. split.
  - replace (Z.abs v) with (Z.abs z * 2 ^ (ez + bias)); trivial.
    subst v. rewrite Z.abs_mul. f_equal. lia.
  - replace (v =? 0) with (z =? 0).
    + replace (v <? 0) with (z <? 0); trivial.
      subst v. destruct (Z.ltb_spec z 0), (Z.ltb_spec (z * 2 ^ (ez + bias)) 0);
        trivial; nia.
    + subst v. destruct (Z.eqb_spec z 0), (Z.eqb_spec (z * 2 ^ (ez + bias)) 0);
        trivial; nia.
Qed.

Lemma regular_val_mod_ulp (x : number) :
  regular x -> Z.abs (val x) mod ulp (Z.abs (val x)) = 0.
Proof.
  intros Hx.
  destruct (val_multiple_of_ulp x (Z.abs (val x)) Hx ltac:(lia)) as [k Hk].
  rewrite Hk at 1. apply Z.mod_mul. pose proof (ulp_pos (Z.abs (val x))). lia.
Qed.

Lemma sub_nearest (x y : number) :
  regular x -> regular y ->
  exists R : Z,
    nearest (Z.abs (val x - val y)) R /\
    represents (sum_sign (val x - val y) (sign_bit x && negb (sign_bit y))) R
      (sub x y).
Proof.
  intros Hx Hy. unfold sum_sign.
  destruct x as [sx | sx | | sx mx ex]; try (now elim Hx);
    destruct y as [sy | sy | | sy my ey]; try (now elim Hy).
  - exists 0. split; [apply nearest_zero | ].
    left. now destruct sx, sy.
  - exists (Z.abs (val (S754_finite (negb sy) my ey))).
    pose proof (bounded_range _ _ Hy) as [R _].
    pose proof (val_finite_pos sy my ey ltac:(lia)).
    assert (E : val (S754_zero sx) - val (S754_finite sy my ey) =
                val (S754_finite (negb sy) my ey))
      by (destruct sy; cbn [val cond_Zopp negb]; lia).
    rewrite E. split.
    { apply nearest_refl; [lia | ].
      now apply (regular_val_mod_ulp (S754_finite (negb sy) my ey)). }
    replace (val (S754_finite (negb sy) my ey) =? 0) with false.
    + rewrite <- sign_bit_val; trivial.
      * now apply (regular_represents (S754_finite (negb sy) my ey)).
      * destruct sy; cbn [val cond_Zopp negb]; lia.
    + symmetry. apply Z.eqb_neq. destruct sy; cbn [val cond_Zopp negb]; lia.
  - exists (Z.abs (val (S754_finite sx mx ex))).
    change (val (S754_zero sy)) with 0. rewrite Z.sub_0_r.
    split.
    { apply nearest_refl; [lia | ]. now apply regular_val_mod_ulp. }
    pose proof (bounded_range _ _ Hx) as [R _].
    pose proof (val_finite_pos sx mx ex ltac:(lia)).
    replace (val (S754_finite sx mx ex) =? 0) with false.
    + rewrite <- sign_bit_val; trivial.
      * now apply regular_represents.
      * destruct sx; cbn [val cond_Zopp]; lia.
    + symmetry. apply Z.eqb_neq. destruct sx; cbn [val cond_Zopp]; lia.
  - pose proof (bounded_range _ _ Hx) as [Rx _].
    pose proof (bounded_range _ _ Hy) as [Ry _].
    unfold sub, SFsub.
    rewrite shl_align_min, (Z.min_comm ex ey), shl_align_min.
    set (ez := Z.min ey ex).
    destruct (normalize_sum_nearest
      (cond_Zopp sx (Z.pos mx * 2 ^ (ex - ez)) -
       cond_Zopp sy (Z.pos my * 2 ^ (ey - ez))) ez
      (val (S754_finite sx mx ex) - val (S754_finite sy my ey)))
      as [R [H1 H2]].
    + unfold ez. lia.
    + rewrite Z.mul_sub_distr_r, !aligned_val by (unfold ez; lia).
      reflexivity.
    + exists R. split; trivial.
      destruct (val (S754_finite sx mx ex) - val (S754_finite sy my ey) =? 0)
        eqn:E; trivial.
      apply Z.eqb_eq in E.
      pose proof (val_finite_pos sx mx ex ltac:(lia)).
      pose proof (val_finite_pos sy my ey ltac:(lia)).
      destruct sx, sy; cbn [val cond_Zopp sign_bit andb negb] in *;
        trivial; lia.
Qed.

(** *** Conversions produce numbers in canonical form *)

Lemma represents_valid (s : bool) (R : Z) (r : number) :
  represents s R r -> valid_binary prec emax r = true.
Proof.
  intros [[Hr _] | [-> _]]; [ | reflexivity].
  destruct r as [sr | sr | | sr m e]; try (now elim Hr); trivial.
Qed.

Lemma of_Z_valid (z : Z) : valid_binary prec emax (of_Z z) = true.
Proof.
  destruct (binary_normalize_value z 0 false) as [R [_ H]].
  - pose proof bias_eq. lia.
  - exact (represents_valid _ _ _ H).
Qed.

Lemma of_ratio_valid (sx : bool) (n d : positive) :
  valid_binary prec emax (of_ratio sx n d) = true.
Proof.
  pose proof bias_eq as HB.
  unfold of_ratio, SFdiv_core_binary.
  set (e' := Z.min (fexp prec emax (Zdigits2 (Z.pos n) + 0 -
                                     (Zdigits2 (Z.pos d) + 0))) (0 - 0)).
  set (s := 0 - 0 - e').
  assert (Hs : 0 <= s) by (unfold s, e'; lia).
  assert (He' : -1074 <= e').
  { unfold e'. rewrite fexp_eq. lia. }
  set (m' := match s with
             | 0 => Z.pos n
             | Z.pos _ => Z.shiftl (Z.pos n) s
             | Z.neg _ => 0
             end).
  assert (Hm' : m' = Z.pos n * 2 ^ s).
  { unfold m'. clearbody s. destruct s as [ | p | p]; try lia.
    now rewrite Z.shiftl_mul_pow2 by lia. }
  assert (Pm' : 0 < m').
  { rewrite Hm'. pose proof (pow2_pos s Hs). nia. }
  destruct (Z.div_eucl m' (Z.pos d)) as [q r] eqn:E.
  assert (Hq : q = m' / Z.pos d) by (unfold Z.div; now rewrite E).
  assert (Hq0 : 0 <= q) by (subst q; apply Z.div_pos; lia).
  assert (Hpre : e' <= fexp prec emax (Zdigits2 q + e')).
  { pose proof (quotient_digits m' (Z.pos d) Pm' ltac:(lia)) as Hd.
    rewrite <- Hq in Hd. rewrite Hm', digits_mul_pow2 in Hd by lia.
    apply Z.le_trans with
      (fexp prec emax (Zdigits2 (Z.pos n) + 0 - (Zdigits2 (Z.pos d) + 0))).
    - unfold e'. lia.
    - apply fexp_le. unfold s in Hd. lia. }
  destruct (binary_round_aux_value sx q e'
              (new_location (Z.pos d) r) Hq0 ltac:(lia) Hpre)
    as [R [_ H]].
  exact (represents_valid _ _ _ H).
Qed.

Lemma of_decimal_valid (sx : bool) (m e10 : Z) :
  valid_binary prec emax (of_decimal sx m e10) = true.
Proof.
  unfold of_decimal. destruct m as [ | p | p]; trivial.
  destruct (0 <=? e10).
  - apply of_Z_valid.
  - apply of_ratio_valid.
Qed.

Lemma decimal_literal_valid (s : string) :
  valid_binary prec emax (decimal_literal s) = true.
Proof.
  unfold decimal_literal.
  destruct (strip_sign s) as [sign body].
  destruct (String.eqb body "Infinity"); trivial.
  destruct (read_digits 10 body 0 0) as [[i ni] r1].
  assert (H : forall (mant nf : Z) (r2 : string) (wf : bool),
    valid_binary prec emax
      (if wf then
         match exponent_part r2 with
         | Some (x, EmptyString) => of_decimal sign mant (x - nf)
         | _ => NaN
         end
       else NaN) = true).
  { intros mant nf r2 [ | ]; trivial.
    destruct (exponent_part r2) as [[x [ | c rest]] | ]; trivial.
    apply of_decimal_valid. }
  destruct r1 as [ | c r1']; [apply H | ].
  destruct (Ascii.eqb_spec c ".") as [-> | Hc].
  - destruct (read_digits 10 r1' i ni) as [[f nall] r2]. apply H.
  - destruct c as [[] [] [] [] [] [] [] []]; try apply H; now elim Hc.
Qed.

Lemma StringToNumber_valid (str : string) :
  valid_binary prec emax (StringToNumber str) = true.
Proof.
  unfold StringToNumber.
  destruct (trim str) as [ | c s]; trivial.
  destruct (non_decimal_prefix (String c s)) as [[R body] | ].
  - destruct (read_digits R body 0 0) as [[v n] rest].
    destruct rest; trivial. destruct (n =? 0); trivial. apply of_Z_valid.
  - apply decimal_literal_valid.
Qed.

Lemma ToNumber_valid (v : value) :
  valid_value v -> valid_binary prec emax (ToNumber v) = true.
Proof.
  destruct v as [ | | [ | ] | n | str]; trivial.
  intros _. apply StringToNumber_valid.
Qed.

Lemma toNumber_wellformed (v : value) :
  valid_value v -> wellformed (Cast.toNumber v).
Proof.
  intros Hv. split; [ | apply toNumber_not_nan].
  pose proof (ToNumber_valid v Hv) as H.
  destruct v as [ | | b | n | str]; cbn [Cast.toNumber] in *;
    try (destruct (isNaN _); trivial).
Qed.

(** *** Concatenation of strings *)

Lemma string_app_assoc (s1 s2 s3 : string) :
  (s1 ++ s2) ++ s3 = s1 ++ (s2 ++ s3).
Proof. induction s1 as [ | c s1 IH]; simpl; congruence. Qed.

Lemma string_app_length (s1 s2 : string) :
  String.length (s1 ++ s2) = (String.length s1 + String.length s2)%nat.
Proof. induction s1 as [ | c s1 IH]; simpl; congruence. Qed.

Lemma list_ascii_app (s1 s2 : string) :
  list_ascii_of_string (s1 ++ s2) =
  (list_ascii_of_string s1 ++ list_ascii_of_string s2)%list.
Proof. induction s1 as [ | c s1 IH]; simpl; congruence. Qed.

(** *** [Cast.toNumber] *)

(** X1: [Cast.toNumber] never returns NaN: it returns [Number(value)], and 0
    when that is NaN; casting its result again changes nothing. *)
Theorem toNumber_never_NaN (v : value) :
  isNaN (Cast.toNumber v) = false /\
  Cast.toNumber v = (if isNaN (ToNumber v) then zero else ToNumber v) /\
  Cast.toNumber (VNumber (Cast.toNumber v)) = Cast.toNumber v.
Proof.
  pose proof (toNumber_not_nan v) as H.
  split; [exact H | ]. split.
  - destruct v as [ | | b | n | str]; reflexivity.
  - cbn [Cast.toNumber]. now rewrite H.
Qed.

(** *** [Cast.toBoolean] *)

Lemma lower_char_idempotent (c : ascii) :
  lower_char (lower_char c) = lower_char c.
Proof.
  destruct c as [[] [] [] [] [] [] [] []]; reflexivity.
Qed.

Lemma toLowerCase_idempotent (s : string) :
  toLowerCase (toLowerCase s) = toLowerCase s.
Proof.
  induction s as [ | c s IH]; trivial.
  cbn [toLowerCase]. now rewrite lower_char_idempotent, IH.
Qed.

Lemma toLowerCase_zero (s : string) :
  String.eqb (toLowerCase s) "0" = String.eqb s "0".
Proof.
  destruct s as [ | c [ | c' s]]; trivial.
  - cbn [toLowerCase String.eqb].
    destruct c as [[] [] [] [] [] [] [] []]; reflexivity.
  - cbn [toLowerCase String.eqb].
    now destruct (Ascii.eqb _ _), (Ascii.eqb _ _).
Qed.

Lemma toLowerCase_empty (s : string) :
  String.eqb (toLowerCase s) "" = String.eqb s "".
Proof. now destruct s. Qed.

(** X2: on undefined, null, a boolean or a number, [toBoolean] is true
    exactly when the Scratch number of the value is not 0; on a string it
    does not depend on the case of the letters. *)
Theorem toBoolean_spec :
  (forall v : value,
     not_a_string v ->
     Cast.toBoolean v = negb (eqb (Cast.toNumber v) zero)) /\
  (forall str : string,
     Cast.toBoolean (VString (toLowerCase str)) =
     Cast.toBoolean (VString str)).
Proof.
  split.
  - intros v Hs. destruct v as [ | | [ | ] | n | str]; trivial.
    + cbn [Cast.toBoolean Cast.toNumber].
      destruct n as [[ | ] | [ | ] | | [ | ] m e]; reflexivity.
    + contradiction.
  - intros str. cbn [Cast.toBoolean].
    now rewrite toLowerCase_idempotent, toLowerCase_zero, toLowerCase_empty.
Qed.

Lemma toBoolean_spec_witness :
  Cast.toBoolean (VNumber negzero) =
  negb (eqb (Cast.toNumber (VNumber negzero)) zero).
Proof. apply (proj1 toBoolean_spec (VNumber negzero)). exact I. Defined.

(** *** [Cast.toRgbColorObject] and [Cast.toRgbColorList] *)

Lemma toRgbColorObject_string (c : ascii) (str : string) :
  Cast.toRgbColorObject (VString (String c str)) =
  if Ascii.eqb c "#" then
    match Color.hexToRgb_string (String c str) with
    | Some color => color
    | None => Color.mkRGB zero zero zero (Some (of_Z 255))
    end
  else Color.decimalToRgb (Cast.toNumber (VString (String c str))).
Proof. destruct c as [[] [] [] [] [] [] [] []]; reflexivity. Qed.

Lemma is_byte_zero : Spec.is_byte zero.
Proof. exists 0. split; [lia | reflexivity]. Qed.

Lemma toRgbColorObject_byte_components (v : value) :
  Spec.byte_components (Cast.toRgbColorObject v).
Proof.
  destruct v as [ | | bl | n | [ | c str]];
    try apply decimalToRgb_bytes.
  rewrite toRgbColorObject_string.
  destruct (Ascii.eqb c "#"); [ | apply decimalToRgb_bytes].
  destruct (Color.hexToRgb_string (String c str)) as [color | ] eqn:E.
  - apply (hexToRgb_bytes (String c str)). cbn [Color.hexToRgb]. now rewrite E.
  - repeat split; apply is_byte_zero.
Qed.

(** X3: Whatever the value, [Cast.toRgbColorObject] returns a colour whose
    components are integers in [[0, 255]], and [Cast.toRgbColorList] returns
    the list of the three components of that colour. *)
Theorem toRgbColorObject_bytes (v : value) :
  let color := Cast.toRgbColorObject v in
  Spec.byte_components color /\
  Cast.toRgbColorList v = [Color.r color; Color.g color; Color.b color] /\
  Forall Spec.is_byte (Cast.toRgbColorList v).
Proof.
  pose proof (toRgbColorObject_byte_components v) as [Hr [Hg Hb]].
  cbn zeta. split; [now repeat split | ]. split; [reflexivity | ].
  unfold Cast.toRgbColorList. now repeat constructor.
Qed.

(** *** More on [Cast.compare] *)

Lemma string_compare_refl (s : string) : String.compare s s = Eq.
Proof.
  pose proof (String.compare_antisym s s) as H.
  destruct (String.compare s s); trivial; discriminate.
Qed.

Lemma sub_diag (x : number) :
  isNaN x = false -> Spec.like_signed_infinities x x = false ->
  sub x x = zero.
Proof.
  destruct x as [[ | ] | [ | ] | | s m e]; try discriminate; trivial.
  intros _ _. unfold sub, SFsub. now rewrite Z.sub_diag.
Qed.

(** X4: A value compares equal to itself: [compare(v, v)] is 0, whatever the
    value. *)
Theorem compare_reflexive (v : value) : Cast.compare v v = zero.
Proof.
  rewrite compare_eq_spec. unfold Spec.compare.
  destruct (isNaN (Spec.comparand v)) eqn:Hn; cbn [orb].
  - unfold Spec.string_order. now rewrite string_compare_refl.
  - destruct (Spec.like_signed_infinities (Spec.comparand v)
                (Spec.comparand v)) eqn:Hi; trivial.
    now apply sub_diag.
Qed.

(** The difference of two numbers has the sign of their order. *)
Lemma val_multiple_of_least (x : number) :
  regular x -> exists k, val x = k * 2 ^ (bias - 1074).
Proof.
  pose proof bias_eq as HB.
  destruct x as [s | s | | s m e]; try (intros []; fail); intros Hx.
  - exists 0. reflexivity.
  - pose proof (bounded_range _ _ Hx) as [Re _].
    exists (cond_Zopp s (Z.pos m * 2 ^ (e + 1074))). cbn [val].
    replace (e + bias) with ((e + 1074) + (bias - 1074)) by lia.
    rewrite (pow2_split (e + 1074) (bias - 1074)) by lia.
    destruct s; cbn [cond_Zopp]; ring.
Qed.

Lemma wellformed_cases (x : number) :
  wellformed x -> regular x \/ exists s, x = S754_infinity s.
Proof.
  intros [Hv Hn].
  destruct x as [s | s | | s m e]; try discriminate.
  - now left.
  - right. now exists s.
  - left. exact Hv.
Qed.

Lemma sub_order_regular (x y : number) :
  regular x -> regular y ->
  ltb (sub x y) zero = ltb x y /\
  eqb (sub x y) zero = eqb x y /\
  ltb zero (sub x y) = ltb y x.
Proof.
  intros Hx Hy.
  rewrite (ltb_val x y), (eqb_val x y), (ltb_val y x) by trivial.
  destruct (sub_spec x y Hx Hy) as [R [HR Hrep]].
  destruct (val_multiple_of_least x Hx) as [kx Ex].
  destruct (val_multiple_of_least y Hy) as [ky Ey].
  assert (HR0 : val x - val y <> 0 -> 0 < R).
  { intros Hne.
    apply (rounding_pos (Z.abs (val x - val y)) R
             (Z.abs (kx - ky)) HR); [lia | ].
    rewrite Ex, Ey, <- Z.mul_sub_distr_r, Z.abs_mul.
    rewrite (Z.abs_eq (2 ^ (bias - 1074))); trivial.
    pose proof bias_eq. apply Z.lt_le_incl, pow2_pos. lia. }
  assert (HRz : val x - val y = 0 -> R = 0).
  { intros Hz. destruct HR as [_ He]. rewrite Hz in *. simpl Z.abs in *.
    now apply He. }
  unfold sum_sign in Hrep.
  destruct Hrep as [[Hr [Hs Hv]] | [Hr HRb]].
  - rewrite (ltb_val _ zero), (eqb_val _ zero), (ltb_val zero)
      by (trivial; exact I).
    change (val zero) with 0. rewrite Hv.
    destruct (Z.eqb_spec (val x - val y) 0) as [E | E].
    + rewrite (HRz E).
      replace (cond_Zopp _ 0) with 0 by (now destruct (sign_bit x && _)).
      repeat split; symmetry;
        [apply Z.ltb_ge | apply Z.eqb_eq | apply Z.ltb_ge]; lia.
    + specialize (HR0 E).
      destruct (Z.ltb_spec (val x - val y) 0) as [L | L]; cbn [cond_Zopp].
      * repeat split;
          [ transitivity true; [apply Z.ltb_lt | symmetry; apply Z.ltb_lt]
          | transitivity false; [apply Z.eqb_neq | symmetry; apply Z.eqb_neq]
          | transitivity false; [apply Z.ltb_ge | symmetry; apply Z.ltb_ge] ];
          lia.
      * repeat split;
          [ transitivity false; [apply Z.ltb_ge | symmetry; apply Z.ltb_ge]
          | transitivity false; [apply Z.eqb_neq | symmetry; apply Z.eqb_neq]
          | transitivity true; [apply Z.ltb_lt | symmetry; apply Z.ltb_lt] ];
          lia.
  - rewrite Hr.
    assert (E : val x - val y <> 0).
    { intros Hz. specialize (HRz Hz). subst R.
      pose proof (pow2_pos (emax + bias)). pose proof bias_eq.
      change emax with 1024 in *. lia. }
    destruct (Z.eqb_spec (val x - val y) 0) as [E' | _]; [contradiction | ].
    destruct (Z.ltb_spec (val x - val y) 0) as [L | L].
    + repeat split; cbn; symmetry;
        [apply Z.ltb_lt | apply Z.eqb_neq | apply Z.ltb_ge]; lia.
    + repeat split; cbn; symmetry;
        [apply Z.ltb_ge | apply Z.eqb_neq | apply Z.ltb_lt]; lia.
Qed.

Lemma sub_order (x y : number) :
  wellformed x -> wellformed y ->
  Spec.like_signed_infinities x y = false ->
  ltb (sub x y) zero = ltb x y /\
  eqb (sub x y) zero = eqb x y /\
  ltb zero (sub x y) = ltb y x.
Proof.
  intros Hx Hy Hi.
  destruct (wellformed_cases x Hx) as [Rx | [sx ->]];
    destruct (wellformed_cases y Hy) as [Ry | [sy ->]].
  - now apply sub_order_regular.
  - destruct x as [s | s | | s m e]; try (now elim Rx);
      destruct s, sy; repeat split; reflexivity.
  - destruct y as [s | s | | s m e]; try (now elim Ry);
      destruct s, sx; repeat split; reflexivity.
  - destruct sx, sy; try discriminate; repeat split; reflexivity.
Qed.

(** X5: When both sides are numeric, the result of [compare] is negative, zero
    or positive exactly as the first number is below, equal to or above the
    second. *)
Theorem compare_numeric_order (v1 v2 : value) :
  valid_value v1 -> valid_value v2 ->
  isNaN (Spec.comparand v1) = false -> isNaN (Spec.comparand v2) = false ->
  ltb (Cast.compare v1 v2) zero = ltb (ToNumber v1) (ToNumber v2) /\
  eqb (Cast.compare v1 v2) zero = eqb (ToNumber v1) (ToNumber v2) /\
  gtb (Cast.compare v1 v2) zero = gtb (ToNumber v1) (ToNumber v2).
Proof.
  intros V1 V2 N1 N2. rewrite compare_eq_spec. unfold Spec.compare, gtb.
  rewrite N1, N2. cbn [orb].
  assert (E1 : Spec.comparand v1 = ToNumber v1).
  { unfold Spec.comparand in *.
    now destruct (eqb (ToNumber v1) zero && Cast.isWhiteSpace v1). }
  assert (E2 : Spec.comparand v2 = ToNumber v2).
  { unfold Spec.comparand in *.
    now destruct (eqb (ToNumber v2) zero && Cast.isWhiteSpace v2). }
  rewrite E1, E2.
  assert (W1 : wellformed (ToNumber v1)).
  { split; [now apply ToNumber_valid | now rewrite <- E1]. }
  assert (W2 : wellformed (ToNumber v2)).
  { split; [now apply ToNumber_valid | now rewrite <- E2]. }
  destruct (Spec.like_signed_infinities (ToNumber v1) (ToNumber v2)) eqn:Hi.
  - destruct (ToNumber v1) as [ | s1 | | ]; try discriminate.
    destruct (ToNumber v2) as [ | s2 | | ]; try discriminate.
    destruct s1, s2; try discriminate; repeat split; reflexivity.
  - now apply sub_order.
Qed.

Lemma compare_numeric_order_witness :
  ltb (Cast.compare (VString "10") (VNumber (of_Z 9))) zero =
    ltb (ToNumber (VString "10")) (ToNumber (VNumber (of_Z 9))) /\
  eqb (Cast.compare (VString "10") (VNumber (of_Z 9))) zero =
    eqb (ToNumber (VString "10")) (ToNumber (VNumber (of_Z 9))) /\
  gtb (Cast.compare (VString "10") (VNumber (of_Z 9))) zero =
    gtb (ToNumber (VString "10")) (ToNumber (VNumber (of_Z 9))).
Proof.
  apply (compare_numeric_order (VString "10") (VNumber (of_Z 9)));
    try reflexivity; exact I.
Defined.

(** *** Scaling a random number *)

Lemma below_one_bound (r : number) :
  regular r -> val r < one -> val r <= one - 2 ^ (bias - 53).
Proof.
  intros Hr Hlt. pose proof bias_eq as HB. unfold one in *.
  assert (Hhalf : 2 ^ bias = 2 * 2 ^ (bias - 1)).
  { rewrite <- Z.pow_succ_r by lia. f_equal; lia. }
  assert (Heps : 2 ^ (bias - 1) = 2 ^ 52 * 2 ^ (bias - 53)).
  { rewrite <- pow2_split by lia. f_equal; lia. }
  pose proof (pow2_pos (bias - 53) ltac:(lia)) as Pe.
  destruct (Z.le_gt_cases (2 ^ (bias - 1)) (val r)) as [Hge | Hlow];
    [ | change (2 ^ 52) with 4503599627370496 in Heps; lia].
  destruct (val_multiple_of_ulp r (2 ^ (bias - 1)) Hr ltac:(lia)) as [k Hk].
  assert (EU : ulp (2 ^ (bias - 1)) = 2 ^ (bias - 53)).
  { rewrite ulp_eq.
    assert (Ed : Zdigits2 (2 ^ (bias - 1)) = bias).
    { apply digits_unique; [lia | ]. split; [lia | ]. rewrite Hhalf. lia. }
    rewrite Ed. f_equal; lia. }
  rewrite EU, Z.abs_eq in Hk by lia.
  assert (k * 2 ^ (bias - 53) < 2 ^ 53 * 2 ^ (bias - 53)).
  { rewrite <- Hk. rewrite <- pow2_split by lia.
    now replace (53 + (bias - 53)) with bias by lia. }
  assert (k < 2 ^ 53) by nia.
  assert (E53 : 2 ^ bias = 2 ^ 53 * 2 ^ (bias - 53)).
  { rewrite <- pow2_split by lia. f_equal; lia. }
  rewrite E53, Hk. nia.
Qed.

Lemma mul_unit_interval (r : number) (n : Z) :
  unit_interval r -> 1 <= n <= 2 ^ 53 ->
  within (n * one - 1) (mul r (of_Z n)).
Proof.
  intros [Hr [Hs Hlt]] Hn. pose proof bias_eq as HB.
  pose proof (below_one_bound r Hr Hlt) as Hle.
  pose proof one_pos as Po. unfold one in *.
  destruct (of_Z_small n ltac:(lia)) as [Rn [Sn Vn]].
  assert (Sn' : sign_bit (of_Z n) = false).
  { rewrite Sn. apply Z.ltb_ge. lia. }
  destruct (of_Z n) as [sn | sn | | sn mn en] eqn:En; try (now elim Rn).
  { cbn [val] in Vn. nia. }
  cbn [sign_bit] in Sn'. subst sn.
  destruct r as [sr | sr | | sr mr er]; try (now elim Hr);
    cbn [sign_bit] in Hs; subst sr.
  { split; [exact I | split; [reflexivity | ]].
    change (0 <= n * 2 ^ bias - 1). nia. }
  pose proof (bounded_range _ _ Hr) as [Rr _].
  pose proof (bounded_range _ _ Rn) as [Rn' _].
  destruct (mul_nearest false false mr mn er en Hr Rn) as [R [HN Hrep]].
  pose proof (val_mul_scaled mr mn er en ltac:(lia) ltac:(lia)) as E.
  cbn [val cond_Zopp] in *. rewrite Vn in E.
  set (X := Z.pos mr * Z.pos mn * 2 ^ (er + en + bias)) in *.
  set (vr := Z.pos mr * 2 ^ (er + bias)) in *.
  assert (HX : X = vr * n).
  { apply (Z.mul_cancel_r _ _ (2 ^ bias)); [lia | ]. rewrite E. ring. }
  pose proof (val_finite_pos false mr er ltac:(lia)) as Pr.
  fold vr in Pr.
  assert (HXpos : 0 < X) by (rewrite HX; nia).
  set (eps := 2 ^ (bias - 53)) in *.
  assert (Pe : 0 < eps) by (apply pow2_pos; lia).
  assert (HXle : X <= n * 2 ^ bias - n * eps) by (rewrite HX; nia).
  (* the unit in the last place of the product is below [2 n eps] *)
  assert (HU : ulp X < 2 * n * eps).
  { rewrite ulp_eq.
    pose proof (digits_bounds X HXpos) as [Hd _].
    assert (Hd0 : 0 < Zdigits2 X) by (destruct X; simpl; lia).
    destruct (Z.max_spec (Zdigits2 X - bias - 53) (-1074)) as [[_ Em] | [_ Em]];
      rewrite Em.
    - assert (2 ^ (-1074 + bias) <= eps) by (apply pow2_le; lia). nia.
    - replace (Zdigits2 X - bias - 53 + bias) with (Zdigits2 X - 53) by lia.
      destruct (Z.le_gt_cases 53 (Zdigits2 X)) as [Hge | Hlow].
      + assert (E1 : 2 ^ (Zdigits2 X - 1) = 2 ^ (Zdigits2 X - 53) * 2 ^ 52).
        { rewrite <- pow2_split by lia. f_equal. lia. }
        assert (E2 : 2 ^ bias = eps * 2 ^ 53).
        { unfold eps. rewrite <- pow2_split by lia. f_equal; lia. }
        pose proof (pow2_pos (Zdigits2 X - 53) ltac:(lia)).
        change (2 ^ 52) with 4503599627370496 in E1.
        change (2 ^ 53) with 9007199254740992 in E2.
        nia.
      + lia. }
  destruct HN as [HR [_ [HN _]]].
  assert (HRlt : R < n * 2 ^ bias) by lia.
  assert (HRmax : R < 2 ^ (emax + bias)).
  { assert (2 ^ 53 * 2 ^ bias <= 2 ^ (emax + bias)).
    { rewrite <- pow2_split by lia. apply pow2_le. change emax with 1024. lia. }
    nia. }
  destruct (represents_regular _ _ _ Hrep HRmax) as [C1 [C2 C3]].
  cbn [xorb cond_Zopp] in *.
  split; trivial. split; trivial. lia.
Qed.

Lemma floor_integer (x : number) :
  regular x -> 0 <= val x -> val x / one <= 2 ^ 53 ->
  (val x / one <> 0 \/ sign_bit x = false) ->
  Math_floor x = of_Z (val x / one).
Proof.
  intros Hx H0 Hk Hs. pose proof one_pos as Po.
  destruct (floor_spec x Hx) as [F1 [F2 F3]]. fold one in F3.
  assert (K0 : 0 <= val x / one) by (apply Z.div_pos; lia).
  destruct (of_Z_small (val x / one) ltac:(lia)) as [Z1 [Z2 Z3]].
  fold one in Z3.
  apply val_inj; trivial; [ | lia].
  rewrite F2, Z2.
  replace (val x / one <? 0) with false by (symmetry; apply Z.ltb_ge; lia).
  destruct Hs as [Hs | Hs]; trivial.
  rewrite sign_bit_val; trivial.
  - apply Z.ltb_ge. lia.
  - intros E. rewrite E in *. rewrite Z.div_0_l in Hs; lia.
Qed.

Lemma random_index (random : number) (n : Z) :
  unit_interval random -> 1 <= n < 2 ^ 53 ->
  exists k : Z,
    1 <= k <= n /\
    add (of_Z 1) (Math_floor (mul random (of_Z n))) = of_Z k.
Proof.
  intros Hr Hn. pose proof one_pos as Po.
  destruct (mul_unit_interval random n Hr ltac:(lia)) as [P1 [P2 P3]].
  set (p := mul random (of_Z n)) in *.
  assert (P0 : 0 <= val p).
  { destruct p as [s | s | | s m e]; try (now elim P1); cbn [val].
    cbn [sign_bit] in P2. subst s. cbn [cond_Zopp].
    pose proof (bounded_range _ _ P1) as [Re _].
    pose proof (val_finite_pos false m e ltac:(lia)). cbn [cond_Zopp] in *. lia. }
  assert (Hk : 0 <= val p / one < n).
  { split; [apply Z.div_pos; lia | ].
    apply Z.div_lt_upper_bound; lia. }
  rewrite (floor_integer p); trivial; try lia; [ | now right].
  exists (1 + val p / one). split; [lia | ].
  apply add_of_Z; change (2 ^ 53) with 9007199254740992 in *; lia.
Qed.

(** *** The results of [Cast.toListIndex] *)

Lemma numeric_index_valid (index : value) (n : Z) :
  valid_value index -> 0 <= n <= 2 ^ 53 ->
  Spec.numeric_index index n = Cast.LIST_INVALID \/
  exists k : Z, 1 <= k <= n /\ Spec.numeric_index index n = VNumber (of_Z k).
Proof.
  intros Hv Hn. pose proof one_pos as Po. unfold Spec.numeric_index.
  cbn zeta. rewrite <- toNumber_coerced.
  destruct (of_Z_within 1 ltac:(lia)) as [W1 V1].
  destruct (of_Z_within n ltac:(lia)) as [Wn Vn].
  pose proof (within_regular _ _ W1) as R1.
  pose proof (within_regular _ _ Wn) as Rn.
  destruct (wellformed_cases _ (toNumber_wellformed index Hv)) as [Hx | [s Hx]].
  - set (x := Cast.toNumber index) in *.
    destruct (floor_spec x Hx) as [F1 [F2 F3]]. fold one in F3.
    rewrite !leb_val, V1, Vn, F3 by trivial.
    destruct (Z.leb_spec (1 * one) (val x / one * one)) as [L1 | L1];
      [ | now left].
    destruct (Z.leb_spec (val x / one * one) (n * one)) as [L2 | L2];
      [ | now left].
    right. exists (val x / one). cbn [andb].
    assert (Hk : 1 <= val x / one <= n) by nia.
    split; trivial. f_equal.
    apply floor_integer; trivial; try lia.
    destruct (Z.le_gt_cases 0 (val x)) as [H0 | H0]; trivial.
    assert (val x / one < 0) by (apply Z.div_lt_upper_bound; lia). lia.
  - rewrite Hx. left. destruct s; cbn [Math_floor].
    + now destruct (of_Z 1) as [s1 | s1 | | s1 m1 e1]; try (now elim R1).
    + destruct (of_Z 1) as [s1 | s1 | | s1 m1 e1]; try (now elim R1);
        destruct (of_Z n) as [s2 | s2 | | s2 m2 e2]; try (now elim Rn);
        reflexivity.
Qed.

Lemma keyword_eq (index : value) (str : string) :
  Spec.keyword index str = true -> index = VString str.
Proof.
  destruct index as [ | | b | x | s]; try discriminate.
  cbn [Spec.keyword]. now intros ->%String.eqb_eq.
Qed.

Lemma toListIndex_random (index : value) (n : Z) (acceptAll : bool)
    (random : number) :
  index = VString "random" \/ index = VString "any" ->
  Cast.toListIndex index (of_Z n) acceptAll random =
  if gtb (of_Z n) zero
  then VNumber (add (of_Z 1) (Math_floor (mul random (of_Z n))))
  else Cast.LIST_INVALID.
Proof. intros [-> | ->]; reflexivity. Qed.

(** X6: Every result of [toListIndex] is the sentinel [INVALID], the sentinel
    [ALL] (only for the index ["all"] when [acceptAll] holds), or an integer
    between 1 and the length of the list; and the indices ["random"] and
    ["any"] give such an integer for every list that is not empty, and
    [INVALID] for the empty list. *)
Theorem toListIndex_valid_index (index : value) (n : Z) (acceptAll : bool)
    (random : number) :
  valid_value index -> 0 <= n < 2 ^ 53 -> unit_interval random ->
  let result := Cast.toListIndex index (of_Z n) acceptAll random in
  (result = Cast.LIST_INVALID \/
   (result = Cast.LIST_ALL /\ index = VString "all" /\ acceptAll = true) \/
   (exists k : Z, 1 <= k <= n /\ result = VNumber (of_Z k))) /\
  (index = VString "random" \/ index = VString "any" ->
   (0 < n -> exists k : Z, 1 <= k <= n /\ result = VNumber (of_Z k)) /\
   (n = 0 -> result = Cast.LIST_INVALID)).
Proof.
  intros Hv Hn Hr. cbn zeta.
  assert (HR : index = VString "random" \/ index = VString "any" ->
               (0 < n ->
                exists k : Z, 1 <= k <= n /\
                  Cast.toListIndex index (of_Z n) acceptAll random =
                  VNumber (of_Z k)) /\
               (n = 0 ->
                Cast.toListIndex index (of_Z n) acceptAll random =
                Cast.LIST_INVALID)).
  { intros Hi. rewrite (toListIndex_random index n acceptAll random Hi).
    unfold gtb. rewrite ltb_zero_of_Z by lia. split.
    - intros L. destruct (Z.ltb_spec 0 n); [ | lia].
      destruct (random_index random n Hr ltac:(lia)) as [k [Hk E]].
      exists k. split; trivial. now rewrite E.
    - intros ->. reflexivity. }
  split; [ | exact HR].
  destruct (Spec.keyword index "random") eqn:K1;
    [ | destruct (Spec.keyword index "any") eqn:K2].
  - apply keyword_eq in K1. destruct (HR (or_introl K1)) as [H1 H2].
    destruct (Z.eq_dec n 0) as [E | E]; [left; now apply H2 | ].
    right. right. apply H1. lia.
  - apply keyword_eq in K2. destruct (HR (or_intror K2)) as [H1 H2].
    destruct (Z.eq_dec n 0) as [E | E]; [left; now apply H2 | ].
    right. right. apply H1. lia.
  - rewrite toListIndex_eq_spec by (trivial; lia).
    unfold Spec.toListIndex.
    destruct (Spec.keyword index "all") eqn:K3.
    + apply keyword_eq in K3. destruct acceptAll; [ | now left].
      right. left. now repeat split.
    + destruct (Spec.keyword index "last") eqn:K4.
      * destruct (Z.ltb_spec 0 n) as [L | L]; [ | now left].
        right. right. exists n. split; [lia | reflexivity].
      * destruct (numeric_index_valid index n Hv ltac:(lia)) as [H | H];
          [now left | now right; right].
Qed.

Lemma toListIndex_valid_index_witness :
  exists k : Z,
    1 <= k <= 5 /\
    Cast.toListIndex (VString "random") (of_Z 5) false
      (of_decimal false 5 (-1)) = VNumber (of_Z k).
Proof.
  apply (proj2 (toListIndex_valid_index (VString "random") 5 false
                  (of_decimal false 5 (-1)) I
                  ltac:(split; [lia | reflexivity])
                  ltac:(split; [reflexivity | split; reflexivity]))).
  - left. reflexivity.
  - lia.
Defined.

(** *** [Color.decimalToRgb] on integers *)

Lemma wrap32_mod (z : Z) : wrap32 z mod 2 ^ 32 = z mod 2 ^ 32.
Proof.
  unfold wrap32. change (2 ^ 31) with 2147483648.
  change (2 ^ 32) with 4294967296.
  destruct (Z.leb_spec 2147483648 (z mod 4294967296));
    Z.div_mod_to_equations; lia.
Qed.

Lemma wrap32_range (z : Z) : - 2 ^ 31 <= wrap32 z < 2 ^ 31.
Proof.
  unfold wrap32. change (2 ^ 31) with 2147483648.
  change (2 ^ 32) with 4294967296.
  destruct (Z.leb_spec 2147483648 (z mod 4294967296));
    Z.div_mod_to_equations; lia.
Qed.

(** A byte of an integer depends on the integer modulo [2 ^ 32] only. *)
Lemma byte_of_wrap32 (z k : Z) :
  k = 1 \/ k = 256 \/ k = 65536 \/ k = 16777216 ->
  wrap32 z / k mod 256 = z / k mod 256.
Proof.
  intros Hk. pose proof (wrap32_mod z) as H.
  change (2 ^ 32) with 4294967296 in H. revert H.
  generalize (wrap32 z). intros w H.
  destruct Hk as [-> | [-> | [-> | ->]]]; Z.div_mod_to_equations; lia.
Qed.

Lemma band_255_of_Z (d k n : Z) :
  Z.abs d <= 2 ^ 53 -> 0 <= n < 32 -> k = 2 ^ n ->
  k = 1 \/ k = 256 \/ k = 65536 \/ k = 16777216 ->
  band (sar (of_Z d) n) (of_Z 255) = of_Z (d / k mod 256).
Proof.
  intros Hd Hn -> Hk. rewrite band_255. unfold sar.
  rewrite (Z.mod_small n 32) by lia. unfold ToInt32 at 2.
  rewrite truncate_of_Z by trivial.
  rewrite Z.shiftr_div_pow2 by lia.
  pose proof (wrap32_range d) as Hw.
  assert (Hq : - 2 ^ 31 <= wrap32 d / 2 ^ n < 2 ^ 31).
  { pose proof (pow2_pos n ltac:(lia)) as Hp.
    assert (1 <= 2 ^ n) by lia.
    change (2 ^ 31) with 2147483648 in *.
    split.
    - apply Z.div_le_lower_bound; trivial. nia.
    - apply Z.div_lt_upper_bound; trivial. nia. }
  rewrite ToInt32_of_Z by trivial.
  now rewrite byte_of_wrap32.
Qed.

(** X7: [decimalToRgb] reads the four bytes of an integer; an alpha byte of 0
    counts as 255. *)
Theorem decimalToRgb_of_integer (d : Z) :
  Z.abs d <= 2 ^ 53 ->
  Color.decimalToRgb (of_Z d) =
  Color.mkRGB (of_Z (d / 65536 mod 256)) (of_Z (d / 256 mod 256))
    (of_Z (d mod 256))
    (Some (of_Z (if d / 16777216 mod 256 =? 0 then 255
                 else d / 16777216 mod 256))).
Proof.
  intros Hd. unfold Color.decimalToRgb.
  rewrite (band_255_of_Z d 16777216 24), (band_255_of_Z d 65536 16),
    (band_255_of_Z d 256 8); trivial; try lia; try reflexivity; try tauto.
  assert (Hb : band (of_Z d) (of_Z 255) = of_Z (d mod 256)).
  { rewrite band_255. unfold ToInt32. rewrite truncate_of_Z by trivial.
    pose proof (byte_of_wrap32 d 1 ltac:(tauto)) as H.
    now rewrite !Z.div_1_r in H; rewrite H. }
  rewrite Hb.
  pose proof (Z.mod_pos_bound (d / 16777216) 256 ltac:(lia)) as Ha.
  unfold gtb. fold (ltb zero (of_Z (d / 16777216 mod 256))).
  rewrite ltb_zero_of_Z by (change (2 ^ 53) with 9007199254740992; lia).
  destruct (Z.eqb_spec (d / 16777216 mod 256) 0) as [E | E].
  - rewrite E. reflexivity.
  - destruct (Z.ltb_spec 0 (d / 16777216 mod 256)); [reflexivity | lia].
Qed.

Lemma decimalToRgb_of_integer_witness :
  Color.decimalToRgb (of_Z (-2)) =
  Color.mkRGB (of_Z 255) (of_Z 255) (of_Z 254) (Some (of_Z 255)).
Proof. apply (decimalToRgb_of_integer (-2)). simpl. lia. Defined.

Lemma rgbToDecimal_of_bytes (r g b : Z) (alpha : option number) :
  0 <= r <= 255 -> 0 <= g <= 255 -> 0 <= b <= 255 ->
  Color.rgbToDecimal (Some (Color.mkRGB (of_Z r) (of_Z g) (of_Z b) alpha)) =
  Normal (of_Z (r * 65536 + g * 256 + b)).
Proof.
  intros Hr Hg Hb.
  cbn [Color.rgbToDecimal Color.r Color.g Color.b].
  rewrite (shl_of_Z r 16), (shl_of_Z g 8)
    by (change (2 ^ 31) with 2147483648;
        change (2 ^ 16) with 65536; change (2 ^ 8) with 256; lia).
  change (2 ^ 16) with 65536. change (2 ^ 8) with 256.
  rewrite !add_of_Z
    by (change (2 ^ 53) with 9007199254740992; lia).
  reflexivity.
Qed.

(** X8: Unpacking an integer and packing the components again keeps the lower
    24 bits of the integer. *)
Theorem rgbToDecimal_decimalToRgb (d : Z) :
  Z.abs d <= 2 ^ 53 ->
  Color.rgbToDecimal (Some (Color.decimalToRgb (of_Z d))) =
  Normal (of_Z (d mod 16777216)).
Proof.
  intros Hd. unfold Color.decimalToRgb.
  rewrite (band_255_of_Z d 65536 16), (band_255_of_Z d 256 8);
    trivial; try lia; try reflexivity; try tauto.
  assert (Hb : band (of_Z d) (of_Z 255) = of_Z (d mod 256)).
  { rewrite band_255. unfold ToInt32. rewrite truncate_of_Z by trivial.
    pose proof (byte_of_wrap32 d 1 ltac:(tauto)) as H.
    now rewrite !Z.div_1_r in H; rewrite H. }
  rewrite Hb.
  rewrite rgbToDecimal_of_bytes
    by (Z.div_mod_to_equations; lia).
  do 2 f_equal. Z.div_mod_to_equations; lia.
Qed.

Lemma rgbToDecimal_decimalToRgb_witness :
  Color.rgbToDecimal (Some (Color.decimalToRgb (of_Z (-1)))) =
  Normal (of_Z 16777215).
Proof. apply (rgbToDecimal_decimalToRgb (-1)). simpl. lia. Defined.

(** *** Digits in radix 16 *)

Lemma radix_digits_acc (fuel : nat) (R z : Z) (acc : string) :
  radix_digits fuel R z acc = radix_digits fuel R z EmptyString ++ acc.
Proof.
  revert z acc. induction fuel as [ | fuel IH]; intros z acc; trivial.
  cbn [radix_digits]. destruct (z <? R); trivial.
  rewrite IH, (IH _ (String _ EmptyString)), string_app_assoc. reflexivity.
Qed.

Lemma zeros_succ (n : Z) : 0 <= n -> zeros (n + 1) = String "0" (zeros n).
Proof.
  intros Hn. unfold zeros.
  replace (Z.to_nat (n + 1)) with (S (Z.to_nat n)) by lia. reflexivity.
Qed.

Lemma zeros_snoc (n : Z) :
  0 <= n -> zeros n ++ "0" = zeros (n + 1).
Proof.
  intros Hn. unfold zeros.
  replace (Z.to_nat (n + 1)) with (S (Z.to_nat n)) by lia.
  generalize (Z.to_nat n). intros k.
  induction k as [ | k IH]; trivial.
  cbn [repeat string_of_list_ascii append] in *. now rewrite IH.
Qed.

Lemma hex_digits_zero (k : nat) : hex_digits k 0 = zeros (Z.of_nat k).
Proof.
  induction k as [ | k IH]; trivial.
  cbn [hex_digits]. change (0 / 16) with 0. change (0 mod 16) with 0.
  rewrite IH. change (String (digit_char 0) "") with "0".
  rewrite zeros_snoc by lia. f_equal. lia.
Qed.

Lemma hex_digits_length (k : nat) (z : Z) :
  String.length (hex_digits k z) = k.
Proof.
  revert z. induction k as [ | k IH]; intros z; trivial.
  cbn [hex_digits]. rewrite string_app_length, IH. simpl. lia.
Qed.

(** The digits [Number::toString] prints, padded with zeros, are the
    digits of fixed width. *)
Lemma radix_digits_padded (k fuel : nat) (z : Z) :
  (1 <= k)%nat -> (1 <= fuel)%nat ->
  0 <= z < 16 ^ Z.of_nat k -> z < 2 ^ Z.of_nat fuel ->
  let ds := radix_digits fuel 16 z EmptyString in
  (1 <= String.length ds <= k)%nat /\
  hex_digits k z = zeros (Z.of_nat k - Z.of_nat (String.length ds)) ++ ds.
Proof.
  revert fuel z. induction k as [ | k IH]; intros fuel z Hk Hf Hz Hz2; [lia | ].
  destruct fuel as [ | fuel]; [lia | ].
  cbn zeta. cbn [radix_digits hex_digits].
  destruct (Z.ltb_spec z 16) as [L | L].
  - rewrite (Z.div_small z 16) by lia. rewrite hex_digits_zero.
    cbn [String.length]. split; [lia | ]. f_equal. f_equal. lia.
  - rewrite radix_digits_acc.
    assert (Hk' : (1 <= k)%nat).
    { destruct k; [ | lia]. change (16 ^ Z.of_nat 1) with 16 in Hz. lia. }
    assert (Hz' : 0 <= z / 16 < 16 ^ Z.of_nat k).
    { rewrite Nat2Z.inj_succ, Z.pow_succ_r in Hz by lia.
      split; [apply Z.div_pos; lia | apply Z.div_lt_upper_bound; lia]. }
    assert (Hz2' : z / 16 < 2 ^ Z.of_nat fuel).
    { rewrite Nat2Z.inj_succ, Z.pow_succ_r in Hz2 by lia.
      apply Z.div_lt_upper_bound; lia. }
    assert (Hf' : (1 <= fuel)%nat).
    { destruct fuel; [ | lia]. change (2 ^ Z.of_nat 0) with 1 in Hz2'.
      assert (1 <= z / 16) by (apply Z.div_le_lower_bound; lia). lia. }
    destruct (IH fuel (z / 16) Hk' Hf' Hz' Hz2') as [IH1 IH2].
    rewrite string_app_length. cbn [String.length].
    split; [lia | ].
    rewrite IH2, string_app_assoc. f_equal. f_equal. lia.
Qed.

Lemma integer_digits_padded (z : Z) :
  0 < z < 16777216 ->
  let hex := integer_digits 16 z in
  substr "000000" 0 (6 - Z.of_nat (String.length hex)) ++ hex =
  hex_digits 6 z.
Proof.
  intros Hz. cbn zeta. unfold integer_digits.
  pose proof (Z.log2_spec z ltac:(lia)) as [_ Hl].
  pose proof (Z.log2_nonneg z) as Hl0.
  assert (Hr : 0 <= z < 16 ^ Z.of_nat 6)
    by (change (16 ^ Z.of_nat 6) with 16777216; lia).
  assert (Hf : z < 2 ^ Z.of_nat (S (Z.to_nat (Z.log2 z)))).
  { rewrite Nat2Z.inj_succ. rewrite Z2Nat.id; [exact Hl | exact Hl0]. }
  destruct (radix_digits_padded 6 (S (Z.to_nat (Z.log2 z))) z
              ltac:(lia) ltac:(lia) Hr Hf) as [H1 H2].
  cbn zeta in *. rewrite H2. f_equal.
  destruct (String.length _) as [ | [ | [ | [ | [ | [ | [ | n]]]]]]];
    try lia; reflexivity.
Qed.

(** *** Integers as numbers *)

Lemma integer_value_of_Z (z : Z) :
  Z.abs z <= 2 ^ 53 -> integer_value (of_Z z) = Some z.
Proof.
  intros Hz. pose proof bias_eq as HB.
  destruct (of_Z_small z Hz) as [Hr [Hs Hv]].
  destruct (of_Z z) as [s | s | | s m e]; try (now elim Hr).
  - cbn [val integer_value] in *.
    pose proof (pow2_pos bias ltac:(lia)). f_equal. nia.
  - pose proof (bounded_range _ _ Hr) as [Re _].
    cbn [val integer_value sign_bit] in *.
    pose proof (pow2_pos bias ltac:(lia)) as Pb.
    destruct (Z.leb_spec 0 e) as [L | L].
    + f_equal. apply (Z.mul_cancel_r _ _ (2 ^ bias)); [lia | ].
      rewrite <- Hv. rewrite (pow2_split e bias) by lia.
      destruct s; cbn [cond_Zopp]; ring.
    + pose proof (pow2_pos (- e) ltac:(lia)) as Pe.
      assert (Eb : 2 ^ bias = 2 ^ (- e) * 2 ^ (e + bias)).
      { rewrite <- pow2_split by lia. f_equal; lia. }
      pose proof (pow2_pos (e + bias) ltac:(lia)) as Peb.
      assert (Em : Z.pos m = Z.abs z * 2 ^ (- e)).
      { apply (Z.mul_cancel_r _ _ (2 ^ (e + bias))); [lia | ].
        rewrite <- Z.mul_assoc, <- Eb.
        destruct s; cbn [cond_Zopp] in Hv; nia. }
      rewrite Em, Z.mod_mul, Z.div_mul by lia. cbn [Z.eqb].
      f_equal. destruct s; cbn [cond_Zopp] in *; nia.
Qed.

Lemma NumberToString_radix_of_Z (approx : number -> Z -> string) (z : Z) :
  0 < z <= 2 ^ 53 ->
  NumberToString_radix approx (of_Z z) 16 = integer_digits 16 z.
Proof.
  intros Hz.
  pose proof (integer_value_of_Z z ltac:(lia)) as Hi.
  destruct (of_Z_small z ltac:(lia)) as [Hr [Hs Hv]].
  pose proof bias_eq as HB. pose proof (pow2_pos bias ltac:(lia)) as Pb.
  destruct (of_Z z) as [s | s | | s m e]; try (now elim Hr).
  - cbn [val] in Hv. nia.
  - cbn [NumberToString_radix]. rewrite Hi.
    cbn [sign_bit] in Hs. subst s.
    replace (z <? 0) with false by (symmetry; apply Z.ltb_ge; lia).
    rewrite Z.abs_eq by lia.
    destruct (Z.leb_spec z (2 ^ 53)); [reflexivity | lia].
Qed.

(** *** [Color.decimalToHex] and [Color.rgbToHex] *)

Lemma ltb_of_Z_zero (z : Z) :
  Z.abs z <= 2 ^ 53 -> ltb (of_Z z) zero = (z <? 0).
Proof.
  intros Hz. destruct (of_Z_small z Hz) as [Hr [_ Hv]].
  rewrite ltb_val by (trivial; exact I). rewrite Hv. change (val zero) with 0.
  pose proof bias_eq. pose proof (pow2_pos bias ltac:(lia)).
  destruct (Z.ltb_spec z 0), (Z.ltb_spec (z * 2 ^ bias) 0); trivial; nia.
Qed.

Lemma decimalToHex_nonneg (approx : number -> Z -> string) (d : Z) :
  0 <= d < 16777216 ->
  Color.decimalToHex approx (of_Z d) = "#" ++ hex_digits 6 d.
Proof.
  intros Hd. unfold Color.decimalToHex.
  rewrite ltb_of_Z_zero by (change (2 ^ 53) with 9007199254740992; lia).
  replace (d <? 0) with false by (symmetry; apply Z.ltb_ge; lia).
  destruct (Z.eq_dec d 0) as [-> | Hn]; [reflexivity | ].
  rewrite NumberToString_radix_of_Z
    by (change (2 ^ 53) with 9007199254740992; lia).
  f_equal. apply integer_digits_padded. lia.
Qed.

Lemma decimalToHex_negative (approx : number -> Z -> string) (d : Z) :
  - 16777216 <= d < 0 ->
  Color.decimalToHex approx (of_Z d) =
  "#" ++ hex_digits 6 (d + 16777216).
Proof.
  intros Hd. rewrite <- decimalToHex_nonneg with (approx := approx) by lia.
  unfold Color.decimalToHex at 1.
  rewrite ltb_of_Z_zero by (change (2 ^ 53) with 9007199254740992; lia).
  replace (d <? 0) with true by (symmetry; apply Z.ltb_lt; lia).
  rewrite !add_of_Z by (change (2 ^ 53) with 9007199254740992; lia).
  change (16777215 + 1) with 16777216.
  unfold Color.decimalToHex.
  rewrite ltb_of_Z_zero by (change (2 ^ 53) with 9007199254740992; lia).
  replace (d + 16777216 <? 0) with false
    by (symmetry; apply Z.ltb_ge; lia).
  reflexivity.
Qed.

Lemma decimalToHex_24_bits (approx : number -> Z -> string) (d : Z) :
  - 16777216 <= d < 16777216 ->
  Color.decimalToHex approx (of_Z d) = "#" ++ hex_digits 6 (d mod 16777216).
Proof.
  intros Hd. destruct (Z.lt_ge_cases d 0) as [L | L].
  - rewrite decimalToHex_negative by lia. do 2 f_equal.
    apply Z.mod_unique with (q := -1); lia.
  - rewrite decimalToHex_nonneg by lia. now rewrite Z.mod_small by lia.
Qed.

(** X9: A 24-bit decimal colour is printed as [#] and its six hexadecimal
    digits in lower case; a negative decimal stands for its two's
    complement.  This holds whatever the implementation prints for the
    numbers that are no integers. *)
Theorem decimalToHex_spec (approx : number -> Z -> string) (d : Z) :
  - 16777216 <= d < 16777216 ->
  Color.decimalToHex approx (of_Z d) = "#" ++ hex_digits 6 (d mod 16777216).
Proof. apply decimalToHex_24_bits. Qed.

Lemma decimalToHex_spec_witness :
  Color.decimalToHex (fun _ _ => "") (of_Z (-1)) = "#ffffff".
Proof. apply (decimalToHex_spec (fun _ _ => "") (-1)). lia. Defined.

Lemma digit_char_hex (a : Z) :
  0 <= a < 16 ->
  Spec.hex_digit (digit_char a) = true /\
  Spec.hex_value (digit_char a) = a.
Proof.
  intros Ha.
  assert (H : a = 0 \/ a = 1 \/ a = 2 \/ a = 3 \/ a = 4 \/ a = 5 \/ a = 6 \/
              a = 7 \/ a = 8 \/ a = 9 \/ a = 10 \/ a = 11 \/ a = 12 \/
              a = 13 \/ a = 14 \/ a = 15) by lia.
  repeat (destruct H as [-> | H]; [split; reflexivity | ]).
  subst a. split; reflexivity.
Qed.

Lemma hexToRgb_hex_digits (z : Z) :
  0 <= z < 16777216 ->
  Color.hexToRgb_string ("#" ++ hex_digits 6 z) =
  Some (Color.mkRGB (of_Z (z / 65536)) (of_Z (z / 256 mod 256))
          (of_Z (z mod 256)) None).
Proof.
  intros Hz. rewrite hexToRgb_string_eq_spec. unfold Spec.hexToRgb.
  cbn [hex_digits append].
  set (z1 := z / 16). set (z2 := z1 / 16). set (z3 := z2 / 16).
  set (z4 := z3 / 16). set (z5 := z4 / 16).
  destruct (digit_char_hex (z mod 16)) as [A0 B0];
    [apply Z.mod_pos_bound; lia | ].
  destruct (digit_char_hex (z1 mod 16)) as [A1 B1];
    [apply Z.mod_pos_bound; lia | ].
  destruct (digit_char_hex (z2 mod 16)) as [A2 B2];
    [apply Z.mod_pos_bound; lia | ].
  destruct (digit_char_hex (z3 mod 16)) as [A3 B3];
    [apply Z.mod_pos_bound; lia | ].
  destruct (digit_char_hex (z4 mod 16)) as [A4 B4];
    [apply Z.mod_pos_bound; lia | ].
  destruct (digit_char_hex (z5 mod 16)) as [A5 B5];
    [apply Z.mod_pos_bound; lia | ].
  cbn [list_ascii_of_string forallb].
  rewrite A0, A1, A2, A3, A4, A5. cbn [andb].
  unfold Spec.channel. rewrite B0, B1, B2, B3, B4, B5.
  do 2 f_equal; f_equal; unfold z5, z4, z3, z2, z1;
    Z.div_mod_to_equations; lia.
Qed.

(** X11: Printing a 24-bit decimal colour and reading the text gives the decimal
    back (its two's complement when it is negative). *)
Theorem hexToDecimal_decimalToHex (approx : number -> Z -> string) (d : Z) :
  - 16777216 <= d < 16777216 ->
  Color.hexToDecimal (VString (Color.decimalToHex approx (of_Z d))) =
  Normal (of_Z (d mod 16777216)).
Proof.
  intros Hd.
  rewrite decimalToHex_24_bits by trivial.
  pose proof (Z.mod_pos_bound d 16777216 ltac:(lia)) as Hm.
  set (z := d mod 16777216) in *.
  unfold Color.hexToDecimal. cbn [Color.hexToRgb bind].
  rewrite hexToRgb_hex_digits by trivial.
  rewrite rgbToDecimal_of_bytes by (Z.div_mod_to_equations; lia).
  do 2 f_equal. Z.div_mod_to_equations; lia.
Qed.

Lemma hexToDecimal_decimalToHex_witness :
  Color.hexToDecimal
    (VString (Color.decimalToHex (fun _ _ => "") (of_Z 1193046))) =
  Normal (of_Z 1193046).
Proof. apply (hexToDecimal_decimalToHex (fun _ _ => "") 1193046). lia. Defined.

Lemma string_app_nil_r (s : string) : s ++ "" = s.
Proof. induction s as [ | c s IH]; simpl; congruence. Qed.

Lemma hex_digits_app (k1 k2 : nat) (a b : Z) :
  0 <= b < 16 ^ Z.of_nat k2 ->
  hex_digits (k1 + k2) (a * 16 ^ Z.of_nat k2 + b) =
  hex_digits k1 a ++ hex_digits k2 b.
Proof.
  revert b. induction k2 as [ | k2 IH]; intros b Hb.
  - change (16 ^ Z.of_nat 0) with 1 in *.
    rewrite Nat.add_0_r, Z.mul_1_r. replace b with 0 by lia.
    rewrite Z.add_0_r. cbn [hex_digits]. now rewrite string_app_nil_r.
  - rewrite Nat.add_succ_r. cbn [hex_digits].
    rewrite Nat2Z.inj_succ, Z.pow_succ_r in * by lia.
    assert (Hp : 0 < 16 ^ Z.of_nat k2) by (apply Z.pow_pos_nonneg; lia).
    assert (E1 : (a * (16 * 16 ^ Z.of_nat k2) + b) / 16 =
                 a * 16 ^ Z.of_nat k2 + b / 16).
    { replace (a * (16 * 16 ^ Z.of_nat k2) + b)
        with (b + a * 16 ^ Z.of_nat k2 * 16) by ring.
      rewrite Z.div_add by lia. ring. }
    assert (E2 : (a * (16 * 16 ^ Z.of_nat k2) + b) mod 16 = b mod 16).
    { replace (a * (16 * 16 ^ Z.of_nat k2) + b)
        with (b + a * 16 ^ Z.of_nat k2 * 16) by ring.
      apply Z.mod_add. lia. }
    rewrite E1, E2, IH, string_app_assoc; trivial.
    split; [apply Z.div_pos; lia | apply Z.div_lt_upper_bound; lia].
Qed.

Lemma hex_digits_bytes (r g b : Z) :
  0 <= g <= 255 -> 0 <= b <= 255 ->
  hex_digits 6 (r * 65536 + g * 256 + b) =
  hex_digits 2 r ++ hex_digits 2 g ++ hex_digits 2 b.
Proof.
  intros Hg Hb.
  replace (r * 65536 + g * 256 + b)
    with ((r * 16 ^ Z.of_nat 2 + g) * 16 ^ Z.of_nat 2 + b)
    by (change (16 ^ Z.of_nat 2) with 256; ring).
  rewrite (hex_digits_app 4 2), (hex_digits_app 2 2), string_app_assoc;
    trivial; change (16 ^ Z.of_nat 2) with 256; lia.
Qed.

(** X12: The hexadecimal text of a colour with components in [[0, 255]] reads
    back as the same components. *)
Theorem hexToRgb_rgbToHex (approx : number -> Z -> string) (r g b : Z)
    (alpha : option number) :
  0 <= r <= 255 -> 0 <= g <= 255 -> 0 <= b <= 255 ->
  exists hex : string,
    Color.rgbToHex approx
      (Some (Color.mkRGB (of_Z r) (of_Z g) (of_Z b) alpha)) = Normal hex /\
    hex = "#" ++ hex_digits 2 r ++ hex_digits 2 g ++ hex_digits 2 b /\
    Color.hexToRgb (VString hex) =
      Normal (Some (Color.mkRGB (of_Z r) (of_Z g) (of_Z b) None)).
Proof.
  intros Hr Hg Hb.
  set (z := r * 65536 + g * 256 + b).
  assert (Hz : 0 <= z < 16777216) by (unfold z; lia).
  exists ("#" ++ hex_digits 6 z).
  split; [ | split].
  - unfold Color.rgbToHex. rewrite rgbToDecimal_of_bytes by trivial.
    cbn [bind]. fold z. now rewrite decimalToHex_nonneg.
  - f_equal. unfold z. apply hex_digits_bytes; lia.
  - cbn [Color.hexToRgb]. rewrite hexToRgb_hex_digits by trivial.
    do 3 f_equal; f_equal; unfold z; Z.div_mod_to_equations; lia.
Qed.

Lemma hexToRgb_rgbToHex_witness :
  exists hex : string,
    Color.rgbToHex (fun _ _ => "")
      (Some (Color.mkRGB (of_Z 18) (of_Z 52) (of_Z 86) None)) = Normal hex /\
    hex = "#" ++ hex_digits 2 18 ++ hex_digits 2 52 ++ hex_digits 2 86 /\
    Color.hexToRgb (VString hex) =
      Normal (Some (Color.mkRGB (of_Z 18) (of_Z 52) (of_Z 86) None)).
Proof. apply (hexToRgb_rgbToHex (fun _ _ => "") 18 52 86 None); lia. Defined.

Lemma hex_pair_lower (c1 c2 : ascii) :
  Spec.hex_digit c1 = true -> Spec.hex_digit c2 = true ->
  hex_digits 2 (16 * Spec.hex_value c1 + Spec.hex_value c2) =
  String (lower_char c1) (String (lower_char c2) EmptyString).
Proof.
  intros H1 H2. apply hex_digit_In in H1. apply hex_digit_In in H2.
  apply String.eqb_eq.
  assert (H : forallb (fun d1 => forallb (fun d2 =>
                String.eqb
                  (hex_digits 2 (16 * Spec.hex_value d1 + Spec.hex_value d2))
                  (String (lower_char d1) (String (lower_char d2) EmptyString)))
                (list_ascii_of_string "0123456789abcdefABCDEF"))
              (list_ascii_of_string "0123456789abcdefABCDEF") = true)
    by (vm_compute; reflexivity).
  rewrite forallb_forall in H. specialize (H c1 H1).
  rewrite forallb_forall in H. exact (H c2 H2).
Qed.

Lemma rgbToHex_channels (approx : number -> Z -> string)
    (c1 c2 c3 c4 c5 c6 : ascii) :
  Spec.hex_digit c1 = true -> Spec.hex_digit c2 = true ->
  Spec.hex_digit c3 = true -> Spec.hex_digit c4 = true ->
  Spec.hex_digit c5 = true -> Spec.hex_digit c6 = true ->
  Color.rgbToHex approx
    (Some (Color.mkRGB (Spec.channel c1 c2) (Spec.channel c3 c4)
             (Spec.channel c5 c6) None)) =
  Normal ("#" ++ toLowerCase (string_of_list_ascii [c1; c2; c3; c4; c5; c6])).
Proof.
  intros H1 H2 H3 H4 H5 H6.
  pose proof (hex_value_range c1 H1). pose proof (hex_value_range c2 H2).
  pose proof (hex_value_range c3 H3). pose proof (hex_value_range c4 H4).
  pose proof (hex_value_range c5 H5). pose proof (hex_value_range c6 H6).
  unfold Color.rgbToHex, Spec.channel.
  rewrite rgbToDecimal_of_bytes by lia. cbn [bind].
  rewrite decimalToHex_nonneg by lia.
  rewrite hex_digits_bytes by lia.
  rewrite !hex_pair_lower by trivial. reflexivity.
Qed.

(** X13: Reading a hexadecimal colour text and printing the colour gives the
    text in its canonical form: [#] and six digits in lower case. *)
Theorem rgbToHex_hexToRgb (approx : number -> Z -> string) (hex : string)
    (rgb : Color.RGBObject) :
  Color.hexToRgb (VString hex) = Normal (Some rgb) ->
  Color.rgbToHex approx (Some rgb) =
  Normal ("#" ++ toLowerCase (six_digits hex)).
Proof.
  cbn [Color.hexToRgb]. rewrite hexToRgb_string_eq_spec.
  unfold Spec.hexToRgb, six_digits.
  set (body := match hex with String "#" rest => rest | _ => hex end).
  destruct (forallb Spec.hex_digit (list_ascii_of_string body)) eqn:F;
    [ | discriminate].
  destruct (list_ascii_of_string body)
    as [ | c1 [ | c2 [ | c3 [ | c4 [ | c5 [ | c6 [ | c7 rest]]]]]]];
    try discriminate;
    cbn [forallb] in F; rewrite !andb_true_iff in F.
  - destruct F as [F1 [F2 [F3 _]]]. intros E. injection E as <-.
    now apply rgbToHex_channels.
  - destruct F as [F1 [F2 [F3 [F4 [F5 [F6 _]]]]]]. intros E.
    injection E as <-. now apply rgbToHex_channels.
Qed.

Lemma rgbToHex_hexToRgb_witness :
  Color.rgbToHex (fun _ _ => "")
    (Some (Color.mkRGB zero (of_Z 51) (of_Z 255) None)) =
  Normal "#0033ff".
Proof.
  apply (rgbToHex_hexToRgb (fun _ _ => "") "03F"
           (Color.mkRGB zero (of_Z 51) (of_Z 255) None)).
  reflexivity.
Defined.

(** *** Decimals beyond 24 bits *)

Lemma radix_digits_long (k fuel : nat) (z : Z) :
  16 ^ Z.of_nat k <= z -> z < 2 ^ Z.of_nat fuel ->
  (k < String.length (radix_digits fuel 16 z EmptyString))%nat.
Proof.
  revert fuel z. induction k as [ | k IH]; intros fuel z Hz Hf.
  - destruct fuel as [ | fuel].
    + change (2 ^ Z.of_nat 0) with 1 in Hf. change (16 ^ Z.of_nat 0) with 1 in Hz.
      lia.
    + cbn [radix_digits]. destruct (z <? 16); [simpl; lia | ].
      rewrite radix_digits_acc, string_app_length. simpl. lia.
  - rewrite Nat2Z.inj_succ, Z.pow_succ_r in Hz by lia.
    assert (Hp : 0 < 16 ^ Z.of_nat k) by (apply Z.pow_pos_nonneg; lia).
    destruct fuel as [ | fuel].
    + change (2 ^ Z.of_nat 0) with 1 in Hf. lia.
    + cbn [radix_digits].
      destruct (Z.ltb_spec z 16) as [L | L]; [lia | ].
      rewrite radix_digits_acc, string_app_length. cbn [String.length].
      rewrite Nat2Z.inj_succ, Z.pow_succ_r in Hf by lia.
      assert (k < String.length (radix_digits fuel 16 (z / 16) ""))%nat.
      { apply IH.
        - apply Z.div_le_lower_bound; lia.
        - apply Z.div_lt_upper_bound; lia. }
      lia.
Qed.

Lemma hexToRgb_long (body : string) :
  (6 < String.length body)%nat ->
  Color.hexToRgb_string (String "#" body) = None.
Proof.
  intros Hl. rewrite hexToRgb_string_eq_spec. unfold Spec.hexToRgb.
  destruct (forallb Spec.hex_digit (list_ascii_of_string body)); trivial.
  destruct body as [ | c1 [ | c2 [ | c3 [ | c4 [ | c5 [ | c6 [ | c7 rest]]]]]]];
    simpl in Hl; try lia; reflexivity.
Qed.

(** X10: A decimal of more than 24 bits is printed with more than six digits,
    and the text is no colour any more: [hexToRgb] rejects it, and
    [hexToDecimal] throws. *)
Theorem decimalToHex_beyond_24_bits (approx : number -> Z -> string) (d : Z) :
  16777216 <= d <= 2 ^ 53 ->
  (7 < String.length (Color.decimalToHex approx (of_Z d)))%nat /\
  Color.hexToRgb (VString (Color.decimalToHex approx (of_Z d))) =
    Normal None /\
  Color.hexToDecimal (VString (Color.decimalToHex approx (of_Z d))) =
    Throw TypeError.
Proof.
  intros Hd. unfold Color.decimalToHex.
  rewrite ltb_of_Z_zero by lia.
  replace (d <? 0) with false by (symmetry; apply Z.ltb_ge; lia).
  rewrite NumberToString_radix_of_Z by lia.
  set (hex := integer_digits 16 d).
  assert (Hl : (6 < String.length hex)%nat).
  { unfold hex, integer_digits.
    pose proof (Z.log2_spec d ltac:(lia)) as [_ Hl].
    pose proof (Z.log2_nonneg d) as Hl0.
    apply radix_digits_long.
    - change (16 ^ Z.of_nat 6) with 16777216. lia.
    - rewrite Nat2Z.inj_succ. rewrite Z2Nat.id; [exact Hl | exact Hl0]. }
  assert (Es : substr "000000" 0 (6 - Z.of_nat (String.length hex)) = "").
  { unfold substr. cbn [String.length].
    replace (Z.max (6 - Z.of_nat (String.length hex)) 0) with 0 by lia.
    reflexivity. }
  rewrite Es. cbn [append].
  assert (En : Color.hexToRgb_string (String "#" hex) = None)
    by now apply hexToRgb_long.
  split; [simpl; lia | ]. split.
  - cbn [Color.hexToRgb]. now rewrite En.
  - now apply hexToDecimal_null.
Qed.

Lemma decimalToHex_beyond_24_bits_witness :
  (7 < String.length
         (Color.decimalToHex (fun _ _ => "") (of_Z 16777216)))%nat /\
  Color.hexToRgb
    (VString (Color.decimalToHex (fun _ _ => "") (of_Z 16777216))) =
    Normal None /\
  Color.hexToDecimal
    (VString (Color.decimalToHex (fun _ _ => "") (of_Z 16777216))) =
    Throw TypeError.
Proof.
  apply (decimalToHex_beyond_24_bits (fun _ _ => "") 16777216).
  change (2 ^ 53) with 9007199254740992. lia.
Defined.

(** *** The forms of a hexadecimal colour text *)

Lemma hex_digit_lower (c : ascii) :
  Spec.hex_digit (lower_char c) = Spec.hex_digit c.
Proof. destruct c as [[] [] [] [] [] [] [] []]; reflexivity. Qed.

Lemma channel_lower (c1 c2 : ascii) :
  Spec.hex_digit c1 = true -> Spec.hex_digit c2 = true ->
  Spec.channel (lower_char c1) (lower_char c2) = Spec.channel c1 c2.
Proof.
  intros H1 H2. apply hex_digit_In in H1. apply hex_digit_In in H2.
  unfold Spec.channel. f_equal.
  assert (H : forall c, In c (list_ascii_of_string "0123456789abcdefABCDEF") ->
                        Spec.hex_value (lower_char c) = Spec.hex_value c).
  { intros c Hc. cbn in Hc.
    repeat (destruct Hc as [<- | Hc]; [reflexivity | ]). contradiction. }
  now rewrite (H c1 H1), (H c2 H2).
Qed.

Lemma list_ascii_lower (s : string) :
  list_ascii_of_string (toLowerCase s) = map lower_char (list_ascii_of_string s).
Proof. induction s as [ | c s IH]; simpl; congruence. Qed.

Lemma forallb_hex_lower (l : list ascii) :
  forallb Spec.hex_digit (map lower_char l) = forallb Spec.hex_digit l.
Proof.
  induction l as [ | c l IH]; trivial.
  cbn [map forallb]. now rewrite hex_digit_lower, IH.
Qed.

Lemma strip_lower (hex : string) :
  match toLowerCase hex with
  | String "#" rest => rest
  | _ => toLowerCase hex
  end =
  toLowerCase match hex with
              | String "#" rest => rest
              | _ => hex
              end.
Proof.
  destruct hex as [ | c rest]; trivial.
  destruct c as [[] [] [] [] [] [] [] []]; reflexivity.
Qed.

Lemma hexToRgb_lower (hex : string) :
  Spec.hexToRgb (toLowerCase hex) = Spec.hexToRgb hex.
Proof.
  unfold Spec.hexToRgb. rewrite strip_lower.
  set (body := match hex with String "#" rest => rest | _ => hex end).
  rewrite list_ascii_lower, forallb_hex_lower.
  destruct (forallb Spec.hex_digit (list_ascii_of_string body)) eqn:F; trivial.
  destruct (list_ascii_of_string body)
    as [ | c1 [ | c2 [ | c3 [ | c4 [ | c5 [ | c6 [ | c7 rest]]]]]]];
    trivial; cbn [forallb] in F; rewrite !andb_true_iff in F; cbn [map].
  - destruct F as [F1 [F2 [F3 _]]]. now rewrite !channel_lower.
  - destruct F as [F1 [F2 [F3 [F4 [F5 [F6 _]]]]]]. now rewrite !channel_lower.
Qed.

(** X14: [hexToRgb] does not depend on the case of the digits, reads three
    digits as the six digits in which each one is doubled, and reads a text
    with a leading [#] as the text without it. *)
Theorem hexToRgb_forms :
  (forall hex : string,
     Color.hexToRgb (VString (toLowerCase hex)) =
     Color.hexToRgb (VString hex)) /\
  (forall c1 c2 c3 : ascii,
     Color.hexToRgb (VString (string_of_list_ascii [c1; c2; c3])) =
     Color.hexToRgb (VString (string_of_list_ascii [c1; c1; c2; c2; c3; c3]))) /\
  (forall c : ascii, forall hex : string,
     c <> "#"%char ->
     Color.hexToRgb (VString (String "#" (String c hex))) =
     Color.hexToRgb (VString (String c hex))).
Proof.
  split; [ | split].
  - intros hex. cbn [Color.hexToRgb].
    now rewrite !hexToRgb_string_eq_spec, hexToRgb_lower.
  - intros c1 c2 c3. cbn [Color.hexToRgb].
    rewrite !hexToRgb_string_eq_spec. unfold Spec.hexToRgb.
    cbn [string_of_list_ascii].
    destruct (Ascii.eqb_spec c1 "#") as [-> | Hc].
    { cbn [list_ascii_of_string forallb].
      destruct (Spec.hex_digit c2), (Spec.hex_digit c3); reflexivity. }
    assert (E : forall rest : string,
              match String c1 rest with
              | String "#" r => r
              | _ => String c1 rest
              end = String c1 rest).
    { intros rest. destruct c1 as [[] [] [] [] [] [] [] []];
        try reflexivity; now elim Hc. }
    rewrite !E. cbn [list_ascii_of_string forallb].
    destruct (Spec.hex_digit c1), (Spec.hex_digit c2), (Spec.hex_digit c3);
      reflexivity.
  - intros c hex Hc. cbn [Color.hexToRgb].
    rewrite !hexToRgb_string_eq_spec. unfold Spec.hexToRgb.
    f_equal.
    assert (E : match String c hex with
                | String "#" r => r
                | _ => String c hex
                end = String c hex).
    { destruct c as [[] [] [] [] [] [] [] []];
        try reflexivity; now elim Hc. }
    now rewrite E.
Qed.

Lemma hexToRgb_forms_witness :
  Color.hexToRgb (VString "#0033ff") = Color.hexToRgb (VString "0033ff").
Proof.
  apply (proj2 (proj2 hexToRgb_forms) "0"%char "033ff"). discriminate.
Defined.

(** *** Quotients of magnitude at most one *)

Lemma one_multiple_of_ulp (X : Z) :
  0 <= X <= one -> exists k, one = k * ulp X.
Proof.
  intros HX. pose proof bias_eq as HB. unfold one in *.
  rewrite ulp_eq.
  assert (Hd : Zdigits2 X <= bias + 1).
  { apply digits_lt_pow2; [lia | ]. split; [lia | ].
    rewrite (pow2_split bias 1) by lia. change (2 ^ 1) with 2.
    pose proof (pow2_pos bias ltac:(lia)). lia. }
  exists (2 ^ (bias - (Z.max (Zdigits2 X - bias - 53) (-1074) + bias))).
  rewrite <- pow2_split by lia. f_equal; lia.
Qed.

Lemma div_same_magnitude (s1 s2 : bool) (m : positive) (e : Z) :
  bounded prec emax m e = true ->
  represents (xorb s1 s2) one
    (div (S754_finite s1 m e) (S754_finite s2 m e)).
Proof.
  intros Hb. pose proof bias_eq as HB.
  pose proof (bounded_range _ _ Hb) as [Re Dm].
  unfold div, SFdiv, SFdiv_core_binary.
  replace (Zdigits2 (Z.pos m) + e - (Zdigits2 (Z.pos m) + e)) with 0 by lia.
  replace (e - e) with 0 by lia.
  change (Z.min (fexp prec emax 0) 0) with (-53).
  change (0 - -53) with 53.
  cbv beta iota zeta.
  rewrite Z.shiftl_mul_pow2 by lia.
  destruct (Z.div_eucl (Z.pos m * 2 ^ 53) (Z.pos m)) as [q r] eqn:E.
  assert (Hq : q = 2 ^ 53).
  { transitivity (Z.pos m * 2 ^ 53 / Z.pos m);
      [unfold Z.div; now rewrite E | ].
    rewrite Z.mul_comm. apply Z.div_mul. lia. }
  assert (Hr : r = 0).
  { transitivity ((Z.pos m * 2 ^ 53) mod Z.pos m);
      [unfold Z.modulo; now rewrite E | ].
    rewrite Z.mul_comm. apply Z.mod_mul. lia. }
  subst q r.
  assert (Hloc : new_location (Z.pos m) 0 = loc_Exact).
  { unfold new_location, new_location_even, new_location_odd.
    now destruct (Z.even (Z.pos m)). }
  rewrite Hloc.
  destruct (binary_round_aux_value (xorb s1 s2) (2 ^ 53) (-53) loc_Exact)
    as [R [HR Hrep]]; try lia.
  { rewrite fexp_eq. simpl. lia. }
  assert (EX : 2 ^ 53 * 2 ^ (-53 + bias) = one).
  { unfold one. rewrite <- pow2_split by lia. f_equal; lia. }
  rewrite EX in HR.
  destruct (one_multiple_of_ulp one) as [k Hk].
  { pose proof one_pos. lia. }
  rewrite (rounding_exact one R k HR Hk) in Hrep. exact Hrep.
Qed.

Lemma regular_finite_abs (s : bool) (m : positive) (e : Z) :
  bounded prec emax m e = true ->
  Z.abs (val (S754_finite s m e)) = Z.pos m * 2 ^ (e + bias) /\
  0 < Z.pos m * 2 ^ (e + bias).
Proof.
  intros Hb. pose proof (bounded_range _ _ Hb) as [Re _].
  pose proof (val_finite_pos s m e ltac:(lia)) as P.
  split; trivial. destruct s; cbn [val cond_Zopp]; lia.
Qed.

(** A quotient whose dividend is not above the divisor in magnitude. *)
Lemma div_abs_le_one (a b : number) :
  regular a -> regular b -> val b <> 0 ->
  Z.abs (val a) <= Z.abs (val b) ->
  regular (div a b) /\ Z.abs (val (div a b)) <= one /\
  sign_bit (div a b) = xorb (sign_bit a) (sign_bit b).
Proof.
  intros Ha Hb Hnz Hle. pose proof bias_eq as HB. pose proof one_pos as Po.
  destruct b as [sb | sb | | sb mb eb]; try (now elim Hb).
  destruct a as [sa | sa | | sa ma ea]; try (now elim Ha).
  destruct (regular_finite_abs sa ma ea Ha) as [Ea Pa].
  destruct (regular_finite_abs sb mb eb Hb) as [Eb Pb].
  rewrite Ea, Eb in Hle. cbn [sign_bit].
  assert (Hmax : one < 2 ^ (emax + bias)).
  { unfold one. apply Z.pow_lt_mono_r; change emax with 1024; lia. }
  destruct (Z.eq_dec (Z.pos ma * 2 ^ (ea + bias)) (Z.pos mb * 2 ^ (eb + bias)))
    as [E | E].
  - destruct (canonical_same_value ma mb ea eb Ha Hb E) as [-> ->].
    pose proof (div_same_magnitude sa sb mb eb Hb) as Hrep.
    destruct (represents_regular _ _ _ Hrep Hmax) as [C1 [C2 C3]].
    split; trivial. split; trivial.
    rewrite C3. destruct (xorb sa sb); cbn [cond_Zopp]; lia.
  - destruct (div_spec sa sb ma mb ea eb Ha Hb) as [X [R [H0 [HX [HR Hrep]]]]].
    assert (HX1 : X < one).
    { unfold one in *.
      set (va := Z.pos ma * 2 ^ (ea + bias)) in *.
      set (vb := Z.pos mb * 2 ^ (eb + bias)) in *.
      clearbody va vb. clear - HX Hle E Pa Pb Po H0. nia. }
    destruct (one_multiple_of_ulp X ltac:(lia)) as [k Hk].
    pose proof (rounding_le_strict false X R one k HR ltac:(lia) Hk) as HR1.
    pose proof (rounding_nonneg false X R HR H0) as HR0.
    destruct (represents_regular _ _ _ Hrep ltac:(lia)) as [C1 [C2 C3]].
    split; trivial. split; trivial.
    rewrite C3. destruct (xorb sa sb); cbn [cond_Zopp]; lia.
Qed.

Lemma div_within_one (a b : number) (B : Z) :
  within B a -> regular b -> sign_bit b = false -> 0 < val b ->
  B <= val b -> within one (div a b).
Proof.
  intros [Ha [Sa Va]] Hb Sb Pb HB.
  pose proof (within_val B a (conj Ha (conj Sa Va))) as [V0 _].
  destruct (div_abs_le_one a b Ha Hb ltac:(lia) ltac:(lia)) as [C1 [C2 C3]].
  rewrite Sa, Sb in C3. cbn [xorb] in C3.
  split; trivial. split; trivial. lia.
Qed.

(** *** Minimum and maximum of numbers that are not negative *)

Lemma within_not_nan (B : Z) (x : number) : within B x -> isNaN x = false.
Proof. intros [H _]. destruct x; trivial; now elim H. Qed.

Lemma Math_min_pair (B : Z) (a b : number) :
  within B a -> within B b ->
  Math_min [a; b] = if ltb b a then b else a.
Proof.
  intros Ha Hb. unfold Math_min. cbn [existsb fold_left].
  rewrite (within_not_nan _ _ Ha), (within_not_nan _ _ Hb). cbn [orb].
  rewrite min_step_infinity by exact (within_not_nan _ _ Ha).
  unfold min_step. destruct Hb as [Rb [Sb _]].
  destruct b as [sb | sb | | sb mb eb]; try (now elim Rb);
    cbn [sign_bit] in Sb; subst sb; reflexivity.
Qed.

Lemma max_step_negInfinity (x : number) :
  regular x -> max_step negInfinity x = x.
Proof.
  intros Hx. destruct x as [[ | ] | s | | [ | ] m e]; try (now elim Hx);
    reflexivity.
Qed.

Lemma Math_max_pair (B : Z) (a b : number) :
  within B a -> within B b ->
  Math_max [a; b] = if ltb a b then b else a.
Proof.
  intros Ha Hb. unfold Math_max. cbn [existsb fold_left].
  rewrite (within_not_nan _ _ Ha), (within_not_nan _ _ Hb). cbn [orb].
  rewrite max_step_negInfinity by exact (within_regular _ _ Ha).
  unfold max_step, gtb. destruct Ha as [Ra [Sa _]].
  destruct a as [sa | sa | | sa ma ea]; try (now elim Ra);
    cbn [sign_bit] in Sa; subst sa; cbn [is_negzero andb];
    now rewrite andb_false_r.
Qed.

Lemma Math_min_spec (B : Z) (a b : number) :
  within B a -> within B b ->
  within B (Math_min [a; b]) /\
  val (Math_min [a; b]) = Z.min (val a) (val b).
Proof.
  intros Ha Hb. rewrite (Math_min_pair B) by trivial.
  rewrite ltb_val by (eapply within_regular; eassumption).
  destruct (Z.ltb_spec (val b) (val a)); split; trivial; lia.
Qed.

Lemma Math_max_spec (B : Z) (a b : number) :
  within B a -> within B b ->
  within B (Math_max [a; b]) /\
  val (Math_max [a; b]) = Z.max (val a) (val b).
Proof.
  intros Ha Hb. rewrite (Math_max_pair B) by trivial.
  rewrite ltb_val by (eapply within_regular; eassumption).
  destruct (Z.ltb_spec (val a) (val b)); split; trivial; lia.
Qed.

(** *** Differences of numbers of an interval *)

Lemma sub_spread (p q x v : number) (B : Z) :
  within B p -> within B q -> within B x -> within B v ->
  val x <= val p <= val v -> val x <= val q <= val v -> val x < val v ->
  B < 2 ^ (emax + bias) ->
  regular (sub p q) /\
  within (val v) (sub v x) /\ 0 < val (sub v x) /\
  Z.abs (val (sub p q)) <= val (sub v x).
Proof.
  intros Wp Wq Wx Wv Hp Hq Hlt HB.
  pose proof (within_regular _ _ Wp) as Rp.
  pose proof (within_regular _ _ Wq) as Rq.
  pose proof (within_regular _ _ Wx) as Rx.
  pose proof (within_regular _ _ Wv) as Rv.
  pose proof (within_val _ _ Wx) as [Vx0 _].
  pose proof (within_val _ _ Wv) as [_ VvB].
  destruct Wx as [_ [Sx _]], Wv as [_ [Sv _]].
  destruct (sub_nearest v x Rv Rx) as [RD [ND HD]].
  destruct (sub_nearest p q Rp Rq) as [Rf [Nf Hf]].
  rewrite Z.abs_eq in ND by lia.
  assert (HRD : RD <= val v).
  { destruct (val_multiple_of_ulp v (val v - val x) Rv ltac:(lia)) as [k Hk].
    rewrite Z.abs_eq in Hk by lia.
    apply (rounding_le (val v - val x) RD (val v) k);
      [now apply nearest_rounding | lia | exact Hk]. }
  assert (HRD0 : 0 < RD).
  { destruct (val_multiple_of_least v Rv) as [kv Ev].
    destruct (val_multiple_of_least x Rx) as [kx Ex].
    apply (rounding_pos (val v - val x) RD (kv - kx));
      [now apply nearest_rounding | lia | ].
    rewrite Ev, Ex. ring. }
  assert (HfD : Rf <= RD).
  { apply (nearest_mono (Z.abs (val p - val q)) (val v - val x)); trivial.
    lia. }
  assert (Hf0 : 0 <= Rf).
  { apply (rounding_nonneg true (Z.abs (val p - val q)));
      [now apply nearest_rounding | lia]. }
  assert (HDmax : RD < 2 ^ (emax + bias)).
  { apply Z.le_lt_trans with B; [ | exact HB].
    apply Z.le_trans with (val v); trivial. }
  assert (Hfmax : Rf < 2 ^ (emax + bias)).
  { apply Z.le_lt_trans with RD; trivial. }
  destruct (represents_regular _ _ _ HD HDmax) as [D1 [D2 D3]].
  destruct (represents_regular _ _ _ Hf Hfmax) as [F1 [F2 F3]].
  assert (SD : sum_sign (val v - val x) (sign_bit v && negb (sign_bit x))
               = false).
  { unfold sum_sign. destruct (Z.eqb_spec (val v - val x) 0); [lia | ].
    apply Z.ltb_ge. lia. }
  rewrite SD in D2, D3. cbn [cond_Zopp] in D3.
  split; trivial. split; [ | split].
  - split; trivial. split; trivial. lia.
  - lia.
  - rewrite F3, D3.
    destruct (sum_sign (val p - val q) _); cbn [cond_Zopp]; lia.
Qed.

Lemma within_le (A B : Z) (x : number) : within A x -> A <= B -> within B x.
Proof. intros [H1 [H2 H3]] H. repeat split; trivial. lia. Qed.

Lemma within_zero (B : Z) : 0 <= B -> within B zero.
Proof. intros H. repeat split; trivial. Qed.

Lemma sub_integer_unit (k : Z) (q : number) :
  1 <= k <= 5 -> regular q -> Z.abs (val q) <= one ->
  within (6 * one) (sub (of_Z k) q).
Proof.
  intros Hk Hq Hv. pose proof one_pos as Po.
  destruct (of_Z_within k ltac:(change (2 ^ 53) with 9007199254740992; lia))
    as [[Rk [Sk _]] Vk].
  destruct (of_Z_within 6 ltac:(change (2 ^ 53) with 9007199254740992; lia))
    as [[R6 _] V6].
  destruct (sub_spec (of_Z k) q Rk Hq) as [R [HR Hrep]].
  rewrite Vk, Sk in *. cbn [andb] in Hrep.
  assert (HX : 0 <= k * one - val q <= 6 * one) by nia.
  rewrite Z.abs_eq in HR by lia.
  assert (Hs : sum_sign (k * one - val q) false = false).
  { unfold sum_sign. destruct (_ =? 0); trivial. apply Z.ltb_ge. lia. }
  rewrite Hs in Hrep.
  destruct (rounded_below false _ R _ (of_Z 6) HR Hrep R6)
    as [C1 [C2 [C3 C4]]].
  { rewrite V6, Z.abs_eq by lia. lia. }
  rewrite V6, Z.abs_eq in C4 by lia. cbn [cond_Zopp] in C3.
  split; trivial. split; trivial. lia.
Qed.

(** *** [Color.rgbToHsv] *)

(** X15: The hue, saturation and value of a colour whose components lie in
    [[0, 255]]: the hue is in [[0, 360)], the saturation and the value in
    [[0, 1]]. *)
Theorem rgbToHsv_range (rgb : Color.RGBObject) :
  within (255 * one) (Color.r rgb) -> within (255 * one) (Color.g rgb) ->
  within (255 * one) (Color.b rgb) ->
  let hsv := Color.rgbToHsv rgb in
  within (360 * one) (Color.h hsv) /\
  ltb (Color.h hsv) (of_Z 360) = true /\
  within one (Color.s hsv) /\
  within one (Color.v hsv).
Proof.
  intros Wr Wg Wb. pose proof one_pos as Po. pose proof bias_eq as HB.
  destruct (of_Z_within 255 ltac:(change (2 ^ 53) with 9007199254740992; lia))
    as [[R255 [S255 _]] V255].
  destruct (of_Z_within 360 ltac:(change (2 ^ 53) with 9007199254740992; lia))
    as [[R360 [S360 _]] V360].
  destruct (of_Z_within 60 ltac:(change (2 ^ 53) with 9007199254740992; lia))
    as [W60 V60].
  assert (Hone : one < 2 ^ (emax + bias)).
  { unfold one. apply Z.pow_lt_mono_r; change emax with 1024; lia. }
  unfold Color.rgbToHsv. cbn zeta.
  set (r := div (Color.r rgb) (of_Z 255)).
  set (g := div (Color.g rgb) (of_Z 255)).
  set (b := div (Color.b rgb) (of_Z 255)).
  assert (Hr : within one r)
    by (apply (div_within_one _ _ (255 * one)); trivial; lia).
  assert (Hg : within one g)
    by (apply (div_within_one _ _ (255 * one)); trivial; lia).
  assert (Hb : within one b)
    by (apply (div_within_one _ _ (255 * one)); trivial; lia).
  destruct (Math_min_spec one r g Hr Hg) as [Wm1 Vm1].
  destruct (Math_min_spec one _ b Wm1 Hb) as [Wx Vx].
  destruct (Math_max_spec one r g Hr Hg) as [WM1 VM1].
  destruct (Math_max_spec one _ b WM1 Hb) as [Wv Vv].
  set (x := Math_min [Math_min [r; g]; b]) in *.
  set (v := Math_max [Math_max [r; g]; b]) in *.
  rewrite Vm1 in Vx. rewrite VM1 in Vv.
  pose proof (within_val _ _ Hr) as [Vr0 _].
  pose proof (within_val _ _ Hg) as [Vg0 _].
  pose proof (within_val _ _ Hb) as [Vb0 _].
  pose proof (within_regular _ _ Wx) as Rx.
  pose proof (within_regular _ _ Wv) as Rv.
  rewrite (eqb_val x v) by trivial.
  destruct (Z.eqb_spec (val x) (val v)) as [E | E];
    cbn [negb Color.h Color.s Color.v].
  { split; [apply within_zero; lia | ].
    split; [ | split; [apply within_zero; lia | exact Wv]].
    rewrite ltb_val, V360 by (trivial; exact I). apply Z.ltb_lt.
    change (val zero) with 0. lia. }
  assert (Hlt : val x < val v) by lia.
  (* the difference [f] and the offset [i], whatever the branch *)
  set (f := if eqb r x then sub g b else if eqb g x then sub b r else sub r g).
  set (i := if eqb r x then of_Z 3 else if eqb g x then of_Z 5 else of_Z 1).
  assert (Hf : regular f /\ Z.abs (val f) <= val (sub v x)).
  { unfold f. destruct (eqb r x); [ | destruct (eqb g x)].
    - destruct (sub_spread g b x v one) as [A [_ [_ B]]]; trivial; try lia.
      now split.
    - destruct (sub_spread b r x v one) as [A [_ [_ B]]]; trivial; try lia.
      now split.
    - destruct (sub_spread r g x v one) as [A [_ [_ B]]]; trivial; try lia.
      now split. }
  destruct (sub_spread r r x v one) as [_ [WD [PD _]]]; trivial; try lia.
  destruct Hf as [Rf Vf].
  pose proof (within_regular _ _ WD) as RD.
  destruct (div_abs_le_one f (sub v x) Rf RD ltac:(lia))
    as [Rq [Vq _]].
  { rewrite (Z.abs_eq (val (sub v x))) by lia. exact Vf. }
  assert (Hi : exists k, 1 <= k <= 5 /\ i = of_Z k).
  { unfold i. destruct (eqb r x); [ | destruct (eqb g x)];
      [exists 3 | exists 5 | exists 1]; split; trivial; lia. }
  destruct Hi as [k [Hk ->]].
  pose proof (sub_integer_unit k _ Hk Rq Vq) as W1.
  assert (W2 : within (val (of_Z 360))
                 (mul (sub (of_Z k) (div f (sub v x))) (of_Z 60))).
  { apply (mul_within _ _ (6 * one) (60 * one)); trivial.
    rewrite V360. unfold one. lia. }
  rewrite V360 in W2.
  destruct W2 as [R2 [S2 V2]].
  pose proof (within_val _ _ (conj R2 (conj S2 V2))) as [V20 _].
  destruct (rem_spec _ (of_Z 360) R2 R360 ltac:(lia)) as [C1 [C2 C3]].
  rewrite V360 in C3.
  pose proof (Z.rem_bound_pos _ (360 * one) V20 ltac:(lia)) as Hrem.
  split; [ | split; [ | split]].
  - split; trivial. split; [congruence | lia].
  - rewrite ltb_val, V360 by trivial. apply Z.ltb_lt. lia.
  - apply (div_within_one _ _ (val v)); trivial; try lia.
    now destruct Wv as [_ [Sv _]].
  - exact Wv.
Qed.

Lemma rgbToHsv_range_witness :
  let hsv :=
    Color.rgbToHsv (Color.mkRGB (of_Z 10) (of_Z 200) (of_Z 30) None) in
  within (360 * one) (Color.h hsv) /\
  ltb (Color.h hsv) (of_Z 360) = true /\
  within one (Color.s hsv) /\
  within one (Color.v hsv).
Proof.
  apply (rgbToHsv_range (Color.mkRGB (of_Z 10) (of_Z 200) (of_Z 30) None));
    (split; [reflexivity | split; [reflexivity | vm_compute; discriminate]]).
Defined.

(** X16: A gray has hue 0 and saturation 0, and its value is the common
    component divided by 255. *)
Theorem rgbToHsv_gray (c : number) (alpha : option number) :
  within (255 * one) c ->
  Color.rgbToHsv (Color.mkRGB c c c alpha) =
  Color.mkHSV zero zero (div c (of_Z 255)).
Proof.
  intros Wc. pose proof one_pos as Po.
  destruct (of_Z_within 255 ltac:(change (2 ^ 53) with 9007199254740992; lia))
    as [[R255 [S255 _]] V255].
  unfold Color.rgbToHsv. cbn zeta. cbn [Color.r Color.g Color.b].
  set (y := div c (of_Z 255)).
  assert (Hy : within one y)
    by (apply (div_within_one _ _ (255 * one)); trivial; lia).
  pose proof (within_regular _ _ Hy) as Ry.
  assert (Emin : Math_min [y; y] = y).
  { rewrite (Math_min_pair one) by trivial. now destruct (ltb y y). }
  assert (Emax : Math_max [y; y] = y).
  { rewrite (Math_max_pair one) by trivial. now destruct (ltb y y). }
  rewrite Emin, Emin, Emax, Emax.
  rewrite (eqb_val y y), Z.eqb_refl by trivial. reflexivity.
Qed.

Lemma rgbToHsv_gray_witness :
  Color.rgbToHsv (Color.mkRGB (of_Z 7) (of_Z 7) (of_Z 7) None) =
  Color.mkHSV zero zero (div (of_Z 7) (of_Z 255)).
Proof.
  apply (rgbToHsv_gray (of_Z 7) None).
  split; [reflexivity | split; [reflexivity | vm_compute; discriminate]].
Defined.

(** *** The block [charCodeAt] *)

Lemma string_get_some (s : string) (n : nat) :
  (n < String.length s)%nat -> exists c, String.get n s = Some c.
Proof.
  revert n. induction s as [ | c s IH]; intros n Hn; [simpl in Hn; lia | ].
  destruct n as [ | n]; [now exists c | ].
  cbn [String.get]. apply IH. simpl in Hn. lia.
Qed.

Lemma sub_one_exact (x : number) :
  regular x -> one <= val x <= 2 ^ 53 * one ->
  regular (sub x (of_Z 1)) /\ sign_bit (sub x (of_Z 1)) = false /\
  val (sub x (of_Z 1)) = val x - one.
Proof.
  intros Hx Hv. pose proof bias_eq as HB. pose proof one_pos as Po.
  destruct (of_Z_within 1 ltac:(lia)) as [[R1 [S1 _]] V1].
  rewrite Z.mul_1_l in V1.
  destruct (sub_spec x (of_Z 1) Hx R1) as [R [HR Hrep]].
  rewrite V1, S1 in *. cbn [negb] in Hrep. rewrite andb_true_r in Hrep.
  rewrite Z.abs_eq in HR by lia.
  set (X := val x - one) in *.
  assert (Sx : sign_bit x = false).
  { rewrite sign_bit_val; trivial; [apply Z.ltb_ge | ]; lia. }
  assert (HX : exists k, X = k * ulp X).
  { destruct (val_multiple_of_ulp x X Hx ltac:(unfold X; lia)) as [k1 Hk1].
    rewrite Z.abs_eq in Hk1 by lia.
    assert (Hone : exists k2, one = k2 * ulp X).
    { rewrite ulp_eq. unfold one.
      assert (Hd : Zdigits2 X <= bias + 53).
      { apply digits_lt_pow2; [lia | ]. split; [unfold X; lia | ].
        rewrite (pow2_split bias 53) by lia. unfold X, one in *. lia. }
      exists (2 ^ (bias - (Z.max (Zdigits2 X - bias - 53) (-1074) + bias))).
      rewrite <- pow2_split by lia. f_equal; lia. }
    destruct Hone as [k2 Hk2]. exists (k1 - k2).
    rewrite Z.mul_sub_distr_r, <- Hk1, <- Hk2. reflexivity. }
  destruct HX as [k Hk].
  pose proof (rounding_exact X R k HR Hk) as ER. subst R.
  assert (Hs : sum_sign X (sign_bit x) = false).
  { unfold sum_sign. rewrite Sx.
    destruct (X =? 0); trivial. apply Z.ltb_ge. unfold X. lia. }
  rewrite Hs in Hrep. cbn [cond_Zopp] in Hrep.
  assert (Hlt : X < 2 ^ (emax + bias)).
  { assert (2 ^ 53 * 2 ^ bias <= 2 ^ (emax + bias)).
    { rewrite <- pow2_split by lia. apply pow2_le. change emax with 1024. lia. }
    unfold X, one in *. lia. }
  destruct (represents_regular _ _ _ Hrep Hlt) as [C1 [C2 C3]].
  cbn [cond_Zopp] in C3. now repeat split.
Qed.

Lemma charCodeAt_integer (str : string) (x : number) :
  regular x ->
  JS.charCodeAt str x = code_at str (truncate x).
Proof.
  intros Hx. unfold JS.charCodeAt, code_at.
  destruct x as [s | s | | s m e]; try (now elim Hx); reflexivity.
Qed.

Lemma code_not_nan (c : ascii) : isNaN (of_Z (code c)) = false.
Proof. apply of_Z_not_nan. Qed.

(** X17: The block [charCodeAt] on a string: an index between 1 and the length
    gives the code of the character at that place, counted from 1 and the
    fraction of the index dropped, and never NaN; a NaN index is not
    rejected and reads the first character; a [STRING] that is undefined,
    null, a boolean or a number makes the block throw unless the index is
    below 1. *)
Theorem charCodeAt_block_spec :
  (forall (str : string) (x : number),
     regular x -> Z.of_nat (String.length str) <= 2 ^ 53 ->
     one <= val x <= Z.of_nat (String.length str) * one ->
     exists c : ascii,
       String.get (Z.to_nat (val x / one - 1)) str = Some c /\
       Scratch3StringExtBlocks.charCodeAt (VString str) (VNumber x) =
       Normal (of_Z (code c))) /\
  (forall str : string,
     Scratch3StringExtBlocks.charCodeAt (VString str) (VNumber NaN) =
     Normal (code_at str 0)) /\
  (forall STRING INDEX : value,
     not_a_string STRING ->
     Scratch3StringExtBlocks.charCodeAt STRING INDEX =
     if ltb (ToNumber INDEX) (of_Z 1) then Normal NaN else Throw TypeError).
Proof.
  split; [ | split].
  - intros str x Hx Hlen Hv. pose proof one_pos as Po.
    set (len := Z.of_nat (String.length str)) in *.
    assert (Hlen0 : 0 <= len) by (unfold len; lia).
    destruct (of_Z_within 1 ltac:(lia)) as [W1 V1].
    destruct (of_Z_within len ltac:(lia)) as [Wn Vn].
    pose proof (within_regular _ _ W1) as R1.
    pose proof (within_regular _ _ Wn) as Rn.
    assert (Hv' : one <= val x <= 2 ^ 53 * one) by nia.
    destruct (sub_one_exact x Hx Hv') as [S1 [S2 S3]].
    assert (Hq : 1 <= val x / one <= len).
    { split; [apply Z.div_le_lower_bound; lia | ].
      apply Z.div_le_upper_bound; lia. }
    destruct (string_get_some str (Z.to_nat (val x / one - 1))
                ltac:(unfold len in *; lia)) as [c Hc].
    exists c. split; trivial.
    unfold Scratch3StringExtBlocks.charCodeAt, gtb. cbn [ToNumber].
    fold len. rewrite !ltb_val, V1, Vn by trivial.
    replace (val x <? 1 * one) with false
      by (symmetry; apply Z.ltb_ge; lia).
    replace (len * one <? val x) with false
      by (symmetry; apply Z.ltb_ge; lia).
    rewrite charCodeAt_integer by trivial. unfold code_at.
    rewrite truncate_val, S3 by trivial. fold one.
    rewrite Z.quot_div_nonneg by lia.
    replace (val x - one) with (val x + (-1) * one) by ring.
    rewrite Z.div_add by lia.
    replace (val x / one + -1) with (val x / one - 1) by lia.
    replace (val x / one - 1 <? 0) with false
      by (symmetry; apply Z.ltb_ge; lia).
    now rewrite Hc.
  - intros str. unfold Scratch3StringExtBlocks.charCodeAt, gtb.
    cbn [ToNumber].
    now destruct (of_Z (Z.of_nat (String.length str))).
  - intros STRING INDEX Hs.
    unfold Scratch3StringExtBlocks.charCodeAt.
    destruct (ltb (ToNumber INDEX) (of_Z 1)); trivial.
    destruct STRING as [ | | b | n | str]; trivial.
    contradiction.
Qed.

Lemma charCodeAt_block_spec_witness :
  exists c : ascii,
    String.get (Z.to_nat (val (of_decimal false 25 (-1)) / one - 1)) "Hello" =
      Some c /\
    Scratch3StringExtBlocks.charCodeAt (VString "Hello")
      (VNumber (of_decimal false 25 (-1))) = Normal (of_Z (code c)).
Proof.
  apply (proj1 charCodeAt_block_spec "Hello" (of_decimal false 25 (-1))).
  - reflexivity.
  - simpl. lia.
  - split; vm_compute; discriminate.
Defined.

(** *** [xmlEscape] *)

Lemma isUnsafeChar_cases (c : ascii) :
  Util.isUnsafeChar c = true ->
  c = "<"%char \/ c = ">"%char \/ c = "&"%char \/ c = "'"%char \/
  c = "034"%char.
Proof.
  unfold Util.isUnsafeChar. rewrite !orb_true_iff, !Ascii.eqb_eq. tauto.
Qed.

Lemma replaceUnsafeChars_app (s1 s2 : string) :
  Util.replaceUnsafeChars (s1 ++ s2) =
  Util.replaceUnsafeChars s1 ++ Util.replaceUnsafeChars s2.
Proof.
  induction s1 as [ | c s1 IH]; trivial.
  cbn [append Util.replaceUnsafeChars]. now rewrite IH, string_app_assoc.
Qed.

(** X19: The escaped text holds neither an angle bracket, nor an apostrophe, nor
    a quotation mark, whatever the string. *)
Theorem xmlEscape_no_markup (str text : string) :
  Util.xmlEscape (VString str) = Util.Escaped text ->
  forall c : ascii,
    In c (list_ascii_of_string text) ->
    c <> "<"%char /\ c <> ">"%char /\ c <> "'"%char /\ c <> "034"%char.
Proof.
  cbn [Util.xmlEscape]. intros [= <-].
  induction str as [ | c0 str IH]; [intros c [] | ].
  cbn [Util.replaceUnsafeChars]. intros c. rewrite list_ascii_app, in_app_iff.
  intros [H | H]; [ | now apply IH].
  destruct (Util.isUnsafeChar c0) eqn:E.
  - apply isUnsafeChar_cases in E.
    destruct E as [-> | [-> | [-> | [-> | ->]]]]; cbn in H;
      repeat (destruct H as [<- | H]; [repeat split; discriminate | ]);
      contradiction.
  - destruct H as [<- | []].
    unfold Util.isUnsafeChar in E. rewrite !orb_false_iff in E.
    repeat split; intros ->; cbn in E; intuition discriminate.
Qed.

Lemma xmlEscape_no_markup_witness :
  Util.xmlEscape (VString "a<b") = Util.Escaped "a&lt;b" /\
  In "l"%char (list_ascii_of_string "a&lt;b") /\
  ("l"%char <> "<"%char /\ "l"%char <> ">"%char /\
   "l"%char <> "'"%char /\ "l"%char <> "034"%char).
Proof.
  split; [reflexivity | ]. split; [simpl; tauto | ].
  apply (xmlEscape_no_markup "a<b" "a&lt;b"); [reflexivity | simpl; tauto].
Defined.

Lemma replaceUnsafeChars_inj (s1 s2 : string) :
  Util.replaceUnsafeChars s1 = Util.replaceUnsafeChars s2 -> s1 = s2.
Proof.
  revert s2. induction s1 as [ | c1 s1 IH]; intros [ | c2 s2].
  - trivial.
  - cbn [Util.replaceUnsafeChars].
    destruct (Util.isUnsafeChar c2) eqn:E2;
      [apply isUnsafeChar_cases in E2;
       destruct E2 as [-> | [-> | [-> | [-> | ->]]]] | ]; discriminate.
  - cbn [Util.replaceUnsafeChars].
    destruct (Util.isUnsafeChar c1) eqn:E1;
      [apply isUnsafeChar_cases in E1;
       destruct E1 as [-> | [-> | [-> | [-> | ->]]]] | ]; discriminate.
  - cbn [Util.replaceUnsafeChars].
    destruct (Util.isUnsafeChar c1) eqn:E1, (Util.isUnsafeChar c2) eqn:E2.
    + apply isUnsafeChar_cases in E1, E2.
      destruct E1 as [-> | [-> | [-> | [-> | ->]]]];
        destruct E2 as [-> | [-> | [-> | [-> | ->]]]];
        cbn; intros H; try discriminate;
        injection H as H; f_equal; now apply IH.
    + apply isUnsafeChar_cases in E1.
      destruct E1 as [-> | [-> | [-> | [-> | ->]]]]; cbn;
        intros H; injection H as <- _; discriminate.
    + apply isUnsafeChar_cases in E2.
      destruct E2 as [-> | [-> | [-> | [-> | ->]]]]; cbn;
        intros H; injection H as -> _; discriminate.
    + cbn. intros H. injection H as -> H. f_equal. now apply IH.
Qed.

(** X20: Escaping loses nothing: two strings with the same escaped text are
    the same string. *)
Theorem xmlEscape_injective (s1 s2 : string) :
  Util.xmlEscape (VString s1) = Util.xmlEscape (VString s2) -> s1 = s2.
Proof.
  cbn [Util.xmlEscape]. intros H. injection H as H.
  now apply replaceUnsafeChars_inj.
Qed.

Lemma xmlEscape_injective_witness : "a<b" = "a<b".
Proof. apply (xmlEscape_injective "a<b" "a<b"). reflexivity. Defined.


Lemma replaceUnsafeChars_safe (str : string) :
  forallb (fun c => negb (Util.isUnsafeChar c)) (list_ascii_of_string str)
  = true ->
  Util.replaceUnsafeChars str = str.
Proof.
  induction str as [ | c str IH]; trivial.
  cbn [Util.replaceUnsafeChars list_ascii_of_string forallb].
  rewrite andb_true_iff, negb_true_iff. intros [-> H].
  cbn. now rewrite IH.
Qed.


(** X22: Escaping a concatenation is concatenating the escaped parts. *)
Theorem xmlEscape_concatenation (s1 s2 : string) :
  exists t1 t2 : string,
    Util.xmlEscape (VString s1) = Util.Escaped t1 /\
    Util.xmlEscape (VString s2) = Util.Escaped t2 /\
    Util.xmlEscape (VString (s1 ++ s2)) = Util.Escaped (t1 ++ t2).
Proof.
  exists (Util.replaceUnsafeChars s1), (Util.replaceUnsafeChars s2).
  cbn [Util.xmlEscape]. now rewrite replaceUnsafeChars_app.
Qed.

(** *** [uid] *)

Lemma soup_get (i : nat) :
  (i < 87)%nat ->
  exists c : ascii, String.get i Util.soup_ = Some c /\ soup_char c.
Proof.
  intros Hi.
  assert (H : forallb (fun i =>
              match String.get i Util.soup_ with
              | Some c =>
                  existsb (Ascii.eqb c) (list_ascii_of_string Util.soup_) &&
                  negb (Util.isUnsafeChar c)
              | None => false
              end) (seq 0 87) = true) by (vm_compute; reflexivity).
  rewrite forallb_forall in H. specialize (H i).
  rewrite in_seq in H. specialize (H ltac:(lia)).
  destruct (String.get i Util.soup_) as [c | ]; [ | discriminate].
  apply andb_true_iff in H. destruct H as [H1 H2].
  exists c. split; trivial. split.
  - apply existsb_exists in H1. destruct H1 as [c' [Hin E]].
    apply Ascii.eqb_eq in E. now subst c'.
  - now apply negb_true_iff.
Qed.

Lemma charAt_soup (r : number) :
  unit_interval r ->
  exists c : ascii,
    charAt Util.soup_ (mul r (of_Z (Z.of_nat (String.length Util.soup_)))) =
      String c EmptyString /\
    soup_char c.
Proof.
  intros Hr. change (Z.of_nat (String.length Util.soup_)) with 87.
  pose proof one_pos as Po.
  destruct (mul_unit_interval r 87 Hr
              ltac:(change (2 ^ 53) with 9007199254740992; lia))
    as [P1 [P2 P3]].
  set (p := mul r (of_Z 87)) in *.
  assert (P0 : 0 <= val p).
  { destruct p as [s | s | | s m e]; try (now elim P1); cbn [val].
    cbn [sign_bit] in P2. subst s. cbn [cond_Zopp].
    pose proof (bounded_range _ _ P1) as [Re _].
    pose proof (val_finite_pos false m e ltac:(lia)). cbn [cond_Zopp] in *. lia. }
  assert (Hk : 0 <= truncate p < 87).
  { rewrite truncate_val by trivial. fold one.
    rewrite Z.quot_div_nonneg by lia.
    split; [apply Z.div_pos; lia | apply Z.div_lt_upper_bound; lia]. }
  unfold charAt.
  assert (HI : ToIntegerOrInfinity p = Integer (truncate p)).
  { destruct p as [s | s | | s m e]; try (now elim P1); reflexivity. }
  rewrite HI. cbn [code_unit_at].
  destruct (Z.ltb_spec (truncate p) 0) as [L | L]; [lia | ].
  destruct (soup_get (Z.to_nat (truncate p)) ltac:(lia)) as [c [E Hc]].
  rewrite E. now exists c.
Qed.

Lemma concat_chars (P : ascii -> Prop) (l : list string) :
  (forall s, In s l -> exists c, s = String c EmptyString /\ P c) ->
  String.length (String.concat "" l) = List.length l /\
  (forall c, In c (list_ascii_of_string (String.concat "" l)) -> P c).
Proof.
  induction l as [ | s l IH]; intros H.
  - split; [reflexivity | intros c []].
  - destruct (H s ltac:(now left)) as [c [-> Hc]].
    destruct IH as [IH1 IH2]; [intros s Hs; apply H; now right | ].
    destruct l as [ | s' l'].
    + split; [reflexivity | ]. intros c' [<- | []]. exact Hc.
    + change (String.concat "" (String c "" :: s' :: l'))
        with (String c (String.concat "" (s' :: l'))).
      cbn [String.length List.length list_ascii_of_string].
      split; [now rewrite IH1 | ].
      intros c' [<- | Hin]; [exact Hc | now apply IH2].
Qed.

Lemma soup_chars_safe (str : string) :
  (forall c, In c (list_ascii_of_string str) -> soup_char c) ->
  forallb (fun c => negb (Util.isUnsafeChar c)) (list_ascii_of_string str)
  = true.
Proof.
  intros H. apply forallb_forall. intros c Hc.
  destruct (H c Hc) as [_ ->]. reflexivity.
Qed.

(** X18: Whatever [Math.random] returns, [uid] is a string of 20 characters of
    the soup, and escaping it for XML leaves it as it is. *)
Theorem uid_spec (random : nat -> number) :
  (forall i : nat, (i < 20)%nat -> unit_interval (random i)) ->
  String.length (Util.uid random) = 20%nat /\
  (forall c : ascii,
     In c (list_ascii_of_string (Util.uid random)) ->
     In c (list_ascii_of_string Util.soup_)) /\
  Util.xmlEscape (VString (Util.uid random)) = Util.Escaped (Util.uid random).
Proof.
  intros Hr. unfold Util.uid. cbn zeta.
  set (f := fun i : nat =>
              charAt Util.soup_
                (mul (random i) (of_Z (Z.of_nat (String.length Util.soup_))))).
  destruct (concat_chars soup_char (map f (seq 0 20))) as [H1 H2].
  { intros s Hs. apply in_map_iff in Hs. destruct Hs as [i [<- Hi]].
    apply in_seq in Hi. apply charAt_soup, Hr. lia. }
  rewrite length_map, length_seq in H1.
  split; [exact H1 | ]. split.
  - intros c Hc. now destruct (H2 c Hc).
  - cbn [Util.xmlEscape]. f_equal.
    now apply replaceUnsafeChars_safe, soup_chars_safe.
Qed.

Lemma uid_spec_witness :
  String.length (Util.uid (fun _ => zero)) = 20%nat /\
  (forall c : ascii,
     In c (list_ascii_of_string (Util.uid (fun _ => zero))) ->
     In c (list_ascii_of_string Util.soup_)) /\
  Util.xmlEscape (VString (Util.uid (fun _ => zero))) =
    Util.Escaped (Util.uid (fun _ => zero)).
Proof.
  apply (uid_spec (fun _ => zero)). intros i _.
  split; [exact I | split; reflexivity].
Defined.

(** *** Decimal digits *)

Lemma read_digits_uint_acc (d : Decimal.uint) :
  forall (p : positive) (n : Z) (rest : string),
    read_digits 10 (NilEmpty.string_of_uint d ++ rest) (Zpos p) n =
    read_digits 10 rest (Zpos (Pos.of_uint_acc d p))
      (n + Z.of_nat (String.length (NilEmpty.string_of_uint d))).
Proof.
  induction d as [ | d IH | d IH | d IH | d IH | d IH | d IH | d IH | d IH
                   | d IH | d IH]; intros p n rest;
    cbn [NilEmpty.string_of_uint String.append String.length Pos.of_uint_acc];
    [ f_equal; lia | .. ];
    cbn [read_digits];
    match goal with
    | |- context [radix_digit 10 ?c] =>
        let v := eval vm_compute in (radix_digit 10 c) in
        change (radix_digit 10 c) with v
    end; cbv iota;
    match goal with
    | |- read_digits 10 _ ?a _ =
         read_digits 10 _ (Zpos (Pos.of_uint_acc _ ?q)) _ =>
        replace a with (Zpos q) by lia
    end;
    rewrite IH; f_equal; lia.
Qed.

Lemma read_digits_uint (d : Decimal.uint) :
  forall (n : Z) (rest : string),
    read_digits 10 (NilEmpty.string_of_uint d ++ rest) 0 n =
    read_digits 10 rest (Z.of_N (Pos.of_uint d))
      (n + Z.of_nat (String.length (NilEmpty.string_of_uint d))).
Proof.
  induction d as [ | d IH | d IH | d IH | d IH | d IH | d IH | d IH | d IH
                   | d IH | d IH]; intros n rest;
    cbn [NilEmpty.string_of_uint String.append String.length Pos.of_uint];
    [ f_equal; lia | .. ];
    cbn [read_digits];
    match goal with
    | |- context [radix_digit 10 ?c] =>
        let v := eval vm_compute in (radix_digit 10 c) in
        change (radix_digit 10 c) with v
    end; cbv iota;
    [ change (0 * 10 + 0) with 0; rewrite IH; f_equal; lia | .. ];
    match goal with
    | |- read_digits 10 _ ?a _ = _ =>
        let v := eval vm_compute in a in change a with v
    end;
    rewrite read_digits_uint_acc; cbn [Z.of_N]; f_equal; lia.
Qed.

Lemma read_digits_zeros (j : nat) :
  forall (acc n : Z) (rest : string),
    read_digits 10 (zeros (Z.of_nat j) ++ rest) acc n =
    read_digits 10 rest (acc * 10 ^ Z.of_nat j) (n + Z.of_nat j).
Proof.
  unfold zeros. rewrite Nat2Z.id.
  induction j as [ | j IH]; intros acc n rest.
  - cbn [repeat string_of_list_ascii String.append]. f_equal; cbn; lia.
  - cbn [repeat string_of_list_ascii String.append read_digits].
    change (radix_digit 10 "0") with (Some 0). cbv iota.
    rewrite IH. rewrite Nat2Z.inj_succ, Z.pow_succ_r by lia. f_equal; lia.
Qed.

Lemma of_uint_acc_lower (d : Decimal.uint) :
  forall p : positive,
    Zpos p * 10 ^ Z.of_nat (String.length (NilEmpty.string_of_uint d)) <=
    Zpos (Pos.of_uint_acc d p).
Proof.
  induction d as [ | d IH | d IH | d IH | d IH | d IH | d IH | d IH | d IH
                   | d IH | d IH]; intros p;
    cbn [NilEmpty.string_of_uint String.length Pos.of_uint_acc];
    [ cbn; lia | .. ];
    rewrite Nat2Z.inj_succ, Z.pow_succ_r by lia;
    match goal with
    | |- _ <= Zpos (Pos.of_uint_acc _ ?q) =>
        specialize (IH q);
        assert (Zpos p * 10 <= Zpos q) by lia
    end;
    pose proof (Z.pow_pos_nonneg 10
                  (Z.of_nat (String.length (NilEmpty.string_of_uint d)))
                  ltac:(lia) ltac:(lia));
    nia.
Qed.

Lemma to_uint_head (p : positive) :
  match Pos.to_uint p with
  | Decimal.Nil | Decimal.D0 _ => False
  | _ => True
  end.
Proof.
  pose proof (DecimalPos.Unsigned.to_of (Pos.to_uint p)) as H.
  rewrite DecimalPos.Unsigned.of_to in H. cbn [N.to_uint] in H.
  pose proof (DecimalPos.Unsigned.to_uint_nonnil p) as Hn.
  pose proof (DecimalPos.Unsigned.to_uint_nonzero p) as Hz.
  destruct (Pos.to_uint p) as [ | l | l | l | l | l | l | l | l | l | l];
    trivial; [now elim Hn | ].
  rewrite DecimalFacts.unorm_D0 in H.
  destruct l as [ | l | l | l | l | l | l | l | l | l | l];
    [now elim Hz | ..];
    match goal with
    | H : Decimal.D0 ?l = Decimal.unorm ?l |- _ =>
        pose proof (DecimalFacts.nb_digits_unorm l ltac:(discriminate)) as Hl;
        rewrite <- H in Hl; cbn [Decimal.nb_digits] in Hl; lia
    end.
Qed.

Lemma digits_no_space (d : Decimal.uint) :
  forallb (fun c => negb (isWhiteSpaceChar c))
    (list_ascii_of_string (NilEmpty.string_of_uint d)) = true.
Proof.
  induction d; cbn [NilEmpty.string_of_uint list_ascii_of_string forallb];
    trivial.
Qed.

Lemma zeros_no_space (j : Z) :
  forallb (fun c => negb (isWhiteSpaceChar c))
    (list_ascii_of_string (zeros j)) = true.
Proof.
  unfold zeros. induction (Z.to_nat j) as [ | n IH]; trivial.
Qed.

(** The decimal digits of a positive integer: a first digit other than 0,
    as many digits as the integer needs, and the integer for value. *)
Lemma decimal_digits_pos (z : Z) :
  0 < z ->
  exists (c : ascii) (D : string),
    decimal_digits z = String c D /\
    In c (list_ascii_of_string "123456789") /\
    10 ^ Z.of_nat (String.length D) <= z /\
    forallb (fun c => negb (isWhiteSpaceChar c))
      (list_ascii_of_string (decimal_digits z)) = true /\
    forall (n : Z) (rest : string),
      read_digits 10 (decimal_digits z ++ rest) 0 n =
      read_digits 10 rest z
        (n + Z.of_nat (String.length (decimal_digits z))).
Proof.
  intros Hz. destruct z as [ | p | p]; try lia. clear Hz.
  unfold decimal_digits. cbn [Z.to_N N.to_uint].
  pose proof (to_uint_head p) as Hh.
  pose proof (DecimalPos.Unsigned.of_to p) as Hv.
  assert (Hr : forall n rest,
             read_digits 10 (NilEmpty.string_of_uint (Pos.to_uint p) ++ rest)
               0 n =
             read_digits 10 rest (Zpos p)
               (n + Z.of_nat (String.length
                                (NilEmpty.string_of_uint (Pos.to_uint p))))).
  { intros n rest. rewrite read_digits_uint, Hv. reflexivity. }
  pose proof (digits_no_space (Pos.to_uint p)) as Hs.
  destruct (Pos.to_uint p) as [ | l | l | l | l | l | l | l | l | l | l];
    try contradiction;
    cbn [NilEmpty.string_of_uint];
    (eexists; eexists; split; [reflexivity | ]);
    (split; [cbn; tauto | ]);
    (split; [ | split; [exact Hs | exact Hr]]);
    cbn [Pos.of_uint] in Hv; injection Hv as Hv;
    match type of Hv with
    | Pos.of_uint_acc _ ?q = _ =>
        pose proof (of_uint_acc_lower l q) as Hl; rewrite Hv in Hl
    end;
    pose proof (Z.pow_pos_nonneg 10
                  (Z.of_nat (String.length (NilEmpty.string_of_uint l)))
                  ltac:(lia) ltac:(lia));
    nia.
Qed.

(** *** The shortest digits of a number *)

Lemma try_digits_some (x : number) (num den n0 k s n : Z) :
  try_digits x num den n0 k = Some (s, n) ->
  eqb (of_decimal false s (n - k)) x = true /\ (n = n0 \/ n = n0 + 1).
Proof.
  unfold try_digits.
  destruct (if n0 <=? k then (num * 10 ^ (k - n0), den)
            else (num, den * 10 ^ (n0 - k))) as [a b].
  cbv zeta.
  destruct (if a / b + 1 =? 10 ^ k then (10 ^ (k - 1), n0 + 1)
            else (a / b + 1, n0)) as [hi hn] eqn:Eh.
  assert (Hn : hn = n0 \/ hn = n0 + 1).
  { destruct (a / b + 1 =? 10 ^ k); injection Eh as <- <-; tauto. }
  destruct (eqb (of_decimal false (a / b) (n0 - k)) x) eqn:E1,
           (eqb (of_decimal false hi (hn - k)) x) eqn:E2;
    try discriminate.
  - destruct (2 * (a mod b) ?= b); [destruct (Z.even (a / b)) | | ];
      intros [= <- <-]; auto.
  - intros [= <- <-]; auto.
  - intros [= <- <-]; auto.
Qed.

Lemma try_digits_exact (x : number) (num den n0 : Z) :
  eqb (of_decimal false (num / den) 0) x = true ->
  try_digits x num den n0 n0 <> None.
Proof.
  intros H. unfold try_digits. rewrite Z.leb_refl, Z.sub_diag.
  change (10 ^ 0) with 1. rewrite Z.mul_1_r. cbv zeta.
  destruct (if num / den + 1 =? 10 ^ n0 then (10 ^ (n0 - 1), n0 + 1)
            else (num / den + 1, n0)) as [hi hn].
  rewrite H.
  destruct (eqb (of_decimal false hi (hn - n0)) x); [ | discriminate].
  destruct (2 * (num mod den) ?= den); [destruct (Z.even (num / den)) | | ];
    discriminate.
Qed.

Lemma shortest_from_finds (x : number) (num den n0 : Z) (fuel : nat) :
  forall k0 K : Z,
    k0 <= K < k0 + Z.of_nat fuel ->
    try_digits x num den n0 K <> None ->
    exists n k s : Z,
      shortest_from fuel x num den n0 k0 = (n, k, s) /\
      k0 <= k <= K /\ try_digits x num den n0 k = Some (s, n).
Proof.
  induction fuel as [ | fuel IH]; intros k0 K HK HT; [lia | ].
  cbn [shortest_from].
  destruct (try_digits x num den n0 k0) as [[s n] | ] eqn:E.
  - exists n, k0, s. repeat split; trivial; lia.
  - assert (k0 <> K) by (intros ->; contradiction).
    destruct (IH (k0 + 1) K ltac:(lia) HT) as [n [k [s [H1 [H2 H3]]]]].
    exists n, k, s. repeat split; trivial; lia.
Qed.

(** *** Integers below [2 ^ 53] *)

Lemma of_Z_eqb_safe (Y z : Z) :
  0 <= Y -> 0 <= z < 2 ^ 53 -> eqb (of_Z Y) (of_Z z) = true -> Y = z.
Proof.
  intros HY Hz. pose proof bias_eq as HB.
  pose proof (pow2_pos bias ltac:(lia)) as Pb.
  destruct (of_Z_small z ltac:(lia)) as [Rz [Sz Vz]].
  destruct (Z_le_gt_dec Y (2 ^ 53)) as [Hs | Hl].
  - destruct (of_Z_small Y ltac:(lia)) as [RY [SY VY]].
    rewrite eqb_val by trivial. rewrite VY, Vz. intros H.
    apply Z.eqb_eq in H. nia.
  - destruct (binary_normalize_nearest Y 0 false ltac:(lia)) as [R [N Rp]].
    change (SpecFloat.binary_normalize prec emax Y 0 false) with (of_Z Y)
      in Rp.
    replace (if Y =? 0 then false else Y <? 0) with false in Rp
      by (destruct (Z.eqb_spec Y 0); [trivial | symmetry; apply Z.ltb_ge; lia]).
    rewrite Z.abs_eq, Z.add_0_l in N by lia.
    destruct (of_Z_small (2 ^ 53) ltac:(lia)) as [R5 [S5 V5]].
    pose proof (regular_val_mod_ulp _ R5) as M5. rewrite V5 in M5.
    rewrite Z.abs_eq in M5 by nia.
    assert (H5 : 0 <= 2 ^ 53 * 2 ^ bias <= Y * 2 ^ bias) by nia.
    pose proof (nearest_refl _ (proj1 H5) M5) as N5.
    pose proof (nearest_mono _ _ _ _ H5 N5 N) as Hle.
    destruct Rp as [[RY [SY VY]] | [EY _]].
    + rewrite eqb_val by trivial. rewrite VY, Vz. cbn [cond_Zopp].
      intros H. apply Z.eqb_eq in H. nia.
    + rewrite EY. destruct (of_Z z) as [ | | | sz mz ez]; try contradiction;
        discriminate.
Qed.

(** The digits [Number::toString] finds for a positive integer below
    [2 ^ 53] are digits of the integer itself, without a fraction and
    without an exponent. *)
Lemma shortest_digits_integer (m : positive) (e z : Z) :
  bounded prec emax m e = true ->
  Zpos m * 2 ^ (e + bias) = z * 2 ^ bias ->
  0 < z < 2 ^ 53 ->
  exists s j : Z,
    0 < s /\ 0 <= j /\ s * 10 ^ j = z /\
    format_digits (shortest_digits m e) = decimal_digits s ++ zeros j.
Proof.
  intros Hb Hv Hz. pose proof bias_eq as HB.
  destruct (bounded_range m e Hb) as [He _].
  pose proof (pow2_pos bias ltac:(lia)) as Pb.
  set (x := S754_finite false m e).
  assert (Ex : x = of_Z z).
  { destruct (of_Z_small z ltac:(lia)) as [Rz [Sz Vz]].
    apply val_inj; trivial.
    - rewrite Sz. symmetry. apply Z.ltb_ge. lia.
    - rewrite Vz. exact Hv. }
  unfold shortest_digits.
  set (nd := if 0 <=? e then (Z.pos m * 2 ^ e, 1) else (Z.pos m, 2 ^ (- e))).
  assert (Hnd : exists den, 0 < den /\ nd = (z * den, den)).
  { unfold nd. destruct (Z.leb_spec 0 e) as [H0 | H0].
    - exists 1. split; [lia | ]. f_equal.
      rewrite (pow2_split e bias) in Hv by lia. nia.
    - exists (2 ^ (- e)). pose proof (pow2_pos (- e) ltac:(lia)) as Pe.
      split; [trivial | ]. f_equal.
      replace bias with ((e + bias) + (- e)) in Hv at 2 by lia.
      rewrite (pow2_split (e + bias) (- e)) in Hv by lia.
      pose proof (pow2_pos (e + bias) ltac:(lia)). nia. }
  destruct Hnd as [den [Hden ->]]. fold x.
  assert (Hq : z * den / den = z) by (apply Z.div_mul; lia).
  destruct (decimal_digits_pos z ltac:(lia)) as [c [D [ED [_ [HD _]]]]].
  set (n0 := decimal_exponent (z * den) den).
  assert (Hn0 : n0 = Z.of_nat (String.length D) + 1).
  { unfold n0, decimal_exponent.
    destruct (Z.leb_spec den (z * den)); [ | nia].
    rewrite Hq, ED. cbn [String.length]. lia. }
  assert (Hn16 : 1 <= n0 <= 16).
  { split; [lia | ].
    destruct (Z_le_gt_dec n0 16) as [ | Hgt]; [trivial | exfalso].
    assert (10 ^ 16 <= 10 ^ Z.of_nat (String.length D))
      by (apply Z.pow_le_mono_r; lia).
    change (10 ^ 16) with 10000000000000000 in *.
    change (2 ^ 53) with 9007199254740992 in *. lia. }
  assert (HT : try_digits x (z * den) den n0 n0 <> None).
  { apply try_digits_exact. rewrite Hq.
    destruct z as [ | p | p]; try lia.
    cbn [of_decimal Z.leb Z.compare]. change (10 ^ 0) with 1.
    rewrite Z.mul_1_r. cbn [cond_Zopp]. fold (of_Z (Zpos p)).
    rewrite <- Ex. unfold x. rewrite eqb_val by exact Hb.
    apply Z.eqb_refl. }
  destruct (shortest_from_finds x (z * den) den n0 17 1 n0 ltac:(lia) HT)
    as [n [k [s [ES [Hk HS]]]]].
  rewrite ES.
  destruct (try_digits_some _ _ _ _ _ _ _ HS) as [Hok Hn].
  assert (Hs : 0 < s).
  { destruct s as [ | q | q]; [discriminate Hok | lia | discriminate Hok]. }
  exists s, (n - k). split; [trivial | ]. split; [lia | ]. split.
  - apply of_Z_eqb_safe; [ | lia | ].
    + pose proof (Z.pow_pos_nonneg 10 (n - k) ltac:(lia) ltac:(lia)). nia.
    + rewrite <- Ex. destruct s as [ | q | q]; try lia.
      unfold of_decimal in Hok.
      destruct (Z.leb_spec 0 (n - k)); [ | lia]. exact Hok.
  - unfold format_digits.
    destruct (Z.leb_spec k n); [ | lia].
    destruct (Z.leb_spec n 21); [ | lia]. reflexivity.
Qed.

(** *** Reading a signed text of decimal digits *)

Lemma trimEnd_no_space (s : string) :
  forallb (fun c => negb (isWhiteSpaceChar c)) (list_ascii_of_string s) =
  true ->
  trimEnd s = s.
Proof.
  induction s as [ | c s IH]; [trivial | ].
  cbn [list_ascii_of_string forallb]. rewrite andb_true_iff, negb_true_iff.
  intros [Hc Hs]. cbn [trimEnd]. rewrite (IH Hs), Hc. now destruct s.
Qed.

Lemma trim_no_space (s : string) :
  forallb (fun c => negb (isWhiteSpaceChar c)) (list_ascii_of_string s) =
  true ->
  trim s = s.
Proof.
  intros H. unfold trim.
  assert (E : trimStart s = s).
  { destruct s as [ | c s]; [trivial | ].
    cbn [list_ascii_of_string forallb] in H.
    rewrite andb_true_iff, negb_true_iff in H. cbn [trimStart].
    now rewrite (proj1 H). }
  rewrite E. now apply trimEnd_no_space.
Qed.

Lemma read_digits_text (s j : Z) :
  0 < s -> 0 <= j ->
  exists n : Z,
    0 < n /\
    read_digits 10 (decimal_digits s ++ zeros j) 0 0 = (s * 10 ^ j, n, "").
Proof.
  intros Hs Hj.
  destruct (decimal_digits_pos s Hs) as [c [D [ED [_ [_ [_ Hr]]]]]].
  exists (0 + Z.of_nat (String.length (decimal_digits s)) + j). split.
  - rewrite ED. cbn [String.length]. lia.
  - rewrite <- (string_app_nil_r (zeros j)), Hr.
    rewrite <- (Z2Nat.id j Hj) at 1. rewrite read_digits_zeros.
    rewrite (Z2Nat.id j Hj). reflexivity.
Qed.

Lemma signed_text_head (sg : bool) (s j : Z) :
  0 < s ->
  let body := decimal_digits s ++ zeros j in
  let text := (if sg then "-" else "") ++ body in
  trimStart text = text /\ trim text = text /\
  strip_sign text = (sg, body) /\
  non_decimal_prefix text = None /\
  String.eqb body "Infinity" = false /\
  contains_char "." text = false /\
  exists c rest, text = String c rest.
Proof.
  intros Hs body text.
  destruct (decimal_digits_pos s Hs) as [c [D [ED [Hc [_ [Hw _]]]]]].
  assert (Hb : forallb (fun c => negb (isWhiteSpaceChar c))
                 (list_ascii_of_string body) = true).
  { unfold body. rewrite list_ascii_app, forallb_app, Hw.
    apply zeros_no_space. }
  assert (Ht : forallb (fun c => negb (isWhiteSpaceChar c))
                 (list_ascii_of_string text) = true).
  { unfold text. rewrite list_ascii_app, forallb_app, Hb.
    now destruct sg. }
  assert (Hp : contains_char "." body = false).
  { unfold body. rewrite contains_char_existsb, list_ascii_app, existsb_app.
    apply orb_false_iff. split.
    - unfold decimal_digits.
      induction (N.to_uint (Z.to_N s)); trivial.
    - unfold zeros. induction (Z.to_nat j); trivial. }
  assert (Eb : body = String c (D ++ zeros j)) by (unfold body; now rewrite ED).
  split; [ | split; [now apply trim_no_space | ]].
  { pose proof (trim_no_space text Ht) as E. unfold trim in E.
    destruct text as [ | c0 r]; [trivial | ].
    cbn [list_ascii_of_string forallb] in Ht.
    rewrite andb_true_iff, negb_true_iff in Ht. cbn [trimStart].
    now rewrite (proj1 Ht). }
  unfold text. clearbody body. subst body. clear - Hc Hp.
  cbn in Hc.
  destruct Hc
    as [<- | [<- | [<- | [<- | [<- | [<- | [<- | [<- | [<- | []]]]]]]]]];
    destruct sg; cbn [String.append];
    (split; [reflexivity | ]); (split; [reflexivity | ]);
    (split; [reflexivity | ]);
    (split; [ | eexists; eexists; reflexivity]);
    cbn [contains_char String.append] in Hp |- *;
    apply orb_false_iff in Hp; exact (proj2 Hp).
Qed.

Lemma parseInt_signed_text (sg : bool) (s j : Z) :
  0 < s -> 0 <= j ->
  parseInt ((if sg then "-" else "") ++ decimal_digits s ++ zeros j) 10 =
  of_Z (cond_Zopp sg (s * 10 ^ j)).
Proof.
  intros Hs Hj.
  destruct (signed_text_head sg s j Hs) as [E1 [_ [E2 _]]].
  destruct (read_digits_text s j Hs Hj) as [n [Hn Er]].
  unfold parseInt. rewrite E1, E2.
  change (negb (10 =? 0) && ((10 <? 2) || (36 <? 10))) with false.
  change ((10 =? 0) || (10 =? 16)) with false.
  change (10 =? 0) with false. cbv iota. rewrite Er.
  destruct (Z.eqb_spec n 0); [lia | ].
  pose proof (Z.pow_pos_nonneg 10 j ltac:(lia) Hj).
  destruct (Z.eqb_spec (s * 10 ^ j) 0); [nia | reflexivity].
Qed.

Lemma StringToNumber_signed_text (sg : bool) (s j : Z) :
  0 < s -> 0 <= j ->
  StringToNumber ((if sg then "-" else "") ++ decimal_digits s ++ zeros j) =
  of_Z (cond_Zopp sg (s * 10 ^ j)).
Proof.
  intros Hs Hj.
  destruct (signed_text_head sg s j Hs)
    as [_ [E1 [E2 [E3 [E4 [_ [c [rest Et]]]]]]]].
  destruct (read_digits_text s j Hs Hj) as [n [Hn Er]].
  unfold StringToNumber. rewrite E1.
  set (text := (if sg then "-" else "") ++ decimal_digits s ++ zeros j) in *.
  assert (Ed : decimal_literal text = of_Z (cond_Zopp sg (s * 10 ^ j))).
  { unfold decimal_literal. rewrite E2, E4, Er.
    destruct (Z.ltb_spec 0 n); [ | lia].
    cbn [exponent_part]. rewrite Z.sub_0_r.
    pose proof (Z.pow_pos_nonneg 10 j ltac:(lia) Hj).
    destruct (s * 10 ^ j) as [ | p | p] eqn:Ep; try nia.
    cbn [of_decimal Z.leb Z.compare]. change (10 ^ 0) with 1.
    now rewrite Z.mul_1_r. }
  clearbody text. subst text. cbv beta iota. now rewrite E3, Ed.
Qed.

(** *** [Cast.isInt] and [Cast.toString] on numbers *)

Lemma NumberToString_safe_integer (z : Z) :
  z <> 0 -> Z.abs z < 2 ^ 53 ->
  exists s j : Z,
    0 < s /\ 0 <= j /\ s * 10 ^ j = Z.abs z /\
    NumberToString (of_Z z) =
    (if z <? 0 then "-" else "") ++ decimal_digits s ++ zeros j.
Proof.
  intros Hz Hs. pose proof bias_eq as HB.
  pose proof (pow2_pos bias ltac:(lia)) as Pb.
  destruct (of_Z_small z ltac:(lia)) as [Rz [Sz Vz]].
  destruct (of_Z z) as [sg | sg | | sg m e]; try contradiction.
  - cbn [val] in Vz. nia.
  - cbn [regular] in Rz. cbn [sign_bit] in Sz. cbn [val] in Vz.
    destruct (bounded_range m e Rz) as [He _].
    pose proof (val_finite_pos false m e ltac:(lia)) as Pv.
    destruct (shortest_digits_integer m e (Z.abs z) Rz)
      as [s [j [H1 [H2 [H3 H4]]]]].
    { destruct sg; cbn [cond_Zopp] in Vz; nia. }
    { lia. }
    exists s, j. repeat split; trivial.
    cbn [NumberToString]. now rewrite H4, Sz.
Qed.

Lemma of_Z_integer (w : Z) : regular (of_Z w) -> val (of_Z w) mod one = 0.
Proof.
  intros Hr. pose proof bias_eq as HB. unfold one.
  destruct (Z_le_gt_dec (Z.abs w) (2 ^ 53)) as [Hs | Hl].
  - destruct (of_Z_small w Hs) as [_ [_ ->]]. apply Z.mod_mul.
    pose proof (pow2_pos bias ltac:(lia)). lia.
  - destruct (binary_normalize_nearest w 0 false ltac:(lia))
      as [R [[_ [HM _]] Rp]].
    change (SpecFloat.binary_normalize prec emax w 0 false) with (of_Z w)
      in Rp.
    rewrite Z.add_0_l in HM.
    destruct Rp as [[_ [_ VY]] | [EY _]];
      [ | rewrite EY in Hr; contradiction].
    rewrite VY. rewrite ulp_eq in HM.
    rewrite digits_mul_pow2 in HM by lia.
    assert (Hd : 54 <= Zdigits2 (Z.abs w))
      by (apply digits_ge_pow2; change (54 - 1) with 53; lia).
    rewrite Z.max_l in HM by lia.
    replace (Zdigits2 (Z.abs w) + bias - bias - 53 + bias)
      with (bias + (Zdigits2 (Z.abs w) - 53)) in HM by lia.
    rewrite pow2_split in HM by lia.
    pose proof (pow2_pos bias ltac:(lia)) as Pb.
    pose proof (pow2_pos (Zdigits2 (Z.abs w) - 53) ltac:(lia)) as Pt.
    apply Z.mod_divide in HM; [ | lia]. destruct HM as [q Hq].
    apply Z.mod_divide; [lia | ].
    exists (cond_Zopp (if w =? 0 then false else w <? 0)
              (q * 2 ^ (Zdigits2 (Z.abs w) - 53))).
    rewrite Hq. destruct (if w =? 0 then false else w <? 0);
      cbn [cond_Zopp]; lia.
Qed.

Lemma parseInt_decimal_cases (input : string) :
  parseInt input 10 = NaN \/
  (exists sg : bool, parseInt input 10 = S754_zero sg) \/
  exists w : Z, parseInt input 10 = of_Z w.
Proof.
  unfold parseInt. destruct (strip_sign (trimStart input)) as [sign body].
  change (negb (10 =? 0) && ((10 <? 2) || (36 <? 10))) with false.
  change ((10 =? 0) || (10 =? 16)) with false.
  change (10 =? 0) with false. cbv iota.
  destruct (read_digits 10 body 0 0) as [[v n] rest].
  destruct (n =? 0); [now left | right].
  destruct (v =? 0); [left; now exists sign | right; now eexists].
Qed.

Lemma regular_of_Z (x : number) :
  regular x -> val x mod one = 0 -> val x <> 0 ->
  Z.abs (val x) < 2 ^ 53 * one ->
  x = of_Z (val x / one) /\ val x / one <> 0 /\
  Z.abs (val x / one) < 2 ^ 53.
Proof.
  intros Hr Hm Hv Hb. pose proof one_pos as Po.
  apply Z.mod_divide in Hm; [ | lia]. destruct Hm as [z Hz].
  rewrite Hz, Z.div_mul by lia.
  assert (Hz0 : z <> 0) by (intros ->; lia).
  assert (Hzb : Z.abs z < 2 ^ 53) by (rewrite Hz in Hb; nia).
  split; [ | split; trivial].
  destruct (of_Z_small z ltac:(lia)) as [Rz [Sz Vz]].
  apply val_inj; trivial.
  - rewrite Sz, (sign_bit_val x Hr Hv), Hz.
    destruct (Z.ltb_spec z 0), (Z.ltb_spec (z * one) 0); trivial; nia.
  - rewrite Vz, Hz. reflexivity.
Qed.

(** X23: a finite number that [Cast.isInt] accepts is an integer, and
    [Cast.isInt] accepts every integer of magnitude below [2 ^ 53]; an
    infinity is refused. *)
Theorem isInt_number :
  (forall x : number,
     regular x ->
     (Cast.isInt (VNumber x) = true -> val x mod one = 0) /\
     (val x mod one = 0 -> Z.abs (val x) < 2 ^ 53 * one ->
      Cast.isInt (VNumber x) = true)) /\
  Cast.isInt (VNumber Infinity) = false /\
  Cast.isInt (VNumber negInfinity) = false.
Proof.
  split; [ | split; reflexivity].
  intros x Hr. pose proof one_pos as Po. split.
  - intros H. cbn [Cast.isInt] in H.
    destruct (isNaN x) eqn:En; [now destruct x | ].
    destruct (parseInt_decimal_cases (NumberToString x))
      as [E | [[sg E] | [w E]]]; rewrite E in H.
    + destruct x as [ | | | sx mx ex]; discriminate.
    + rewrite eqb_val in H by (trivial; exact I). cbn [val] in H.
      apply Z.eqb_eq in H. rewrite H. reflexivity.
    + destruct (of_Z w) as [sw | sw | | sw mw ew] eqn:Ew.
      * rewrite eqb_val in H by (trivial; exact I). cbn [val] in H.
        apply Z.eqb_eq in H. rewrite H. reflexivity.
      * destruct x as [sx | sx | | sx mx ex]; try contradiction;
          destruct sx, sw; discriminate.
      * destruct x as [ | | | sx mx ex]; discriminate.
      * pose proof (of_Z_valid w) as Hw. rewrite Ew in Hw.
        rewrite eqb_val in H by (trivial; exact Hw).
        apply Z.eqb_eq in H. rewrite H, <- Ew. apply of_Z_integer.
        rewrite Ew. exact Hw.
  - intros Hm Hb. destruct (Z.eq_dec (val x) 0) as [H0 | H0].
    + destruct x as [sx | | | sx mx ex]; try contradiction.
      * now destruct sx.
      * cbn [regular] in Hr. destruct (bounded_range mx ex Hr) as [He _].
        pose proof (val_finite_pos false mx ex ltac:(lia)).
        cbn [val] in H0. destruct sx; cbn [cond_Zopp] in H0; lia.
    + destruct (regular_of_Z x Hr Hm H0 Hb) as [Ex [Hz Hzb]].
      set (z := val x / one) in *. rewrite Ex. cbn [Cast.isInt].
      rewrite of_Z_not_nan.
      destruct (NumberToString_safe_integer z Hz Hzb)
        as [s [j [Hs [Hj [Hv Et]]]]].
      rewrite Et, parseInt_signed_text, Hv by trivial.
      replace (cond_Zopp (z <? 0) (Z.abs z)) with z
        by (destruct (Z.ltb_spec z 0); cbn [cond_Zopp]; lia).
      rewrite <- Ex. rewrite eqb_val by trivial. apply Z.eqb_refl.
Qed.

Lemma isInt_number_witness :
  Cast.isInt (VNumber (of_Z 640)) = true.
Proof.
  apply (proj1 isInt_number (of_Z 640)).
  - reflexivity.
  - vm_compute. reflexivity.
  - vm_compute. reflexivity.
Defined.

(** X24: the text [Cast.toString] gives for an integer of magnitude below
    [2 ^ 53] has no decimal point, and [Cast.toNumber] reads the integer
    back from it. *)
Theorem toNumber_toString_integer (z : Z) :
  Z.abs z < 2 ^ 53 ->
  Cast.toNumber (VString (Cast.toString (VNumber (of_Z z)))) = of_Z z /\
  Cast.isInt (VString (Cast.toString (VNumber (of_Z z)))) = true.
Proof.
  intros Hb. destruct (Z.eq_dec z 0) as [-> | Hz]; [split; reflexivity | ].
  destruct (NumberToString_safe_integer z Hz Hb)
    as [s [j [Hs [Hj [Hv Et]]]]].
  unfold Cast.toString. cbn [ToString Cast.toNumber ToNumber Cast.isInt].
  rewrite Et. split.
  - rewrite StringToNumber_signed_text, Hv by trivial.
    replace (cond_Zopp (z <? 0) (Z.abs z)) with z
      by (destruct (Z.ltb_spec z 0); cbn [cond_Zopp]; lia).
    now rewrite of_Z_not_nan.
  - destruct (signed_text_head (z <? 0) s j Hs) as [_ [_ [_ [_ [_ [H _]]]]]].
    now rewrite H.
Qed.

Lemma toNumber_toString_integer_witness :
  Cast.toNumber (VString (Cast.toString (VNumber (of_Z (-1200))))) =
    of_Z (-1200) /\
  Cast.isInt (VString (Cast.toString (VNumber (of_Z (-1200))))) = true.
Proof.
  apply (toNumber_toString_integer (-1200)). vm_compute. reflexivity.
Defined.

(** *** The canvas number of [switchCanvas] *)



